(** * Symbol table, type compatibility and overload resolution of angel-lsp

    A shallow embedding of the symbol table ([insertSymbolicObject] and the
    types of symbolic.ts), of the compatibility engine of
    [server/src/compile/checkType.ts] and of the overload resolver
    ([checkFunctionMatch]).

    JavaScript objects that are compared by reference or mutated in place
    (symbols, scopes) live in a heap and are named by their address; [===] on
    such objects is equality of addresses.  Tokens and syntax nodes are
    read-only input: they are values that carry the address they were
    allocated at, and [===] on them compares that address. *)

From stdpp Require Import base option list strings pretty gmap fin_maps.

(** ** Outcomes of running a function

    [OutOfFuel] stands for a recursion that did not finish within the fuel it
    was given; [Throws] for a JavaScript exception (a [TypeError], a failed
    [assert]). *)

Inductive outcome (A : Type) : Type :=
| Returns (a : A)
| Throws
| OutOfFuel.
Arguments Returns {A} a.
Arguments Throws {A}.
Arguments OutOfFuel {A}.

Global Instance outcome_ret : MRet outcome := λ A a, Returns a.

Global Instance outcome_bind : MBind outcome := λ A B k m,
  match m with
  | Returns a => k a
  | Throws => Throws
  | OutOfFuel => OutOfFuel
  end.

(** ** Tokens and syntax nodes (external, read-only)

    tokens.ts, parsingToken.ts and nodes.ts are not among the sources; of
    their types only the fields that the embedded functions read are
    kept. *)

(** The address an object was allocated at. *)
Definition addr := positive.
Bind Scope positive_scope with addr.

(** Modelled from the spec: [TokenKind] of tokens.ts, the "kind tag" of a
    token. *)
Inductive TokenKind := Reserved | Identifier | Number_ | String_ | Comment.

(** Modelled from the spec: a position in a source file (tokens.ts). *)
Record Position := { line : nat; character : nat }.

(** Modelled from the spec: [LocationInfo] of tokens.ts, "a source
    location". *)
Record LocationInfo := { path : string; start : Position; end_ : Position }.

(** Modelled from the spec: [ParsingToken] of parsingToken.ts, "an opaque
    lexical token carrying text, a source location, a kind tag, and
    precomputed properties"; [isNumber] is [token.property.isNumber]. *)
Record ParsingToken := {
  token_addr : addr;
  kind : TokenKind;
  text : string;
  location : LocationInfo;
  isNumber : bool;
}.

(** [a === b] on tokens. *)
Definition sameToken (a b : ParsingToken) : bool :=
  bool_decide (token_addr a = token_addr b).

(** Modelled from the spec: [ParsedRange] of nodes.ts, the "source range"
    of a node. *)
Record ParsedRange := { range_start : ParsingToken; range_end : ParsingToken }.

(** Modelled from the spec: [NodeName] of nodes.ts, the tag of a syntax
    node; the tags that the embedded functions test, and those of the other
    nodes named in symbolic.ts. *)
Inductive NodeName :=
| Enum | Class | Interface | Func | If | FuncCall | ConstructCall.

Global Instance NodeName_eq_dec : EqDecision NodeName.
Proof. solve_decision. Defined.

(** Modelled from the spec: the declaration nodes of nodes.ts ([NodeEnum],
    [NodeClass], interfaces); only their name tag and identifier are read. *)
Record NodeDecl := {
  node_addr : addr;
  nodeName : NodeName;
  identifier : ParsingToken;
}.

(** Modelled from the spec: an expression node of nodes.ts; only its range
    is read. *)
Record NodeExpr := { expr_nodeRange : ParsedRange }.

(** Modelled from the spec: an entry of [NodeFunc.paramList]. *)
Record NodeParam := {
  param_identifier : option ParsingToken;
  defaultExpr : option NodeExpr;
}.

(** Modelled from the spec: [NodeFunc] of nodes.ts. *)
Record NodeFunc := { paramList : list NodeParam }.

(** Modelled from the spec: an entry of [callerNode.argList.argList]. *)
Record NodeArg := { assign : NodeExpr }.

(** Modelled from the spec: [NodeFuncCall | NodeConstructCall] of nodes.ts,
    "call-expression and construction-expression nodes exposing an argument
    list and a source range"; the constructor is the [nodeName] tag.  For a
    construction call [type_identifier] is
    [funcCall.type.dataType.identifier]. *)
Inductive CallerNode :=
| NodeFuncCall (call_identifier : ParsingToken) (argList : list NodeArg) (nodeRange : ParsedRange)
| NodeConstructCall (type_identifier : ParsingToken) (argList : list NodeArg) (nodeRange : ParsedRange).

Definition caller_nodeName (n : CallerNode) : NodeName :=
  match n with NodeFuncCall _ _ _ => FuncCall | NodeConstructCall _ _ _ => ConstructCall end.

Definition caller_argList (n : CallerNode) : list NodeArg :=
  match n with NodeFuncCall _ a _ | NodeConstructCall _ a _ => a end.

Definition caller_nodeRange (n : CallerNode) : ParsedRange :=
  match n with NodeFuncCall _ _ r | NodeConstructCall _ _ r => r end.

(** [SymbolOwnerNode = NodeEnum | NodeClass | NodeFunc | NodeIf]. *)
Inductive SymbolOwnerNode :=
| OwnerDecl (n : NodeDecl)
| OwnerFunc (n : NodeFunc)
| OwnerIf.

Definition owner_nodeName (o : SymbolOwnerNode) : NodeName :=
  match o with
  | OwnerDecl n => nodeName n
  | OwnerFunc _ => Func
  | OwnerIf => If
  end.

(** ** Symbols *)

Inductive SymbolKind := Type_ | Function | Variable_.

Global Instance SymbolKind_eq_dec : EqDecision SymbolKind.
Proof. solve_decision. Defined.

Inductive PrimitiveType := Template | String | Bool | Number | Void | Any | Auto.

Global Instance PrimitiveType_eq_dec : EqDecision PrimitiveType.
Proof. solve_decision. Defined.

(** [SourceType = NodeEnum | NodeClass | PrimitiveType]. *)
Inductive SourceType :=
| Primitive (p : PrimitiveType)
| Node (n : NodeDecl).

Definition isSourcePrimitiveType (type : SourceType) : bool :=
  match type with Primitive _ => true | Node _ => false end.

Definition isSourceNodeClass (type : SourceType) : bool :=
  match type with
  | Primitive _ => false
  | Node n => bool_decide (nodeName n = Class)
  end.

(** [a === b] on source types: primitive tags are strings and compare by
    value, nodes are objects and compare by reference. *)
Definition sameSourceType (a b : SourceType) : bool :=
  match a, b with
  | Primitive p, Primitive q => bool_decide (p = q)
  | Node n, Node m => bool_decide (node_addr n = node_addr m)
  | _, _ => false
  end.

(** Reference to a symbol object of any kind ([SymbolicObject]); the
    constructor is the object's [symbolKind]. *)
Inductive SymbolicObject :=
| TypeRef (a : addr)
| FunctionRef (a : addr)
| VariableRef (a : addr).

Global Instance SymbolicObject_eq_dec : EqDecision SymbolicObject.
Proof. solve_decision. Defined.

Definition symbolKind (s : SymbolicObject) : SymbolKind :=
  match s with
  | TypeRef _ => Type_
  | FunctionRef _ => Function
  | VariableRef _ => Variable_
  end.

(** What a deduced type refers to: [SymbolicType | SymbolicFunction]. *)
Inductive DeducedSymbol :=
| OfType (a : addr)
| OfFunction (a : addr).

Global Instance DeducedSymbol_eq_dec : EqDecision DeducedSymbol.
Proof. solve_decision. Defined.

Definition toObject (s : DeducedSymbol) : SymbolicObject :=
  match s with OfType a => TypeRef a | OfFunction a => FunctionRef a end.

(** The result of deducing an expression's type.  [symbolType] is called
    [symbol] in symbolic.ts and [symbolType] in checkType.ts; it refers to a
    [SymbolicType] or, for a function handler, a [SymbolicFunction].
    A [TemplateTranslation] is a [Map] keyed by token identity. *)
#[warnings="-register-all"]
Inductive DeducedType := {
  symbolType : DeducedSymbol;
  sourceScope : option addr;
  templateTranslate : option (gmap addr (option DeducedType));
}.

Abbreviation TemplateTranslation := (gmap addr (option DeducedType)).

(** [baseList] is read by checkType.ts and listed in the spec's data model;
    the interface in symbolic.ts does not declare it. *)
Record SymbolicType := {
  type_declaredPlace : ParsingToken;
  sourceType : SourceType;
  templateTypes : option (list ParsingToken);
  baseList : option (list (option DeducedType));
}.

Record SymbolicFunction := {
  func_declaredPlace : ParsingToken;
  sourceNode : NodeFunc;
  returnType : option DeducedType;
  parameterTypes : list (option DeducedType);
  nextOverload : option addr;
}.

Record SymbolicVariable := {
  var_declaredPlace : ParsingToken;
  type : option DeducedType;
}.

Record ReferencedSymbolInfo := {
  declaredSymbol : SymbolicObject;
  referencedToken : ParsingToken;
}.

Abbreviation SymbolMap := (gmap string SymbolicObject).
Abbreviation ScopeMap := (gmap string addr).

(** [ComplementHints = ComplementScope | ComplementType | CompletionNamespace];
    the constructor is the [complementKind] tag. *)
Inductive ComplementHints :=
| ComplementScope (complementLocation : LocationInfo) (targetScope : addr)
| ComplementType (complementLocation : LocationInfo) (targetType : addr)
| CompletionNamespace (complementLocation : LocationInfo) (namespaceList : list ParsingToken).

Record SymbolScope := {
  ownerNode : option SymbolOwnerNode;
  parentScope : option addr;
  childScopes : ScopeMap;
  symbolMap : SymbolMap;
  referencedList : list ReferencedSymbolInfo;
  completionHints : list ComplementHints;
}.

(** ** The heap and the diagnostic sink *)

Record Heap := {
  types : gmap addr SymbolicType;
  functions : gmap addr SymbolicFunction;
  variables : gmap addr SymbolicVariable;
  scopes : gmap addr SymbolScope;
}.

Record Diagnostic := { diag_location : LocationInfo; diag_message : string }.

Record World := { heap : Heap; diagnostics : list Diagnostic }.

(** [diagnostic.addError(location, message)]. *)
Definition addError (l : LocationInfo) (message : string) (w : World) : World :=
  {| heap := heap w; diagnostics := diagnostics w ++ [{| diag_location := l; diag_message := message |}] |}.

(** The location of a token that [createVirtualToken] makes. *)
Definition virtualLocation : LocationInfo :=
  {| path := ""; start := {| line := 0; character := 0 |}; end_ := {| line := 0; character := 0 |} |}.

Global Instance ParsingToken_inhabited : Inhabited ParsingToken :=
  populate {| token_addr := 1; kind := Reserved; text := ""; location := virtualLocation; isNumber := false |}.

Global Instance SymbolicType_inhabited : Inhabited SymbolicType :=
  populate {| type_declaredPlace := inhabitant; sourceType := Primitive Void; templateTypes := None; baseList := None |}.

Global Instance SymbolicFunction_inhabited : Inhabited SymbolicFunction :=
  populate {| func_declaredPlace := inhabitant; sourceNode := {| paramList := [] |};
              returnType := None; parameterTypes := []; nextOverload := None |}.

Global Instance SymbolicVariable_inhabited : Inhabited SymbolicVariable :=
  populate {| var_declaredPlace := inhabitant; type := None |}.

Global Instance SymbolScope_inhabited : Inhabited SymbolScope :=
  populate {| ownerNode := None; parentScope := None; childScopes := ∅; symbolMap := ∅;
              referencedList := []; completionHints := [] |}.

(** The object at an address.  Every address a JavaScript program holds is
    allocated; an address outside the heap reads as an empty object. *)
Definition getType (h : Heap) (a : addr) : SymbolicType := types h !!! a.
Definition getFunction (h : Heap) (a : addr) : SymbolicFunction := functions h !!! a.
Definition getVariable (h : Heap) (a : addr) : SymbolicVariable := variables h !!! a.
Definition getScope (h : Heap) (a : addr) : SymbolScope := scopes h !!! a.

(** [symbol.declaredPlace], a field of [SymbolicBase]. *)
Definition declaredPlace (h : Heap) (symbol : SymbolicObject) : ParsingToken :=
  match symbol with
  | TypeRef a => type_declaredPlace (getType h a)
  | FunctionRef a => func_declaredPlace (getFunction h a)
  | VariableRef a => var_declaredPlace (getVariable h a)
  end.

(** [array[i]]: the element, or [undefined] past the end. *)
Definition at_index {A : Type} (l : list (option A)) (i : nat) : option A :=
  mjoin (l !! i).

(** ** symbolic.ts: inserting into a symbol map *)

(** [cursor.nextOverload = symbol]. *)
Definition setNextOverload (h : Heap) (cursor symbol : addr) : Heap :=
  let c := getFunction h cursor in
  {| types := types h;
     functions := <[cursor := {| func_declaredPlace := func_declaredPlace c;
                                 sourceNode := sourceNode c;
                                 returnType := returnType c;
                                 parameterTypes := parameterTypes c;
                                 nextOverload := Some symbol |}]> (functions h);
     variables := variables h;
     scopes := scopes h |}.

(** The [for (;;)] loop of [insertSymbolicObject]: walk to the tail of the
    chain and hang [symbol] there. *)
Fixpoint appendOverload (fuel : nat) (h : Heap) (cursor symbol : addr) : outcome Heap :=
  match fuel with
  | O => OutOfFuel
  | S fuel' =>
      match nextOverload (getFunction h cursor) with
      | None => Returns (setNextOverload h cursor symbol)
      | Some next => appendOverload fuel' h next symbol
      end
  end.

Definition duplicateMessage (identifier : string) : string :=
  "Symbol '" +:+ identifier +:+ "' is already defined 💢".

Definition insertSymbolicObject (fuel : nat) (map : SymbolMap) (symbol : SymbolicObject) (w : World)
  : outcome (bool * SymbolMap * World) :=
  let identifier := text (declaredPlace (heap w) symbol) in
  match map !! identifier with
  | None => Returns (true, <[identifier := symbol]> map, w)
  | Some hit =>
      match symbol, hit with
      | FunctionRef s, FunctionRef cursor =>
          h' ← appendOverload fuel (heap w) cursor s;
          Returns (true, map, {| heap := h'; diagnostics := diagnostics w |})
      | _, _ =>
          Returns (false, map,
                   addError (location (declaredPlace (heap w) symbol)) (duplicateMessage identifier) w)
      end
  end.

(** ** symbolic.ts: template translation and lookup *)

Definition resolveTemplateType (h : Heap) (templateTranslate : TemplateTranslation)
    (arg : option DeducedType) : option DeducedType :=
  match arg with
  | Some a =>
      match templateTranslate !! token_addr (declaredPlace h (toObject (symbolType a))) with
      | Some bound => bound
      | None => arg
      end
  | None => arg
  end.

Definition resolveTemplateTypes (h : Heap) (templateTranslate : TemplateTranslation)
    (args : list (option DeducedType)) : list (option DeducedType) :=
  map (resolveTemplateType h templateTranslate) args.

Definition findSymbolShallowly (scope : SymbolScope) (identifier : string) : option SymbolicObject :=
  symbolMap scope !! identifier.

Fixpoint findSymbolWithParent (fuel : nat) (h : Heap) (scope : addr) (identifier : string)
  : outcome (option (SymbolicObject * addr)) :=
  match fuel with
  | O => OutOfFuel
  | S fuel' =>
      match symbolMap (getScope h scope) !! identifier with
      | Some symbol => Returns (Some (symbol, scope))
      | None =>
          match parentScope (getScope h scope) with
          | None => Returns None
          | Some parent => findSymbolWithParent fuel' h parent identifier
          end
      end
  end.

(** Modelled from the spec: [findScopeShallowly] of scope.ts, which is not
    among the sources, "an analogous shallow scope lookup (by child-scope
    name)". *)
Definition findScopeShallowly (h : Heap) (scope : addr) (identifier : string) : option addr :=
  childScopes (getScope h scope) !! identifier.

(** ** symbolic.ts: the builtin type registry *)

Global Instance TokenKind_eq_dec : EqDecision TokenKind.
Proof. solve_decision. Defined.

Section Builtins.
(** [numberTypeSet] of tokenReserves.ts and [createVirtualToken] of
    parsingToken.ts are not among the sources. *)
Variable numberTypeSet : list string.
Variable createVirtualToken : TokenKind → string → ParsingToken.

Definition createBuiltinType (virtualToken : ParsingToken) (name : PrimitiveType) : SymbolicType :=
  {| type_declaredPlace := virtualToken; sourceType := Primitive name;
     templateTypes := None; baseList := None |}.

(** The [for (const name of numberTypeSet) map.set(name, ...)] loop. *)
Definition builtinNumberTypeMap : gmap string SymbolicType :=
  foldl (λ (map : gmap string SymbolicType) name,
           <[name := createBuiltinType (createVirtualToken Reserved name) Number]> map)
        ∅ numberTypeSet.

Definition builtinStringType : SymbolicType :=
  createBuiltinType (createVirtualToken String_ "string") String.

(** [builtinNumberTypeMap.get('int')!]: the [!] checks nothing when the
    program runs. *)
Definition builtinIntType : option SymbolicType := builtinNumberTypeMap !! "int".

Definition builtinFloatType : option SymbolicType := builtinNumberTypeMap !! "float".

Definition builtinDoubleType : option SymbolicType := builtinNumberTypeMap !! "double".

Definition assignBuiltinNumberType (key : string) : outcome SymbolicType :=
  match builtinNumberTypeMap !! key with
  | Some type => Returns type
  | None => Throws
  end.

Definition builtinBoolType : SymbolicType :=
  createBuiltinType (createVirtualToken Reserved "bool") Bool.

Definition builtinVoidType : SymbolicType :=
  createBuiltinType (createVirtualToken Reserved "void") Void.

Definition builtinAnyType : SymbolicType :=
  createBuiltinType (createVirtualToken Reserved "?") Any.

Definition builtinAutoType : SymbolicType :=
  createBuiltinType (createVirtualToken Reserved "auto") Auto.

Definition tryGetBuiltInType (token : ParsingToken) : outcome (option SymbolicType) :=
  if negb (bool_decide (kind token = Reserved)) then Returns None
  else
    let identifier := text token in
    if bool_decide (identifier = "bool") then Returns (Some builtinBoolType)
    else if bool_decide (identifier = "void") then Returns (Some builtinVoidType)
    else if bool_decide (identifier = "?") then Returns (Some builtinAnyType)
    else if bool_decide (identifier = "auto") then Returns (Some builtinAutoType)
    else if bool_decide (kind token = Reserved) && isNumber token then
      type ← assignBuiltinNumberType identifier; Returns (Some type)
    else Returns None.
End Builtins.

(** ** checkType.ts: the compatibility engine *)

Definition canCastStatically (srcNode : NodeDecl) (destNode : SourceType)
    (srcType : SymbolicType) (destType : addr) : bool :=
  if bool_decide (nodeName srcNode = Class) || bool_decide (nodeName srcNode = Interface) then
    match baseList srcType with
    | None => false
    | Some bases =>
        existsb (λ srcBase : option DeducedType,
                   match srcBase with
                   | Some b => bool_decide (symbolType b = OfType destType)
                   | None => false
                   end) bases
    end
  else false.

Definition canCastFromPrimitiveType (srcType destType : SymbolicType) : outcome bool :=
  let srcNode := sourceType srcType in
  let destNode := sourceType destType in
  match srcNode with
  | Primitive Template =>
      Returns (sameSourceType destNode (Primitive Template)
               && sameToken (type_declaredPlace srcType) (type_declaredPlace destType))
  | Primitive String =>
      let destName := text (type_declaredPlace destType) in
      Returns (bool_decide (destName = "string") || bool_decide (destName = "String"))
  | Primitive Void => Returns false
  | Primitive Number => Returns (sameSourceType (sourceType destType) (Primitive Number))
  | Primitive Bool => Returns (sameSourceType (sourceType destType) (Primitive Bool))
  | Primitive Any => Returns true
  | Primitive Auto => Returns true
  | Node _ => Throws
  end.

(** The test in [canConstructBy]: exactly one parameter, of a type symbol
    whose source type is [srcType]. *)
Definition acceptsSingle (h : Heap) (constructor : SymbolicFunction) (srcType : SourceType) : bool :=
  if bool_decide (length (parameterTypes constructor) = 1) then
    match at_index (parameterTypes constructor) 0 with
    | Some paramType =>
        match symbolType paramType with
        | OfType t => sameSourceType (sourceType (getType h t)) srcType
        | OfFunction _ => false
        end
    | None => false
    end
  else false.

Fixpoint canConstructBy (fuel : nat) (h : Heap) (constructor : addr) (srcType : SourceType)
  : outcome bool :=
  match fuel with
  | O => OutOfFuel
  | S fuel' =>
      if acceptsSingle h (getFunction h constructor) srcType then Returns true
      else
        match nextOverload (getFunction h constructor) with
        | Some next => canConstructBy fuel' h next srcType
        | None => Returns false
        end
  end.

Definition canConstructImplicitly (fuel : nat) (h : Heap) (srcType : SymbolicType)
    (destScope : option addr) (destIdentifier : string) : outcome bool :=
  match destScope with
  | None => Returns false
  | Some destScope =>
      match findScopeShallowly h destScope destIdentifier with
      | None => Returns false
      | Some constructorScope =>
          if bool_decide (owner_nodeName <$> ownerNode (getScope h constructorScope) = Some Class) then
            match findSymbolShallowly (getScope h constructorScope) destIdentifier with
            | Some (FunctionRef constructor) =>
                canConstructBy fuel h constructor (sourceType srcType)
            | _ => Returns false
            end
          else Returns false
      end
  end.

(** The self-resolution at the head of [isTypeMatch]: a deduced type that
    carries a [templateTranslate] is looked up in it. *)
Definition selfResolve (h : Heap) (type : DeducedType) : option DeducedType :=
  match templateTranslate type with
  | Some t => resolveTemplateType h t (Some type)
  | None => Some type
  end.

(** The two direct rules of [isTypeMatchInternal]: the primitive matrix for
    a primitive source; same declaration or an inherited base otherwise. *)
Definition castsDirectly (srcType destType : SymbolicType) (dest : addr) : outcome bool :=
  match sourceType srcType with
  | Primitive _ => canCastFromPrimitiveType srcType destType
  | Node srcNode =>
      Returns (sameToken (type_declaredPlace srcType) (type_declaredPlace destType)
               || canCastStatically srcNode (sourceType destType) srcType dest)
  end.

(** The last rule of [isTypeMatchInternal]: a class destination may be
    constructed implicitly from the source. *)
Definition constructorFallback (fuel : nat) (h : Heap) (srcType : SymbolicType)
    (dest : DeducedType) (destNode : SourceType) : outcome bool :=
  match destNode with
  | Primitive _ => Returns false
  | Node destNode =>
      if negb (bool_decide (nodeName destNode = Class)) then Returns false
      else
        let destIdentifier := text (identifier destNode) in
        canConstructImplicitly fuel h srcType (sourceScope dest) destIdentifier
  end.

Section TypeMatch.
(** The functions of checkType.ts call each other in a cycle; [isTypeMatch]
    stands for the call back into [isTypeMatch] with the fuel that is
    left. *)
Variable fuel : nat.
Variable h : Heap.
Variable isTypeMatch : option DeducedType → option DeducedType → outcome bool.

(** The [for] loop of [isFunctionHandlerMatch], from index [i] on. *)
Fixpoint handlerParametersMatch (srcParams destParams : list (option DeducedType))
    (i remaining : nat) : outcome bool :=
  match remaining with
  | O => Returns true
  | S remaining' =>
      b ← isTypeMatch (at_index srcParams i) (at_index destParams i);
      if negb b then Returns false
      else handlerParametersMatch srcParams destParams (S i) remaining'
  end.

Definition isFunctionHandlerMatch (srcType : SymbolicFunction) (destType : DeducedSymbol)
  : outcome bool :=
  match destType with
  | OfType _ => Returns false
  | OfFunction d =>
      let destType := getFunction h d in
      b ← isTypeMatch (returnType srcType) (returnType destType);
      if negb b then Returns false
      else if negb (bool_decide (length (parameterTypes srcType) = length (parameterTypes destType)))
      then Returns false
      else handlerParametersMatch (parameterTypes srcType) (parameterTypes destType)
                                  0 (length (parameterTypes srcType))
  end.

Definition isTypeMatchInternal (src dest : DeducedType) : outcome bool :=
  match symbolType src, symbolType dest with
  | OfFunction s, destType => isFunctionHandlerMatch (getFunction h s) destType
  | OfType _, OfFunction _ => Returns false
  | OfType s, OfType d =>
      let srcType := getType h s in
      let destType := getType h d in
      let destNode := sourceType destType in
      if sameSourceType destNode (Primitive Any) || sameSourceType destNode (Primitive Auto)
      then Returns true
      else
        ok ← castsDirectly srcType destType d;
        if ok : bool then Returns true
        else constructorFallback fuel h srcType dest destNode
  end.

(** The body of [isTypeMatch]. *)
Definition isTypeMatchBody (src dest : option DeducedType) : outcome bool :=
  match src, dest with
  | Some src, Some dest =>
      let resolvedSrc := selfResolve h src in
      let resolvedDest := selfResolve h dest in
      match resolvedSrc, resolvedDest with
      | Some resolvedSrc, Some resolvedDest => isTypeMatchInternal resolvedSrc resolvedDest
      | _, _ => Returns true
      end
  | _, _ => Returns true
  end.
End TypeMatch.

Fixpoint isTypeMatch (fuel : nat) (h : Heap) (src dest : option DeducedType) : outcome bool :=
  match fuel with
  | O => OutOfFuel
  | S fuel' => isTypeMatchBody fuel' h (isTypeMatch fuel' h) src dest
  end.

(** ** checkFunction.ts: the overload resolver *)

Record FunctionMatchingArgs := {
  scope : addr;
  callerNode : CallerNode;
  callerArgs : list (option DeducedType);
  calleeFunc : addr;
  templateTranslator : option TemplateTranslation;
}.

(** [{...args, calleeFunc: next}]. *)
Definition withCallee (args : FunctionMatchingArgs) (next : addr) : FunctionMatchingArgs :=
  {| scope := scope args; callerNode := callerNode args; callerArgs := callerArgs args;
     calleeFunc := next; templateTranslator := templateTranslator args |}.

Definition getIdentifierInFuncOrConstructor (funcCall : CallerNode) : ParsingToken :=
  match funcCall with
  | NodeFuncCall call_identifier _ _ => call_identifier
  | NodeConstructCall type_identifier _ _ => type_identifier
  end.

(** [scope.referencedList.push(info)]. *)
Definition pushReferenced (h : Heap) (scope : addr) (info : ReferencedSymbolInfo) : Heap :=
  let s := getScope h scope in
  {| types := types h; functions := functions h; variables := variables h;
     scopes := <[scope := {| ownerNode := ownerNode s; parentScope := parentScope s;
                             childScopes := childScopes s; symbolMap := symbolMap s;
                             referencedList := referencedList s ++ [info];
                             completionHints := completionHints s |}]> (scopes h) |}.

Definition pushReferenceOfFuncOrConstructor (callerNode : CallerNode) (scope calleeFunc : addr)
    (w : World) : World :=
  let callerIdentifier := getIdentifierInFuncOrConstructor callerNode in
  {| heap := pushReferenced (heap w) scope
               {| declaredSymbol := FunctionRef calleeFunc; referencedToken := callerIdentifier |};
     diagnostics := diagnostics w |}.

Definition missingArgumentMessage (param : NodeParam) : string :=
  "Missing argument for parameter '"
  +:+ match param_identifier param with Some t => text t | None => "undefined" end
  +:+ "' 💢".

Definition cannotConvertMessage (h : Heap) (actualType expectedType : DeducedType) : string :=
  "Cannot convert '" +:+ text (declaredPlace h (toObject (symbolType actualType)))
  +:+ "' to parameter type '" +:+ text (declaredPlace h (toObject (symbolType expectedType)))
  +:+ "' 💢".

Definition tooManyMessage (declared supplied : nat) : string :=
  "Function has " +:+ pretty declared +:+ " parameters, but " +:+ pretty supplied
  +:+ " were provided 💢".

(** How the per-parameter loop of [checkFunctionMatch] is left: by running
    off its end, by [break], or by [return checkFunctionMatch(...)] on the
    next overload. *)
Inductive LoopExit :=
| RanToEnd
| Break
| NextOverload (next : addr).

Section Resolver.
(** [getNodeLocation] of nodes.ts turns a node range into a location; it is
    not among the sources and nothing here depends on what it computes. *)
Variable getNodeLocation : ParsedRange → LocationInfo.

(** Fuel for the calls to [isTypeMatch]. *)
Variable typeFuel : nat.

Section Callee.
Variable args : FunctionMatchingArgs.

(** [callerArgs[i]] and [calleeFunc.parameterTypes[i]] after the
    optional substitution through [templateTranslator]. *)
Definition actualTypeAt (h : Heap) (i : nat) : option DeducedType :=
  let actualType := at_index (callerArgs args) i in
  match templateTranslator args with
  | Some t => resolveTemplateType h t actualType
  | None => actualType
  end.

Definition expectedTypeAt (h : Heap) (i : nat) : option DeducedType :=
  let expectedType := at_index (parameterTypes (getFunction h (calleeFunc args))) i in
  match templateTranslator args with
  | Some t => resolveTemplateType h t expectedType
  | None => expectedType
  end.

(** The [for] loop of [checkFunctionMatch] from index [i] on; [params] is
    what is left of [calleeParams] from that index. *)
Fixpoint parameterLoop (i : nat) (params : list NodeParam) (w : World)
  : outcome (LoopExit * World) :=
  match params with
  | [] => Returns (RanToEnd, w)
  | param :: params' =>
      let calleeFunc_ := getFunction (heap w) (calleeFunc args) in
      if bool_decide (length (callerArgs args) ≤ i) && bool_decide (defaultExpr param = None)
      then
        match nextOverload calleeFunc_ with
        | Some next => Returns (NextOverload next, w)
        | None =>
            Returns (Break, addError (getNodeLocation (caller_nodeRange (callerNode args)))
                                     (missingArgumentMessage param) w)
        end
      else
        match actualTypeAt (heap w) i, expectedTypeAt (heap w) i with
        | Some actualType, Some expectedType =>
            ok ← isTypeMatch typeFuel (heap w) (Some actualType) (Some expectedType);
            if ok : bool then parameterLoop (S i) params' w
            else
              match nextOverload calleeFunc_ with
              | Some next => Returns (NextOverload next, w)
              | None =>
                  match caller_argList (callerNode args) !! i with
                  | Some arg =>
                      parameterLoop (S i) params'
                        (addError (getNodeLocation (expr_nodeRange (assign arg)))
                                  (cannotConvertMessage (heap w) actualType expectedType) w)
                  | None => Throws
                  end
              end
        | _, _ => parameterLoop (S i) params' w
        end
  end.

(** [checkFunctionMatch] calls itself on the next overload;
    [checkFunctionMatch] below stands for that call. *)
Variable checkFunctionMatch : FunctionMatchingArgs → World → outcome (option DeducedType * World).

Definition handleTooMuchCallerArgs (w : World) : outcome (option DeducedType * World) :=
  let calleeFunc_ := getFunction (heap w) (calleeFunc args) in
  match nextOverload calleeFunc_ with
  | Some next => checkFunctionMatch (withCallee args next) w
  | None =>
      let w := addError (getNodeLocation (caller_nodeRange (callerNode args)))
                        (tooManyMessage (length (paramList (sourceNode calleeFunc_)))
                                        (length (callerArgs args))) w in
      Returns (returnType calleeFunc_,
               pushReferenceOfFuncOrConstructor (callerNode args) (scope args) (calleeFunc args) w)
  end.

Definition checkFunctionMatchBody (w : World) : outcome (option DeducedType * World) :=
  let calleeFunc_ := getFunction (heap w) (calleeFunc args) in
  let calleeParams := paramList (sourceNode calleeFunc_) in
  if bool_decide (length calleeParams < length (callerArgs args)) then
    handleTooMuchCallerArgs w
  else
    '(exit, w) ← parameterLoop 0 calleeParams w;
    match exit with
    | NextOverload next => checkFunctionMatch (withCallee args next) w
    | RanToEnd | Break =>
        Returns (returnType calleeFunc_,
                 pushReferenceOfFuncOrConstructor (callerNode args) (scope args) (calleeFunc args) w)
    end.
End Callee.

Fixpoint checkFunctionMatch (fuel : nat) (args : FunctionMatchingArgs) (w : World)
  : outcome (option DeducedType * World) :=
  match fuel with
  | O => OutOfFuel
  | S fuel' => checkFunctionMatchBody args (checkFunctionMatch fuel') w
  end.
End Resolver.

(** ** Overload chains *)

(** [overloads h a chain]: following [nextOverload] from [a] visits exactly
    [chain] and then ends. *)
Inductive overloads (h : Heap) : addr → list addr → Prop :=
| overloads_last a :
    nextOverload (getFunction h a) = None → overloads h a [a]
| overloads_next a b chain :
    nextOverload (getFunction h a) = Some b → overloads h b chain → overloads h a (a :: chain).

(** [reaches h a b]: [b] is [a] or a later overload of [a]. *)
Inductive reaches (h : Heap) : addr → addr → Prop :=
| reaches_here a : reaches h a a
| reaches_later a b c :
    nextOverload (getFunction h a) = Some b → reaches h b c → reaches h a c.

(** ** Vocabulary of the statements below *)

Definition hasTag (p : PrimitiveType) (t : SymbolicType) : bool :=
  sameSourceType (sourceType t) (Primitive p).

Definition namedString (t : SymbolicType) : bool :=
  bool_decide (text (type_declaredPlace t) = "string")
  || bool_decide (text (type_declaredPlace t) = "String").

(** The verdict on a primitive source whose row of the matrix is [row]:
    compatible with what the row accepts and with [Any] and [Auto]; any other
    type destination is left to the constructor fallback; a function
    destination is refused. *)
Definition rowVerdict (row : SymbolicType → bool) (fuel : nat) (h : Heap)
    (srcType : SymbolicType) (dest : DeducedType) : outcome bool :=
  match symbolType dest with
  | OfFunction _ => Returns false
  | OfType d =>
      if row (getType h d) || hasTag Any (getType h d) || hasTag Auto (getType h d)
      then Returns true
      else constructorFallback fuel h srcType dest (sourceType (getType h d))
  end.

(** [t] is declared by the class node [n]. *)
Definition declaredByClass (t : SymbolicType) (n : NodeDecl) : Prop :=
  sourceType t = Node n ∧ nodeName n = Class.

(** The immediate base list of [t] names the type symbol at [a]. *)
Definition listsBase (t : SymbolicType) (a : addr) : Prop :=
  ∃ bases base, baseList t = Some bases ∧ Some base ∈ bases ∧ symbolType base = OfType a.



(** The binder's calls of [insertSymbolicObject] on [symbols], one after the
    other, into the same map; the results in the same order. *)
Fixpoint insertEach (fuel : nat) (map : SymbolMap) (symbols : list SymbolicObject) (w : World)
  : outcome (list bool * SymbolMap * World) :=
  match symbols with
  | [] => Returns ([], map, w)
  | symbol :: symbols' =>
      '(ok, map, w) ← insertSymbolicObject fuel map symbol w;
      '(oks, map, w) ← insertEach fuel map symbols' w;
      Returns (ok :: oks, map, w)
  end.

(** The verdict of the per-parameter check of [checkFunctionMatch] at
    position [i]: a pass when either side is absent, [isTypeMatch]
    otherwise. *)
Definition comparison (typeFuel : nat) (h : Heap) (args : FunctionMatchingArgs) (i : nat)
  : outcome bool :=
  match actualTypeAt args h i, expectedTypeAt args h i with
  | Some actualType, Some expectedType =>
      isTypeMatch typeFuel h (Some actualType) (Some expectedType)
  | _, _ => Returns true
  end.

(** The check at position [i] returns false. *)
Definition mismatches (typeFuel : nat) (h : Heap) (args : FunctionMatchingArgs) (i : nat) : bool :=
  match comparison typeFuel h args i with Returns false => true | _ => false end.

(** Every check on a supplied argument returns. *)
Definition comparisonsReturn (typeFuel : nat) (h : Heap) (args : FunctionMatchingArgs) : Prop :=
  ∀ i, i < length (callerArgs args) → ∃ ok, comparison typeFuel h args i = Returns ok.

(** Every supplied argument has its node in the call's argument list. *)
Definition argumentsHaveNodes (args : FunctionMatchingArgs) : Prop :=
  length (callerArgs args) ≤ length (caller_argList (callerNode args)).

(** The conversion error reported for position [i]. *)
Definition conversionError (getNodeLocation : ParsedRange → LocationInfo) (h : Heap)
    (args : FunctionMatchingArgs) (i : nat) : option Diagnostic :=
  match actualTypeAt args h i, expectedTypeAt args h i, caller_argList (callerNode args) !! i with
  | Some actualType, Some expectedType, Some arg =>
      Some {| diag_location := getNodeLocation (expr_nodeRange (assign arg));
              diag_message := cannotConvertMessage h actualType expectedType |}
  | _, _, _ => None
  end.

(** One conversion error for each position among [i, i+1, .., i+n-1] whose
    check returns false, in order. *)
Definition conversionErrors (getNodeLocation : ParsedRange → LocationInfo) (typeFuel : nat)
    (h : Heap) (args : FunctionMatchingArgs) (i n : nat) : list Diagnostic :=
  omap (λ j, match comparison typeFuel h args j with
             | Returns false => conversionError getNodeLocation h args j
             | _ => None
             end) (seq i n).

Definition missingArgument (getNodeLocation : ParsedRange → LocationInfo)
    (args : FunctionMatchingArgs) (param : NodeParam) : Diagnostic :=
  {| diag_location := getNodeLocation (caller_nodeRange (callerNode args));
     diag_message := missingArgumentMessage param |}.

Definition tooManyArguments (getNodeLocation : ParsedRange → LocationInfo)
    (h : Heap) (args : FunctionMatchingArgs) : Diagnostic :=
  {| diag_location := getNodeLocation (caller_nodeRange (callerNode args));
     diag_message :=
       tooManyMessage (length (paramList (sourceNode (getFunction h (calleeFunc args)))))
                      (length (callerArgs args)) |}.

Definition hasNoDefault (param : NodeParam) : bool := bool_decide (defaultExpr param = None).

(** The missing-argument error of a call: for the first parameter past the
    supplied arguments that has no default, if there is one. *)
Definition missingArguments (getNodeLocation : ParsedRange → LocationInfo)
    (args : FunctionMatchingArgs) (params : list NodeParam) : list Diagnostic :=
  match find hasNoDefault (drop (length (callerArgs args)) params) with
  | Some param => [missingArgument getNodeLocation args param]
  | None => []
  end.

(** Position [i] with parameter [param] lets the call through: past the
    supplied arguments it needs a default, within them its check must pass. *)
Definition passes (typeFuel : nat) (h : Heap) (args : FunctionMatchingArgs) (i : nat)
    (param : NodeParam) : bool :=
  if bool_decide (length (callerArgs args) ≤ i) then negb (hasNoDefault param)
  else match comparison typeFuel h args i with Returns ok => ok | _ => false end.

Fixpoint allPass (typeFuel : nat) (h : Heap) (args : FunctionMatchingArgs) (i : nat)
    (params : list NodeParam) : bool :=
  match params with
  | [] => true
  | param :: params' => passes typeFuel h args i param && allPass typeFuel h args (S i) params'
  end.

(** The callee of [args] is applicable: not too many arguments, and every
    position passes. *)
Definition applicable (typeFuel : nat) (h : Heap) (args : FunctionMatchingArgs) : bool :=
  let params := paramList (sourceNode (getFunction h (calleeFunc args))) in
  negb (bool_decide (length params < length (callerArgs args))) && allPass typeFuel h args 0 params.

(** The reference edge from the call site of [args] to the overload [f]. *)
Definition referenceTo (args : FunctionMatchingArgs) (f : addr) : ReferencedSymbolInfo :=
  {| declaredSymbol := FunctionRef f;
     referencedToken := getIdentifierInFuncOrConstructor (callerNode args) |}.

(** [enclosing h scope chain]: following [parentScope] from [scope] visits
    exactly [chain], from the scope itself out to a root. *)
Inductive enclosing (h : Heap) : addr → list addr → Prop :=
| enclosing_root scope :
    parentScope (getScope h scope) = None → enclosing h scope [scope]
| enclosing_parent scope parent chain :
    parentScope (getScope h scope) = Some parent → enclosing h parent chain →
    enclosing h scope (scope :: chain).

(** Every function that [map] binds heads a finite overload chain, all of
    whose members are declared under the name they are bound to. *)
Definition wellChained (h : Heap) (map : SymbolMap) : Prop :=
  ∀ name cursor, map !! name = Some (FunctionRef cursor) →
    ∃ chain, overloads h cursor chain ∧
             ∀ a, a ∈ chain → text (func_declaredPlace (getFunction h a)) = name.

(** [symbol] is on no chain that [map] binds. *)
Definition unchained (h : Heap) (map : SymbolMap) (symbol : addr) : Prop :=
  ∀ name cursor chain, map !! name = Some (FunctionRef cursor) → overloads h cursor chain →
    symbol ∉ chain.

(** ** A small program to run the definitions on *)

Module Scenario.
Definition atLine (n : nat) : LocationInfo :=
  {| path := "main.as";
     start := {| line := n; character := 0 |};
     end_ := {| line := n; character := 8 |} |}.

Definition word (a : addr) (name : string) (n : nat) : ParsingToken :=
  {| token_addr := a; kind := Identifier; text := name; location := atLine n; isNumber := false |}.

Definition reserved (a : addr) (name : string) (number : bool) : ParsingToken :=
  {| token_addr := a; kind := Reserved; text := name; location := virtualLocation; isNumber := number |}.

Definition rangeOf (t : ParsingToken) : ParsedRange := {| range_start := t; range_end := t |}.

Definition getNodeLocation (r : ParsedRange) : LocationInfo :=
  {| path := path (location (range_start r));
     start := start (location (range_start r));
     end_ := end_ (location (range_end r)) |}.

(** Addresses of the type symbols. *)
Definition tInt : addr := 1.
Definition tString : addr := 2.
Definition tBool : addr := 3.
Definition tAny : addr := 4.
Definition tDouble : addr := 5.
Definition tT : addr := 6.
Definition tA : addr := 10.
Definition tB : addr := 11.
Definition tC : addr := 12.
Definition tP : addr := 13.
Definition tQ : addr := 14.

(** Addresses of the scopes. *)
Definition sGlobal : addr := 1.
Definition sP : addr := 2.
Definition sQ : addr := 3.

(** Addresses of the function symbols. *)
Definition ctorP : addr := 1.
Definition ctorQ : addr := 2.
Definition f1 : addr := 11.
Definition f2 : addr := 12.
Definition f3 : addr := 13.
Definition f0 : addr := 14.
Definition g : addr := 15.

(** Address of a variable symbol. *)
Definition v : addr := 1.

Definition plain (t : addr) : DeducedType :=
  {| symbolType := OfType t; sourceScope := Some sGlobal; templateTranslate := None |}.

(** The template parameter [T] at an instantiation that leaves it unbound. *)
Definition unbound : DeducedType :=
  {| symbolType := OfType tT; sourceScope := Some sGlobal;
     templateTranslate := Some {[ 106%positive := None ]} |}.

Definition builtin (tokenAt : addr) (name : string) (number : bool) (p : PrimitiveType) : SymbolicType :=
  {| type_declaredPlace := reserved tokenAt name number; sourceType := Primitive p;
     templateTypes := None; baseList := None |}.

Definition classNode (a : addr) (name : string) (n : nat) : NodeDecl :=
  {| node_addr := a; nodeName := Class; identifier := word a name n |}.

Definition class (a : addr) (name : string) (n : nat) (bases : option (list (option DeducedType)))
  : SymbolicType :=
  {| type_declaredPlace := word a name n; sourceType := Node (classNode a name n);
     templateTypes := None; baseList := bases |}.

Definition parameter (a : addr) (name : string) (n : nat) (default : option NodeExpr) : NodeParam :=
  {| param_identifier := Some (word a name n); defaultExpr := default |}.

Definition function (a : addr) (name : string) (n : nat) (params : list NodeParam)
    (ret : option DeducedType) (paramTypes : list (option DeducedType)) (next : option addr)
  : SymbolicFunction :=
  {| func_declaredPlace := word a name n; sourceNode := {| paramList := params |};
     returnType := ret; parameterTypes := paramTypes; nextOverload := next |}.

Definition someDefault : option NodeExpr := Some {| expr_nodeRange := rangeOf (word 900 "0" 0) |}.

Definition theTypes : gmap addr SymbolicType :=
  list_to_map
    [ (tInt, builtin 101 "int" true Number);
      (tString, builtin 102 "string" false String);
      (tBool, builtin 103 "bool" false Bool);
      (tAny, builtin 104 "?" false Any);
      (tDouble, builtin 105 "double" true Number);
      (tT, {| type_declaredPlace := word 106 "T" 8; sourceType := Primitive Template;
              templateTypes := None; baseList := None |});
      (tA, class 110 "A" 1 None);
      (tB, class 111 "B" 2 (Some [Some (plain tA)]));
      (tC, class 112 "C" 3 (Some [Some (plain tB)]));
      (tP, class 113 "P" 4 None);
      (tQ, class 114 "Q" 6 None) ].

(** [class P { P(int x) }], [class Q { Q(string x) }],
    [f(int a)], [f(int a, bool b)], [f(int a, bool b, string c = ..)]
    not yet chained, [bool f(double a, bool b)] and
    [g(int a, bool b, string required_c, int d = ..)]. *)
Definition theFunctions : gmap addr SymbolicFunction :=
  list_to_map
    [ (ctorP, function 201 "P" 5 [parameter 301 "x" 5 None] None [Some (plain tInt)] None);
      (ctorQ, function 202 "Q" 7 [parameter 302 "x" 7 None] None [Some (plain tString)] None);
      (f1, function 211 "f" 10 [parameter 311 "a" 10 None]
                    (Some (plain tString)) [Some (plain tInt)] None);
      (f2, function 212 "f" 11 [parameter 312 "a" 11 None; parameter 313 "b" 11 None]
                    (Some (plain tInt)) [Some (plain tInt); Some (plain tBool)] None);
      (f3, function 213 "f" 12
                    [parameter 314 "a" 12 None; parameter 315 "b" 12 None;
                     parameter 316 "c" 12 someDefault]
                    (Some (plain tBool))
                    [Some (plain tInt); Some (plain tBool); Some (plain tString)] None);
      (f0, function 214 "f" 9 [parameter 317 "a" 9 None; parameter 318 "b" 9 None]
                    (Some (plain tBool)) [Some (plain tDouble); Some (plain tBool)] None);
      (g, function 215 "g" 13
                   [parameter 319 "a" 13 None; parameter 320 "b" 13 None;
                    parameter 321 "required_c" 13 None; parameter 322 "d" 13 someDefault]
                   (Some (plain tInt))
                   [Some (plain tInt); Some (plain tBool); Some (plain tString); Some (plain tInt)]
                   None) ].

Definition theVariables : gmap addr SymbolicVariable :=
  list_to_map [ (v, {| var_declaredPlace := word 401 "v" 20; type := Some (plain tInt) |}) ].

Definition theScopes : gmap addr SymbolScope :=
  list_to_map
    [ (sGlobal, {| ownerNode := None; parentScope := None;
                   childScopes := list_to_map [("P", sP); ("Q", sQ)];
                   symbolMap := list_to_map [("A", TypeRef tA); ("B", TypeRef tB); ("C", TypeRef tC);
                                             ("P", TypeRef tP); ("Q", TypeRef tQ)];
                   referencedList := []; completionHints := [] |});
      (sP, {| ownerNode := Some (OwnerDecl (classNode 113 "P" 4)); parentScope := Some sGlobal;
              childScopes := ∅; symbolMap := list_to_map [("P", FunctionRef ctorP)];
              referencedList := []; completionHints := [] |});
      (sQ, {| ownerNode := Some (OwnerDecl (classNode 114 "Q" 6)); parentScope := Some sGlobal;
              childScopes := ∅; symbolMap := list_to_map [("Q", FunctionRef ctorQ)];
              referencedList := []; completionHints := [] |}) ].

Definition theHeap : Heap :=
  {| types := theTypes; functions := theFunctions; variables := theVariables; scopes := theScopes |}.

Definition theWorld : World := {| heap := theHeap; diagnostics := [] |}.

Definition argument (a : addr) (name : string) (n : nat) : NodeArg :=
  {| assign := {| expr_nodeRange := rangeOf (word a name n) |} |}.

(** The call [f(x, y)] at line 30 and the call [g(x, y)] at line 31. *)
Definition callOf (a : addr) (name : string) (n : nat) : CallerNode :=
  NodeFuncCall (word a name n) [argument (a + 1) "x" n; argument (a + 2) "y" n] (rangeOf (word a name n)).

Definition call (name : string) (a : addr) (n : nat) (callee : addr) (actuals : list (option DeducedType))
  : FunctionMatchingArgs :=
  {| scope := sGlobal; callerNode := callOf a name n; callerArgs := actuals;
     calleeFunc := callee; templateTranslator := None |}.

(** The heap after [f(int)], [f(int, bool)] and [f(int, bool, string)]
    were chained in that order. *)
Definition chainedHeap : Heap := setNextOverload (setNextOverload theHeap f1 f2) f2 f3.

(** The heap after the same three were chained behind [f(double, bool)],
    which was declared before them. *)
Definition crowdedHeap : Heap :=
  setNextOverload (setNextOverload (setNextOverload theHeap f0 f1) f1 f2) f2 f3.

(** The world after [f(int, bool)] was hung on [f(int)]. *)
Definition linked : World :=
  {| heap := setNextOverload theHeap f1 f2; diagnostics := [] |}.

(** The call [g(x, y)] with an [int] and a [bool]. *)
Definition callG : FunctionMatchingArgs := call "g" 500 31 g [Some (plain tInt); Some (plain tBool)].

(** The call [f(x, y)] with two strings, against [f(double, bool)]. *)
Definition callStrings : FunctionMatchingArgs :=
  call "f" 500 30 f0 [Some (plain tString); Some (plain tString)].

(** A function handler: the deduced type of a value that refers to the
    function at [f]. *)
Definition handler (f : addr) : DeducedType :=
  {| symbolType := OfFunction f; sourceScope := Some sGlobal; templateTranslate := None |}.

(** Two classes that are both named [Foo], declared at different places,
    an enum [Color] and the builtin [void]. *)
Definition tFoo1 : addr := 20.
Definition tFoo2 : addr := 21.
Definition tColor : addr := 22.
Definition tVoid : addr := 23.

Definition fooHeap : Heap :=
  {| types :=
       <[tFoo1 := class 120 "Foo" 40 None]>
         (<[tFoo2 := class 121 "Foo" 50 None]>
            (<[tColor := {| type_declaredPlace := word 122 "Color" 60;
                            sourceType := Node {| node_addr := 122; nodeName := Enum;
                                                  identifier := word 122 "Color" 60 |};
                            templateTypes := None; baseList := None |}]>
               (<[tVoid := builtin 123 "void" false Void]> theTypes)));
     functions := theFunctions; variables := theVariables; scopes := theScopes |}.

(** A generic function [T pick(T x)] and a call [pick(s)] with a string,
    at an instantiation that leaves [T] unbound. *)
Definition pick : addr := 30.

Definition genericHeap : Heap :=
  {| types := theTypes;
     functions := <[pick := function 230 "pick" 70 [parameter 330 "x" 70 None]
                              (Some (plain tT)) [Some (plain tT)] None]> theFunctions;
     variables := theVariables; scopes := theScopes |}.

Definition callPick : FunctionMatchingArgs :=
  {| scope := sGlobal; callerNode := callOf 510 "pick" 32;
     callerArgs := [Some (plain tString)]; calleeFunc := pick;
     templateTranslator := Some {[ 106%positive := None ]} |}.

(** A set of number type names and a maker of virtual tokens, to run the
    builtin registry on. *)
Definition numberTypeSet : list string := ["int"; "uint"; "float"; "double"].

Definition createVirtualToken (kind : TokenKind) (text : string) : ParsingToken :=
  {| token_addr := encode text; kind := kind; text := text; location := virtualLocation;
     isNumber := bool_decide (text ∈ numberTypeSet) |}.

Definition number : option DeducedType := Some (plain tInt).
Definition boolean : option DeducedType := Some (plain tBool).
Definition string_ : option DeducedType := Some (plain tString).
End Scenario.

(** * Properties *)

(** ** Heap updates *)

Lemma getFunction_setNextOverload h cursor symbol a :
  getFunction (setNextOverload h cursor symbol) a =
    if decide (a = cursor) then
      {| func_declaredPlace := func_declaredPlace (getFunction h cursor);
         sourceNode := sourceNode (getFunction h cursor);
         returnType := returnType (getFunction h cursor);
         parameterTypes := parameterTypes (getFunction h cursor);
         nextOverload := Some symbol |}
    else getFunction h a.
Proof.
  unfold getFunction, setNextOverload; simpl.
  destruct (decide (a = cursor)) as [->|Hne].
  - by rewrite lookup_total_insert_eq.
  - by rewrite lookup_total_insert_ne.
Qed.

Lemma nextOverload_setNextOverload_ne h cursor symbol a :
  a ≠ cursor →
  nextOverload (getFunction (setNextOverload h cursor symbol) a) = nextOverload (getFunction h a).
Proof. intros Hne. rewrite getFunction_setNextOverload. by destruct (decide (a = cursor)). Qed.

Lemma nextOverload_setNextOverload_eq h cursor symbol :
  nextOverload (getFunction (setNextOverload h cursor symbol) cursor) = Some symbol.
Proof. rewrite getFunction_setNextOverload. by destruct (decide (cursor = cursor)). Qed.

Lemma declaredPlace_setNextOverload h cursor symbol s :
  declaredPlace (setNextOverload h cursor symbol) s = declaredPlace h s.
Proof.
  destruct s as [a|a|a]; try reflexivity.
  simpl. rewrite getFunction_setNextOverload. by destruct (decide (a = cursor)) as [->|].
Qed.

(** ** Overload chains *)

Lemma overloads_nonempty h a chain : overloads h a chain → ∃ rest, chain = a :: rest.
Proof. destruct 1; eauto. Qed.

Lemma overloads_functional h a chain1 chain2 :
  overloads h a chain1 → overloads h a chain2 → chain1 = chain2.
Proof.
  intros H1. revert chain2.
  induction H1 as [a Ha|a b chain Ha Hb IH]; intros chain2 H2; inversion H2; subst;
    try congruence.
  f_equal. apply IH. congruence.
Qed.

Lemma overloads_reaches h a chain b :
  overloads h a chain → b ∈ chain → reaches h a b.
Proof.
  induction 1 as [a Ha|a c chain Ha Hc IH]; intros Hin.
  - apply list_elem_of_singleton in Hin as ->. constructor.
  - apply elem_of_cons in Hin as [->|Hin]; [constructor|].
    eapply reaches_later; eauto.
Qed.

Lemma overloads_last_ends h a chain tail :
  overloads h a chain → last chain = Some tail → nextOverload (getFunction h tail) = None.
Proof.
  induction 1 as [a Ha|a c chain Ha Hc IH]; simpl.
  - intros [= <-]. done.
  - destruct (overloads_nonempty _ _ _ Hc) as [rest ->]. rewrite last_cons_cons. done.
Qed.

(** Hanging a fresh symbol on the tail extends the chain by that symbol. *)
Lemma overloads_append h a chain tail symbol :
  overloads h a chain → last chain = Some tail →
  symbol ∉ chain → nextOverload (getFunction h symbol) = None →
  overloads (setNextOverload h tail symbol) a (chain ++ [symbol]).
Proof.
  induction 1 as [a Ha|a c chain Ha Hc IH]; intros Hlast Hfresh Hnone.
  - injection Hlast as <-. simpl.
    apply overloads_next with symbol.
    + apply nextOverload_setNextOverload_eq.
    + apply overloads_last. rewrite nextOverload_setNextOverload_ne; [done|].
      intros ->. apply Hfresh. by left.
  - destruct (overloads_nonempty _ _ _ Hc) as [rest ->].
    rewrite last_cons_cons in Hlast. simpl.
    apply overloads_next with c.
    + rewrite nextOverload_setNextOverload_ne; [done|].
      intros ->. pose proof (overloads_last_ends _ _ _ _ Hc Hlast). congruence.
    + apply IH; [done| |done]. intros Hin. apply Hfresh. by right.
Qed.

(** With fuel for the whole chain the loop of [insertSymbolicObject] stops
    at the tail. *)
Lemma appendOverload_tail fuel h cursor chain symbol :
  overloads h cursor chain → length chain ≤ fuel →
  ∃ tail, last chain = Some tail ∧
          appendOverload fuel h cursor symbol = Returns (setNextOverload h tail symbol).
Proof.
  intros Hchain. revert fuel.
  induction Hchain as [a Ha|a b chain Ha Hb IH]; intros [|fuel] Hfuel; simpl in *; try lia.
  - exists a. by rewrite Ha.
  - rewrite Ha. destruct (IH fuel) as (tail & Hlast & Hrun); [lia|].
    exists tail. split; [|done].
    destruct (overloads_nonempty _ _ _ Hb) as [rest ->]. by rewrite last_cons_cons.
Qed.

(** Whenever that loop returns, it changed the tail the cursor reaches. *)
Lemma appendOverload_returns fuel h cursor symbol h' :
  appendOverload fuel h cursor symbol = Returns h' →
  ∃ tail, reaches h cursor tail ∧ nextOverload (getFunction h tail) = None ∧
          h' = setNextOverload h tail symbol.
Proof.
  revert cursor. induction fuel as [|fuel IH]; intros cursor; simpl; [done|].
  destruct (nextOverload (getFunction h cursor)) as [next|] eqn:Hnext.
  - intros Hrun. destruct (IH _ Hrun) as (tail & Hreach & Hend & ->).
    exists tail. split; [|done]. eapply reaches_later; eauto.
  - intros [= <-]. exists cursor. split; [constructor|done].
Qed.

(** ** Insertion into a symbol map *)

(** What [insertSymbolicObject] does when the identifier is bound to a
    function and the new symbol is a function too. *)
Lemma insertSymbolicObject_overload fuel (map : gmap string SymbolicObject) symbol cursor chain w :
  map !! text (declaredPlace (heap w) (FunctionRef symbol)) = Some (FunctionRef cursor) →
  overloads (heap w) cursor chain → length chain ≤ fuel →
  ∃ tail, last chain = Some tail ∧
    insertSymbolicObject fuel map (FunctionRef symbol) w =
      Returns (true, map, {| heap := setNextOverload (heap w) tail symbol;
                             diagnostics := diagnostics w |}).
Proof.
  intros Hhit Hchain Hfuel.
  destruct (appendOverload_tail fuel (heap w) cursor chain symbol Hchain Hfuel)
    as (tail & Hlast & Hrun).
  exists tail. split; [done|].
  unfold insertSymbolicObject. rewrite Hhit. by rewrite Hrun.
Qed.

(** C9: inserting a symbol that is not a function under an identifier that
    is already bound reports exactly one duplicate-definition diagnostic, at
    the new symbol's declared location, and returns false; inserting a
    function under an identifier bound to a function reports nothing, hangs
    the new symbol on the tail of the existing chain and returns true. *)
Theorem insert_already_bound :
  (∀ fuel (map : gmap string SymbolicObject) symbol hit w,
     symbolKind symbol ≠ Function →
     map !! text (declaredPlace (heap w) symbol) = Some hit →
     insertSymbolicObject fuel map symbol w =
       Returns (false, map,
                {| heap := heap w;
                   diagnostics := diagnostics w ++
                     [ {| diag_location := location (declaredPlace (heap w) symbol);
                          diag_message :=
                            duplicateMessage (text (declaredPlace (heap w) symbol)) |} ] |}))
  ∧
  (∀ fuel (map : gmap string SymbolicObject) symbol cursor chain w,
     map !! text (declaredPlace (heap w) (FunctionRef symbol)) = Some (FunctionRef cursor) →
     overloads (heap w) cursor chain → length chain ≤ fuel →
     ∃ tail, last chain = Some tail ∧
       insertSymbolicObject fuel map (FunctionRef symbol) w =
         Returns (true, map, {| heap := setNextOverload (heap w) tail symbol;
                                diagnostics := diagnostics w |}) ∧
       nextOverload (getFunction (setNextOverload (heap w) tail symbol) tail) = Some symbol ∧
       (symbol ∉ chain → nextOverload (getFunction (heap w) symbol) = None →
        overloads (setNextOverload (heap w) tail symbol) cursor (chain ++ [symbol]))).
Proof.
  split.
  - intros fuel map symbol hit w Hkind Hhit.
    unfold insertSymbolicObject. rewrite Hhit.
    destruct symbol as [a|a|a]; simpl in *; try done; by destruct hit.
  - intros fuel map symbol cursor chain w Hhit Hchain Hfuel.
    destruct (insertSymbolicObject_overload fuel map symbol cursor chain w Hhit Hchain Hfuel)
      as (tail & Hlast & Hrun).
    exists tail. repeat split; try done.
    + apply nextOverload_setNextOverload_eq.
    + intros Hfresh Hnone. by apply overloads_append.
Qed.

Lemma insert_already_bound_witness :
  insertSymbolicObject 0 {[ "v" := VariableRef Scenario.v ]} (VariableRef Scenario.v) Scenario.theWorld =
    Returns (false, {[ "v" := VariableRef Scenario.v ]},
             {| heap := Scenario.theHeap;
                diagnostics :=
                  [ {| diag_location := Scenario.atLine 20;
                       diag_message := "Symbol 'v' is already defined 💢" |} ] |})
  ∧
  ∃ tail, last [Scenario.f1] = Some tail ∧
    insertSymbolicObject 1 {[ "f" := FunctionRef Scenario.f1 ]} (FunctionRef Scenario.f2) Scenario.theWorld =
      Returns (true, {[ "f" := FunctionRef Scenario.f1 ]},
               {| heap := setNextOverload Scenario.theHeap tail Scenario.f2; diagnostics := [] |}) ∧
    nextOverload (getFunction (setNextOverload Scenario.theHeap tail Scenario.f2) tail) = Some Scenario.f2 ∧
    (Scenario.f2 ∉ [Scenario.f1] → nextOverload (getFunction Scenario.theHeap Scenario.f2) = None →
     overloads (setNextOverload Scenario.theHeap tail Scenario.f2) Scenario.f1 [Scenario.f1; Scenario.f2]).
Proof.
  split.
  - apply (proj1 insert_already_bound 0 {[ "v" := VariableRef Scenario.v ]}
             (VariableRef Scenario.v) (VariableRef Scenario.v) Scenario.theWorld).
    + discriminate.
    + vm_compute. reflexivity.
  - apply (proj2 insert_already_bound 1 {[ "f" := FunctionRef Scenario.f1 ]}
             Scenario.f2 Scenario.f1 [Scenario.f1] Scenario.theWorld).
    + vm_compute. reflexivity.
    + apply overloads_last. vm_compute. reflexivity.
    + simpl. lia.
Defined.

(** C10: a failed insertion leaves the symbol map (and the heap) as it was;
    an insertion that succeeds by overload-appending leaves the map as it
    was too, and changes nothing but the [nextOverload] field of the tail of
    the existing chain, which becomes the new symbol. *)
Theorem insert_frame :
  (∀ fuel (map : gmap string SymbolicObject) symbol w map' w',
     insertSymbolicObject fuel map symbol w = Returns (false, map', w') →
     map' = map ∧ heap w' = heap w)
  ∧
  (∀ fuel (map : gmap string SymbolicObject) symbol cursor w map' w',
     map !! text (declaredPlace (heap w) (FunctionRef symbol)) = Some (FunctionRef cursor) →
     insertSymbolicObject fuel map (FunctionRef symbol) w = Returns (true, map', w') →
     map' = map ∧ diagnostics w' = diagnostics w ∧
     types (heap w') = types (heap w) ∧ variables (heap w') = variables (heap w) ∧
     scopes (heap w') = scopes (heap w) ∧
     ∃ tail, reaches (heap w) cursor tail ∧ nextOverload (getFunction (heap w) tail) = None ∧
       functions (heap w') =
         <[tail := {| func_declaredPlace := func_declaredPlace (getFunction (heap w) tail);
                      sourceNode := sourceNode (getFunction (heap w) tail);
                      returnType := returnType (getFunction (heap w) tail);
                      parameterTypes := parameterTypes (getFunction (heap w) tail);
                      nextOverload := Some symbol |}]> (functions (heap w))).
Proof.
  split.
  - intros fuel map symbol w map' w'. unfold insertSymbolicObject.
    destruct (map !! _) as [hit|]; [|done].
    destruct symbol as [a|a|a], hit as [b|b|b]; simpl; try (intros [= <- <-]; done).
    destruct (appendOverload _ _ _ _); simpl; done.
  - intros fuel map symbol cursor w map' w' Hhit. unfold insertSymbolicObject.
    rewrite Hhit.
    destruct (appendOverload fuel (heap w) cursor symbol) as [h'| |] eqn:Hrun; simpl; try done.
    intros [= <- <-]. simpl.
    destruct (appendOverload_returns _ _ _ _ _ Hrun) as (tail & Hreach & Hend & ->).
    repeat split; try done. exists tail. done.
Qed.

Lemma insert_frame_witness :
  (({[ "v" := VariableRef Scenario.v ]} : gmap string SymbolicObject) = {[ "v" := VariableRef Scenario.v ]}
   ∧ heap (addError (Scenario.atLine 20) "Symbol 'v' is already defined 💢" Scenario.theWorld)
     = heap Scenario.theWorld)
  ∧
  (({[ "f" := FunctionRef Scenario.f1 ]} : gmap string SymbolicObject) = {[ "f" := FunctionRef Scenario.f1 ]} ∧
   diagnostics Scenario.linked = diagnostics Scenario.theWorld ∧
   types (heap Scenario.linked) = types Scenario.theHeap ∧
   variables (heap Scenario.linked) = variables Scenario.theHeap ∧
   scopes (heap Scenario.linked) = scopes Scenario.theHeap ∧
   ∃ tail, reaches Scenario.theHeap Scenario.f1 tail ∧
     nextOverload (getFunction Scenario.theHeap tail) = None ∧
     functions (heap Scenario.linked) =
       <[tail := {| func_declaredPlace := func_declaredPlace (getFunction Scenario.theHeap tail);
                    sourceNode := sourceNode (getFunction Scenario.theHeap tail);
                    returnType := returnType (getFunction Scenario.theHeap tail);
                    parameterTypes := parameterTypes (getFunction Scenario.theHeap tail);
                    nextOverload := Some Scenario.f2 |}]> (functions Scenario.theHeap)).
Proof.
  split.
  - apply (proj1 insert_frame 0 {[ "v" := VariableRef Scenario.v ]} (VariableRef Scenario.v)
             Scenario.theWorld).
    vm_compute. reflexivity.
  - apply (proj2 insert_frame 1 {[ "f" := FunctionRef Scenario.f1 ]} Scenario.f2 Scenario.f1
             Scenario.theWorld).
    + vm_compute. reflexivity.
    + vm_compute. reflexivity.
Defined.

(** ** The compatibility engine *)

Lemma sameSourceType_Primitive t p :
  sameSourceType t (Primitive p) = true ↔ t = Primitive p.
Proof.
  destruct t as [q|n]; simpl; [|split; done].
  rewrite bool_decide_eq_true. split; congruence.
Qed.

Lemma sameSourceType_Node_Primitive n p : sameSourceType (Node n) (Primitive p) = false.
Proof. reflexivity. Qed.

(** [isTypeMatch] on two sides that resolve to type symbols: [Any] and
    [Auto] first, then the direct rules, then the constructor fallback. *)
Lemma isTypeMatch_types fuel h src dest resolvedSrc resolvedDest s d :
  selfResolve h src = Some resolvedSrc → selfResolve h dest = Some resolvedDest →
  symbolType resolvedSrc = OfType s → symbolType resolvedDest = OfType d →
  isTypeMatch (S fuel) h (Some src) (Some dest) =
    if hasTag Any (getType h d) || hasTag Auto (getType h d) then Returns true
    else
      ok ← castsDirectly (getType h s) (getType h d) d;
      if ok : bool then Returns true
      else constructorFallback fuel h (getType h s) resolvedDest (sourceType (getType h d)).
Proof.
  intros Hsrc Hdest Hs Hd. simpl. unfold isTypeMatchBody. rewrite Hsrc, Hdest.
  unfold isTypeMatchInternal. rewrite Hs, Hd. reflexivity.
Qed.

Lemma isTypeMatch_to_function fuel h src dest resolvedSrc resolvedDest s d :
  selfResolve h src = Some resolvedSrc → selfResolve h dest = Some resolvedDest →
  symbolType resolvedSrc = OfType s → symbolType resolvedDest = OfFunction d →
  isTypeMatch (S fuel) h (Some src) (Some dest) = Returns false.
Proof.
  intros Hsrc Hdest Hs Hd. simpl. unfold isTypeMatchBody. rewrite Hsrc, Hdest.
  unfold isTypeMatchInternal. rewrite Hs, Hd. reflexivity.
Qed.

(** Fuel only bounds the recursion: a verdict reached with some fuel is
    reached with any larger fuel. *)
Lemma canConstructBy_fuel h constructor srcType verdict :
  ∀ fuel fuel', fuel ≤ fuel' →
    canConstructBy fuel h constructor srcType = Returns verdict →
    canConstructBy fuel' h constructor srcType = Returns verdict.
Proof.
  intros fuel. revert constructor.
  induction fuel as [|fuel IH]; intros constructor [|fuel'] Hle; simpl; try done; [lia|].
  destruct (acceptsSingle h (getFunction h constructor) srcType); [done|].
  destruct (nextOverload (getFunction h constructor)); [|done].
  apply IH. lia.
Qed.

Lemma canConstructImplicitly_fuel h srcType destScope destIdentifier verdict fuel fuel' :
  fuel ≤ fuel' →
  canConstructImplicitly fuel h srcType destScope destIdentifier = Returns verdict →
  canConstructImplicitly fuel' h srcType destScope destIdentifier = Returns verdict.
Proof.
  intros Hle. unfold canConstructImplicitly.
  destruct destScope as [destScope|]; [|done].
  destruct (findScopeShallowly h destScope destIdentifier); [|done].
  case_bool_decide; [|done].
  destruct (findSymbolShallowly _ _) as [[?|constructor|?]|]; try done.
  by apply canConstructBy_fuel.
Qed.

Lemma handlerParametersMatch_fuel (check check' : option DeducedType → option DeducedType → outcome bool)
    srcParams destParams :
  (∀ src dest verdict, check src dest = Returns verdict → check' src dest = Returns verdict) →
  ∀ remaining i verdict,
    handlerParametersMatch check srcParams destParams i remaining = Returns verdict →
    handlerParametersMatch check' srcParams destParams i remaining = Returns verdict.
Proof.
  intros Hcheck. induction remaining as [|remaining IH]; intros i verdict; simpl; [done|].
  destruct (check (at_index srcParams i) (at_index destParams i)) as [ok| |] eqn:Hok; try done.
  rewrite (Hcheck _ _ _ Hok). simpl. destruct ok; simpl; [apply IH|done].
Qed.

Lemma isTypeMatch_fuel h :
  ∀ fuel fuel' src dest verdict, fuel ≤ fuel' →
    isTypeMatch fuel h src dest = Returns verdict →
    isTypeMatch fuel' h src dest = Returns verdict.
Proof.
  induction fuel as [|fuel IH]; intros [|fuel'] src dest verdict Hle; simpl; try done; [lia|].
  assert (Hcheck : ∀ src dest verdict,
            isTypeMatch fuel h src dest = Returns verdict →
            isTypeMatch fuel' h src dest = Returns verdict).
  { intros. eapply IH; [|done]. lia. }
  unfold isTypeMatchBody.
  destruct src as [src|], dest as [dest|]; try done.
  destruct (selfResolve h src) as [resolvedSrc|]; [|done].
  destruct (selfResolve h dest) as [resolvedDest|]; [|done].
  unfold isTypeMatchInternal.
  destruct (symbolType resolvedSrc) as [s|s], (symbolType resolvedDest) as [d|d]; try done.
  - destruct (_ || _); [done|].
    destruct (castsDirectly _ _ _) as [[|]| |]; simpl; try done.
    unfold constructorFallback. destruct (sourceType (getType h d)); [done|].
    destruct (negb _); [done|]. apply canConstructImplicitly_fuel. lia.
  - unfold isFunctionHandlerMatch.
    destruct (isTypeMatch fuel h _ _) as [ok| |] eqn:Hok; try done.
    rewrite (Hcheck _ _ _ Hok). simpl. destruct ok; simpl; [|done].
    destruct (negb _); [done|]. by apply handlerParametersMatch_fuel.
Qed.

(** C8: an absent side is compatible with everything, on either side, and
    so is a side that resolves to absent through its own
    [templateTranslate]. *)
Theorem absent_is_compatible fuel h :
  (∀ T : option DeducedType,
     isTypeMatch (S fuel) h None T = Returns true ∧ isTypeMatch (S fuel) h T None = Returns true)
  ∧
  (∀ src dest : DeducedType,
     selfResolve h src = None ∨ selfResolve h dest = None →
     isTypeMatch (S fuel) h (Some src) (Some dest) = Returns true).
Proof.
  split.
  - intros T. split; [reflexivity|]. by destruct T.
  - intros src dest Habsent. simpl. unfold isTypeMatchBody.
    destruct Habsent as [-> | ->]; [reflexivity|].
    by destruct (selfResolve h src).
Qed.

Lemma absent_is_compatible_witness :
  isTypeMatch 1 Scenario.theHeap (Some Scenario.unbound) (Some (Scenario.plain Scenario.tInt))
    = Returns true
  ∧ isTypeMatch 1 Scenario.theHeap (Some (Scenario.plain Scenario.tInt)) (Some Scenario.unbound)
    = Returns true.
Proof.
  split.
  - apply (proj2 (absent_is_compatible 0 Scenario.theHeap)). left. vm_compute. reflexivity.
  - apply (proj2 (absent_is_compatible 0 Scenario.theHeap)). right. vm_compute. reflexivity.
Defined.

(** C3, as the code has it: a [Number] source is compatible with a
    destination exactly when the destination is tagged [Number], [Any] or
    [Auto], or is a class that the constructor fallback accepts; a [Bool]
    source likewise with [Bool]; a [String] source exactly when the
    destination is named "string" or "String", is tagged [Any] or [Auto], or
    is a class that the constructor fallback accepts.  Sides are taken after
    their self-resolution.  The matrix step alone, [canCastFromPrimitiveType],
    is exclusive. *)
Theorem primitive_matrix fuel h src dest resolvedSrc resolvedDest s :
  selfResolve h src = Some resolvedSrc → selfResolve h dest = Some resolvedDest →
  symbolType resolvedSrc = OfType s →
  (sourceType (getType h s) = Primitive Number →
   isTypeMatch (S fuel) h (Some src) (Some dest)
     = rowVerdict (hasTag Number) fuel h (getType h s) resolvedDest)
  ∧
  (sourceType (getType h s) = Primitive Bool →
   isTypeMatch (S fuel) h (Some src) (Some dest)
     = rowVerdict (hasTag Bool) fuel h (getType h s) resolvedDest)
  ∧
  (sourceType (getType h s) = Primitive String →
   isTypeMatch (S fuel) h (Some src) (Some dest)
     = rowVerdict namedString fuel h (getType h s) resolvedDest)
  ∧
  (∀ destType,
     (sourceType (getType h s) = Primitive Number →
      canCastFromPrimitiveType (getType h s) destType = Returns (hasTag Number destType))
     ∧ (sourceType (getType h s) = Primitive Bool →
        canCastFromPrimitiveType (getType h s) destType = Returns (hasTag Bool destType))
     ∧ (sourceType (getType h s) = Primitive String →
        canCastFromPrimitiveType (getType h s) destType = Returns (namedString destType))).
Proof.
  intros Hsrc Hdest Hs.
  assert (Hrow : ∀ row,
             castsDirectly (getType h s) =
               (λ destType _, Returns (row destType)) →
             isTypeMatch (S fuel) h (Some src) (Some dest)
               = rowVerdict row fuel h (getType h s) resolvedDest).
  { intros row Hcast. unfold rowVerdict.
    destruct (symbolType resolvedDest) as [d|d] eqn:Hd.
    - rewrite (isTypeMatch_types _ _ _ _ _ _ _ _ Hsrc Hdest Hs Hd), Hcast. simpl.
      destruct (row (getType h d)), (hasTag Any (getType h d)), (hasTag Auto (getType h d));
        reflexivity.
    - apply (isTypeMatch_to_function _ _ _ _ _ _ _ _ Hsrc Hdest Hs Hd). }
  split; [|split; [|split]].
  - intros Htag. apply Hrow. unfold castsDirectly, canCastFromPrimitiveType. by rewrite Htag.
  - intros Htag. apply Hrow. unfold castsDirectly, canCastFromPrimitiveType. by rewrite Htag.
  - intros Htag. apply Hrow. unfold castsDirectly, canCastFromPrimitiveType. by rewrite Htag.
  - intros destType. repeat split; intros Htag; unfold canCastFromPrimitiveType; by rewrite Htag.
Qed.

Lemma primitive_matrix_witness :
  isTypeMatch 3 Scenario.theHeap (Some (Scenario.plain Scenario.tInt)) (Some (Scenario.plain Scenario.tDouble))
    = rowVerdict (hasTag Number) 2 Scenario.theHeap (getType Scenario.theHeap Scenario.tInt)
        (Scenario.plain Scenario.tDouble)
  ∧ isTypeMatch 3 Scenario.theHeap (Some (Scenario.plain Scenario.tBool)) (Some (Scenario.plain Scenario.tP))
    = rowVerdict (hasTag Bool) 2 Scenario.theHeap (getType Scenario.theHeap Scenario.tBool)
        (Scenario.plain Scenario.tP)
  ∧ isTypeMatch 3 Scenario.theHeap (Some (Scenario.plain Scenario.tString)) (Some (Scenario.plain Scenario.tQ))
    = rowVerdict namedString 2 Scenario.theHeap (getType Scenario.theHeap Scenario.tString)
        (Scenario.plain Scenario.tQ).
Proof.
  split; [|split].
  - apply (proj1 (primitive_matrix 2 Scenario.theHeap (Scenario.plain Scenario.tInt) (Scenario.plain Scenario.tDouble)
                    (Scenario.plain Scenario.tInt)
                    (Scenario.plain Scenario.tDouble) Scenario.tInt eq_refl eq_refl eq_refl)).
    reflexivity.
  - apply (proj1 (proj2 (primitive_matrix 2 Scenario.theHeap (Scenario.plain Scenario.tBool) (Scenario.plain Scenario.tP)
                    (Scenario.plain Scenario.tBool)
                           (Scenario.plain Scenario.tP) Scenario.tBool eq_refl eq_refl eq_refl))).
    reflexivity.
  - apply (proj1 (proj2 (proj2 (primitive_matrix 2 Scenario.theHeap (Scenario.plain Scenario.tString) (Scenario.plain Scenario.tQ)
                    (Scenario.plain Scenario.tString)
                           (Scenario.plain Scenario.tQ) Scenario.tString eq_refl eq_refl eq_refl)))).
    reflexivity.
Defined.

(** C3, as the specification states it, fails: a [Number] source is compatible with the
    [Any] destination and with the class [P], neither of which is tagged
    [Number]; a [String] source is compatible with the [Any] destination,
    whose name is "?", and with the class [Q]. *)
Lemma primitive_matrix_not_exclusive :
  sourceType (getType Scenario.theHeap Scenario.tInt) = Primitive Number
  ∧ sourceType (getType Scenario.theHeap Scenario.tString) = Primitive String
  ∧ (isTypeMatch 3 Scenario.theHeap Scenario.number (Some (Scenario.plain Scenario.tAny)) = Returns true
     ∧ sourceType (getType Scenario.theHeap Scenario.tAny) ≠ Primitive Number)
  ∧ (isTypeMatch 3 Scenario.theHeap Scenario.number (Some (Scenario.plain Scenario.tP)) = Returns true
     ∧ sourceType (getType Scenario.theHeap Scenario.tP) ≠ Primitive Number)
  ∧ (isTypeMatch 3 Scenario.theHeap Scenario.string_ (Some (Scenario.plain Scenario.tAny)) = Returns true
     ∧ text (type_declaredPlace (getType Scenario.theHeap Scenario.tAny)) = "?")
  ∧ (isTypeMatch 3 Scenario.theHeap Scenario.string_ (Some (Scenario.plain Scenario.tQ)) = Returns true
     ∧ text (type_declaredPlace (getType Scenario.theHeap Scenario.tQ)) = "Q").
Proof. vm_compute. repeat split; discriminate. Qed.

(** *** Inheritance *)

Lemma canCastStatically_listed srcNode destNode srcType a :
  nodeName srcNode = Class → listsBase srcType a →
  canCastStatically srcNode destNode srcType a = true.
Proof.
  intros Hclass (bases & base & Hbases & Hin & Hbase).
  unfold canCastStatically. rewrite Hclass, Hbases. simpl.
  apply existsb_exists. exists (Some base). split.
  - by apply list_elem_of_In.
  - by apply bool_decide_eq_true.
Qed.

(** C7: a class is compatible with a class it lists as an immediate base;
    a class [C] that lists only [B] is not compatible with a class [A] that
    [B] lists, when [A] cannot be constructed implicitly from [C]: bases of
    bases are not walked.  Sides are taken after their self-resolution. *)
Theorem inheritance_is_single_level :
  (∀ fuel h src dest resolvedSrc resolvedDest b a nodeB,
     selfResolve h src = Some resolvedSrc → selfResolve h dest = Some resolvedDest →
     symbolType resolvedSrc = OfType b → symbolType resolvedDest = OfType a →
     declaredByClass (getType h b) nodeB →
     listsBase (getType h b) a →
     isTypeMatch (S fuel) h (Some src) (Some dest) = Returns true)
  ∧
  (∀ fuel h src dest resolvedSrc resolvedDest c b a nodeC nodeA base,
     selfResolve h src = Some resolvedSrc → selfResolve h dest = Some resolvedDest →
     symbolType resolvedSrc = OfType c → symbolType resolvedDest = OfType a →
     sourceType (getType h c) = Node nodeC →
     declaredByClass (getType h a) nodeA →
     token_addr (type_declaredPlace (getType h c)) ≠ token_addr (type_declaredPlace (getType h a)) →
     baseList (getType h c) = Some [Some base] → symbolType base = OfType b → b ≠ a →
     listsBase (getType h b) a →
     canConstructImplicitly fuel h (getType h c) (sourceScope resolvedDest)
       (text (identifier nodeA)) = Returns false →
     isTypeMatch (S fuel) h (Some src) (Some dest) = Returns false).
Proof.
  split.
  - intros fuel h src dest resolvedSrc resolvedDest b a nodeB Hsrc Hdest Hb Ha [HB Hclass] Hlists.
    rewrite (isTypeMatch_types _ _ _ _ _ _ _ _ Hsrc Hdest Hb Ha).
    unfold castsDirectly. rewrite HB.
    rewrite (canCastStatically_listed _ _ _ _ Hclass Hlists), orb_true_r. simpl.
    by destruct (_ || _).
  - intros fuel h src dest resolvedSrc resolvedDest c b a nodeC nodeA base
      Hsrc Hdest Hc Ha HC [HA Hclass] Hdistinct Hbases Hbase Hne _ Hno.
    rewrite (isTypeMatch_types _ _ _ _ _ _ _ _ Hsrc Hdest Hc Ha).
    unfold hasTag, castsDirectly, canCastStatically, sameToken, constructorFallback.
    rewrite HA, HC, Hbases. simpl. rewrite Hbase.
    rewrite (bool_decide_eq_false_2 _ Hdistinct).
    rewrite (bool_decide_eq_false_2 (OfType b = OfType a)) by congruence.
    rewrite Hclass, Hno. by destruct (bool_decide _ || bool_decide _).
Qed.

Lemma inheritance_is_single_level_witness :
  isTypeMatch 1 Scenario.theHeap (Some (Scenario.plain Scenario.tB)) (Some (Scenario.plain Scenario.tA))
    = Returns true
  ∧ isTypeMatch 1 Scenario.theHeap (Some (Scenario.plain Scenario.tC)) (Some (Scenario.plain Scenario.tA))
    = Returns false.
Proof.
  split.
  - apply (proj1 inheritance_is_single_level 0 Scenario.theHeap
             (Scenario.plain Scenario.tB) (Scenario.plain Scenario.tA)
             (Scenario.plain Scenario.tB) (Scenario.plain Scenario.tA)
             Scenario.tB Scenario.tA (Scenario.classNode 111 "B" 2)).
    + reflexivity.
    + reflexivity.
    + reflexivity.
    + reflexivity.
    + split; reflexivity.
    + exists [Some (Scenario.plain Scenario.tA)], (Scenario.plain Scenario.tA).
      split; [reflexivity|]. split; [left|reflexivity].
  - apply (proj2 inheritance_is_single_level 0 Scenario.theHeap
             (Scenario.plain Scenario.tC) (Scenario.plain Scenario.tA)
             (Scenario.plain Scenario.tC) (Scenario.plain Scenario.tA)
             Scenario.tC Scenario.tB Scenario.tA
             (Scenario.classNode 112 "C" 3) (Scenario.classNode 110 "A" 1)
             (Scenario.plain Scenario.tB)).
    + reflexivity.
    + reflexivity.
    + reflexivity.
    + reflexivity.
    + reflexivity.
    + split; reflexivity.
    + vm_compute. discriminate.
    + reflexivity.
    + reflexivity.
    + discriminate.
    + exists [Some (Scenario.plain Scenario.tA)], (Scenario.plain Scenario.tA).
      split; [reflexivity|]. split; [left|reflexivity].
    + vm_compute. reflexivity.
Defined.

(** *** Implicit construction *)








(** ** The overload resolver *)

Section ResolverProperties.
Variable getNodeLocation : ParsedRange → LocationInfo.
Variable typeFuel : nat.

Lemma actualTypeAt_beyond args h i :
  length (callerArgs args) ≤ i → actualTypeAt args h i = None.
Proof.
  intros Hi. unfold actualTypeAt, at_index.
  rewrite (lookup_ge_None_2 _ _ Hi). simpl. by destruct (templateTranslator args).
Qed.

Lemma comparison_beyond args h i :
  length (callerArgs args) ≤ i → comparison typeFuel h args i = Returns true.
Proof. intros Hi. unfold comparison. by rewrite actualTypeAt_beyond. Qed.

(** One turn of the loop at a position that does not stop the call. *)
Lemma parameterLoop_pass args i param params h ds :
  passes typeFuel h args i param = true →
  parameterLoop getNodeLocation typeFuel args i (param :: params) {| heap := h; diagnostics := ds |}
  = parameterLoop getNodeLocation typeFuel args (S i) params {| heap := h; diagnostics := ds |}.
Proof.
  unfold passes, hasNoDefault. intros Hpass. simpl.
  case_bool_decide as Hi.
  - apply negb_true_iff in Hpass. rewrite Hpass. simpl.
    by rewrite actualTypeAt_beyond.
  - simpl. unfold comparison in Hpass.
    destruct (actualTypeAt args h i) as [actualType|]; [|done].
    destruct (expectedTypeAt args h i) as [expectedType|]; [|done].
    destruct (isTypeMatch _ _ _ _) as [[|]| |]; done.
Qed.

(** The loop on an overload that has a next one: it runs to the end
    without a word when every position passes, and hands over to the next
    overload, again without a word, otherwise. *)
Lemma parameterLoop_nonfinal args next h ds params i :
  nextOverload (getFunction h (calleeFunc args)) = Some next →
  comparisonsReturn typeFuel h args →
  parameterLoop getNodeLocation typeFuel args i params {| heap := h; diagnostics := ds |}
  = Returns (if allPass typeFuel h args i params then RanToEnd else NextOverload next,
             {| heap := h; diagnostics := ds |}).
Proof.
  intros Hnext Hreturn. revert i.
  induction params as [|param params IH]; intros i; [done|].
  simpl allPass. destruct (passes typeFuel h args i param) eqn:Hpass.
  - rewrite parameterLoop_pass by done. apply IH.
  - unfold passes, hasNoDefault in Hpass. simpl. rewrite Hnext.
    case_bool_decide as Hi.
    + apply negb_false_iff in Hpass. by rewrite Hpass.
    + simpl. destruct (Hreturn i) as [ok Hok]; [lia|].
      rewrite Hok in Hpass. subst ok. unfold comparison in Hok.
      destruct (actualTypeAt args h i) as [actualType|]; [|done].
      destruct (expectedTypeAt args h i) as [expectedType|]; [|done].
      by rewrite Hok.
Qed.

Lemma conversionErrors_S args h i n :
  conversionErrors getNodeLocation typeFuel h args i (S n)
  = match comparison typeFuel h args i with
    | Returns false => option_list (conversionError getNodeLocation h args i)
    | _ => []
    end ++ conversionErrors getNodeLocation typeFuel h args (S i) n.
Proof.
  unfold conversionErrors. simpl.
  destruct (comparison typeFuel h args i) as [[|]| |]; try done.
  by destruct (conversionError getNodeLocation h args i).
Qed.

(** The loop on the last overload, over supplied arguments: it goes
    through all of them and reports each mismatch. *)
Lemma parameterLoop_final_supplied args h ds params1 params2 i :
  nextOverload (getFunction h (calleeFunc args)) = None →
  i + length params1 ≤ length (callerArgs args) →
  argumentsHaveNodes args → comparisonsReturn typeFuel h args →
  parameterLoop getNodeLocation typeFuel args i (params1 ++ params2)
    {| heap := h; diagnostics := ds |}
  = parameterLoop getNodeLocation typeFuel args (i + length params1) params2
      {| heap := h;
         diagnostics := ds ++ conversionErrors getNodeLocation typeFuel h args i (length params1) |}.
Proof.
  intros Hlast Hlen Hnodes Hreturn. revert i ds Hlen.
  induction params1 as [|param params1 IH]; intros i ds Hlen.
  - simpl. by rewrite Nat.add_0_r, app_nil_r.
  - simpl length in *. simpl app.
    replace (i + S (length params1)) with (S i + length params1) by lia.
    rewrite conversionErrors_S.
    destruct (Hreturn i) as [[|] Hok]; [lia| |]; rewrite Hok.
    + rewrite parameterLoop_pass.
      * apply IH. lia.
      * unfold passes. rewrite bool_decide_eq_false_2 by lia. by rewrite Hok.
    + unfold comparison in Hok. unfold conversionError. simpl.
      rewrite bool_decide_eq_false_2 by lia. simpl.
      destruct (actualTypeAt args h i) as [actualType|]; [|done].
      destruct (expectedTypeAt args h i) as [expectedType|]; [|done].
      rewrite Hok, Hlast. simpl.
      destruct (caller_argList (callerNode args) !! i) as [arg|] eqn:Harg.
      * unfold addError. simpl. rewrite IH by lia. by rewrite <- app_assoc.
      * apply lookup_ge_None in Harg. unfold argumentsHaveNodes in Hnodes. lia.
Qed.

(** The loop on the last overload, past the supplied arguments: it stops
    at the first parameter without a default, with one missing-argument
    error, and runs to the end without a word if there is none. *)
Lemma parameterLoop_final_unsupplied args h ds params i :
  nextOverload (getFunction h (calleeFunc args)) = None →
  length (callerArgs args) ≤ i →
  parameterLoop getNodeLocation typeFuel args i params {| heap := h; diagnostics := ds |}
  = match find hasNoDefault params with
    | Some param =>
        Returns (Break, {| heap := h;
                           diagnostics := ds ++ [missingArgument getNodeLocation args param] |})
    | None => Returns (RanToEnd, {| heap := h; diagnostics := ds |})
    end.
Proof.
  intros Hlast. revert i.
  induction params as [|param params IH]; intros i Hi; simpl; [done|].
  rewrite Hlast, bool_decide_eq_true_2 by done. unfold hasNoDefault at 1.
  destruct (bool_decide (defaultExpr param = None)); simpl; [done|].
  rewrite actualTypeAt_beyond by done. apply IH. lia.
Qed.
End ResolverProperties.


Lemma withCallee_calleeFunc args : withCallee args (calleeFunc args) = args.
Proof. by destruct args. Qed.

Section ResolverRuns.
Variable getNodeLocation : ParsedRange → LocationInfo.
Variable typeFuel : nat.

(** A call checked against an overload that has a next one: accepted
    without a word if applicable, handed to the next overload otherwise. *)
Lemma checkFunctionMatch_nonfinal fuel args next h ds :
  nextOverload (getFunction h (calleeFunc args)) = Some next →
  comparisonsReturn typeFuel h args →
  checkFunctionMatch getNodeLocation typeFuel (S fuel) args {| heap := h; diagnostics := ds |}
  = if applicable typeFuel h args then
      Returns (returnType (getFunction h (calleeFunc args)),
               {| heap := pushReferenced h (scope args) (referenceTo args (calleeFunc args));
                  diagnostics := ds |})
    else checkFunctionMatch getNodeLocation typeFuel fuel (withCallee args next)
           {| heap := h; diagnostics := ds |}.
Proof.
  intros Hnext Hreturn. simpl. unfold checkFunctionMatchBody, applicable. simpl.
  case_bool_decide as Hmany; simpl.
  - unfold handleTooMuchCallerArgs. simpl. by rewrite Hnext.
  - rewrite (parameterLoop_nonfinal _ _ _ _ _ _ _ _ Hnext Hreturn). simpl.
    by destruct (allPass _ _ _ _ _).
Qed.

(** A call checked against the last overload settles on it, whatever it
    has to report. *)
Lemma checkFunctionMatch_final fuel args h ds :
  nextOverload (getFunction h (calleeFunc args)) = None →
  argumentsHaveNodes args → comparisonsReturn typeFuel h args →
  checkFunctionMatch getNodeLocation typeFuel (S fuel) args {| heap := h; diagnostics := ds |}
  = Returns (returnType (getFunction h (calleeFunc args)),
             {| heap := pushReferenced h (scope args) (referenceTo args (calleeFunc args));
                diagnostics :=
                  ds ++
                  if bool_decide (length (paramList (sourceNode (getFunction h (calleeFunc args))))
                                  < length (callerArgs args))
                  then [tooManyArguments getNodeLocation h args]
                  else conversionErrors getNodeLocation typeFuel h args 0 (length (callerArgs args))
                       ++ missingArguments getNodeLocation args
                            (paramList (sourceNode (getFunction h (calleeFunc args)))) |}).
Proof.
  intros Hlast Hnodes Hreturn. simpl. unfold checkFunctionMatchBody. simpl.
  set (params := paramList (sourceNode (getFunction h (calleeFunc args)))).
  case_bool_decide as Hmany.
  - unfold handleTooMuchCallerArgs. simpl. by rewrite Hlast.
  - rewrite <- (take_drop (length (callerArgs args)) params) at 1.
    assert (Htake : length (take (length (callerArgs args)) params) = length (callerArgs args)).
    { rewrite length_take. lia. }
    rewrite (parameterLoop_final_supplied getNodeLocation typeFuel args h ds); try done; [|lia].
    rewrite Htake. simpl.
    rewrite parameterLoop_final_unsupplied by done.
    unfold missingArguments. fold params.
    destruct (find hasNoDefault _); simpl.
    + by rewrite <- app_assoc.
    + by rewrite app_nil_r.
Qed.

End ResolverRuns.



(** *** Conversion errors on the last overload *)

Section ConversionErrors.
Variable getNodeLocation : ParsedRange → LocationInfo.
Variable typeFuel : nat.
Variable h : Heap.
Variable args : FunctionMatchingArgs.

Lemma conversionErrors_app i n m :
  conversionErrors getNodeLocation typeFuel h args i (n + m)
  = conversionErrors getNodeLocation typeFuel h args i n
    ++ conversionErrors getNodeLocation typeFuel h args (i + n) m.
Proof. unfold conversionErrors. by rewrite seq_app, omap_app. Qed.

Lemma conversionErrors_none i n :
  (∀ j, i ≤ j < i + n → comparison typeFuel h args j ≠ Returns false) →
  conversionErrors getNodeLocation typeFuel h args i n = [].
Proof.
  revert i. induction n as [|n IH]; intros i Hnone; [done|].
  rewrite conversionErrors_S. rewrite IH by (intros j Hj; apply Hnone; lia).
  specialize (Hnone i). destruct (comparison typeFuel h args i) as [[|]| |]; try done.
  exfalso. apply Hnone; [lia|done].
Qed.

(** A mismatch on a supplied argument has its conversion error. *)
Lemma conversionError_mismatch i :
  argumentsHaveNodes args → i < length (callerArgs args) →
  comparison typeFuel h args i = Returns false →
  ∃ actualType expectedType arg,
    actualTypeAt args h i = Some actualType ∧ expectedTypeAt args h i = Some expectedType ∧
    caller_argList (callerNode args) !! i = Some arg ∧
    conversionError getNodeLocation h args i
      = Some {| diag_location := getNodeLocation (expr_nodeRange (assign arg));
                diag_message := cannotConvertMessage h actualType expectedType |}.
Proof.
  intros Hnodes Hi. unfold comparison, conversionError.
  destruct (actualTypeAt args h i) as [actualType|]; [|done].
  destruct (expectedTypeAt args h i) as [expectedType|]; [|done].
  intros _. unfold argumentsHaveNodes in Hnodes.
  destruct (lookup_lt_is_Some_2 (caller_argList (callerNode args)) i) as [arg Harg]; [lia|].
  exists actualType, expectedType, arg. by rewrite Harg.
Qed.

(** Two mismatches, at [i] and at [j], and no other: two conversion
    errors, the one for [i] and then the one for [j]. *)
Lemma conversionErrors_two i j :
  argumentsHaveNodes args → i < j < length (callerArgs args) →
  (∀ k, k < length (callerArgs args) →
        comparison typeFuel h args k = Returns false ↔ k = i ∨ k = j) →
  ∃ errorI errorJ,
    conversionError getNodeLocation h args i = Some errorI ∧
    conversionError getNodeLocation h args j = Some errorJ ∧
    conversionErrors getNodeLocation typeFuel h args 0 (length (callerArgs args))
      = [errorI; errorJ].
Proof.
  intros Hnodes Hij Hexactly.
  assert (Hi : comparison typeFuel h args i = Returns false) by (apply Hexactly; [lia|by left]).
  assert (Hj : comparison typeFuel h args j = Returns false) by (apply Hexactly; [lia|by right]).
  destruct (conversionError_mismatch i Hnodes ltac:(lia) Hi) as (? & ? & ? & _ & _ & _ & HerrI).
  destruct (conversionError_mismatch j Hnodes ltac:(lia) Hj) as (? & ? & ? & _ & _ & _ & HerrJ).
  eexists _, _. split; [exact HerrI|]. split; [exact HerrJ|].
  replace (length (callerArgs args))
    with (i + (1 + ((j - i - 1) + (1 + (length (callerArgs args) - j - 1))))) by lia.
  rewrite !conversionErrors_app.
  rewrite (conversionErrors_none 0 i); [|intros k Hk Hfalse; apply Hexactly in Hfalse; lia].
  rewrite (conversionErrors_none (0 + i + 1) (j - i - 1));
    [|intros k Hk Hfalse; apply Hexactly in Hfalse; lia].
  rewrite (conversionErrors_none (0 + i + 1 + (j - i - 1) + 1));
    [|intros k Hk Hfalse; apply Hexactly in Hfalse; lia].
  replace (0 + i + 1 + (j - i - 1)) with j by lia.
  unfold conversionErrors at 1 2. simpl. by rewrite Hi, HerrI, Hj, HerrJ.
Qed.

(** As many conversion errors as mismatching positions. *)
Lemma conversionErrors_length i n :
  argumentsHaveNodes args → i + n ≤ length (callerArgs args) →
  length (conversionErrors getNodeLocation typeFuel h args i n)
  = length (filter (λ k, mismatches typeFuel h args k = true) (seq i n)).
Proof.
  intros Hnodes. revert i. induction n as [|n IH]; intros i Hlen; [done|].
  rewrite conversionErrors_S, length_app, IH by lia. simpl seq. rewrite filter_cons.
  destruct (decide (mismatches typeFuel h args i = true)) as [Hm|Hm];
    unfold mismatches in Hm;
    destruct (comparison typeFuel h args i) as [[|]| |] eqn:Hi; try done.
  destruct (conversionError_mismatch i Hnodes ltac:(lia) Hi) as (? & ? & ? & _ & _ & _ & ->).
  reflexivity.
Qed.
End ConversionErrors.

(** *** Leaving the loop *)

Lemma find_none_app {A} (f : A → bool) (l1 l2 : list A) :
  find f l1 = None → find f (l1 ++ l2) = find f l2.
Proof.
  induction l1 as [|x l1 IH]; simpl; [done|]. destruct (f x); [done|]. exact IH.
Qed.

(** The loop is left by [break] only where a parameter past the supplied
    arguments has no default and no overload is left; the last thing reported
    is then the missing-argument error for that parameter. *)
Lemma parameterLoop_break getNodeLocation typeFuel args params :
  ∀ i w w',
    parameterLoop getNodeLocation typeFuel args i params w = Returns (Break, w') →
    nextOverload (getFunction (heap w) (calleeFunc args)) = None ∧
    ∃ k param reported,
      params !! k = Some param ∧ length (callerArgs args) ≤ i + k ∧
      defaultExpr param = None ∧
      diagnostics w' = reported ++ [missingArgument getNodeLocation args param].
Proof.
  induction params as [|param params IH]; intros i w w'; simpl; [done|].
  assert (Hnext : ∀ w1, heap w1 = heap w →
            parameterLoop getNodeLocation typeFuel args (S i) params w1 = Returns (Break, w') →
            nextOverload (getFunction (heap w) (calleeFunc args)) = None ∧
            ∃ k param0 reported,
              (param :: params) !! k = Some param0 ∧ length (callerArgs args) ≤ i + k ∧
              defaultExpr param0 = None ∧
              diagnostics w' = reported ++ [missingArgument getNodeLocation args param0]).
  { intros w1 Hheap Hrun.
    destruct (IH _ _ _ Hrun) as (Hlast & k & param0 & reported & Hk & Hlen & Hdefault & Hdiag).
    rewrite Hheap in Hlast. split; [done|].
    exists (S k), param0, reported. repeat split; try done. lia. }
  destruct (bool_decide (length (callerArgs args) ≤ i)) eqn:Hi;
    destruct (bool_decide (defaultExpr param = None)) eqn:Hdefault; simpl.
  - destruct (nextOverload (getFunction (heap w) (calleeFunc args))); [done|].
    intros [= <-]. split; [done|].
    apply bool_decide_eq_true in Hi, Hdefault.
    exists 0, param, (diagnostics w). repeat split; try done. lia.
  - rewrite actualTypeAt_beyond by (by apply bool_decide_eq_true in Hi). by apply Hnext.
  - destruct (actualTypeAt args (heap w) i) as [actualType|]; [|by apply Hnext].
    destruct (expectedTypeAt args (heap w) i) as [expectedType|]; [|by apply Hnext].
    destruct (isTypeMatch _ _ _ _) as [[|]| |]; simpl; try done; [by apply Hnext|].
    destruct (nextOverload (getFunction (heap w) (calleeFunc args))); [done|].
    destruct (caller_argList (callerNode args) !! i); [|done]. by apply Hnext.
  - destruct (actualTypeAt args (heap w) i) as [actualType|]; [|by apply Hnext].
    destruct (expectedTypeAt args (heap w) i) as [expectedType|]; [|by apply Hnext].
    destruct (isTypeMatch _ _ _ _) as [[|]| |]; simpl; try done; [by apply Hnext|].
    destruct (nextOverload (getFunction (heap w) (calleeFunc args))); [done|].
    destruct (caller_argList (callerNode args) !! i); [|done]. by apply Hnext.
Qed.

(** C5: on the last overload, at the first parameter past the supplied
    arguments that has no default, the loop stops with exactly one
    missing-argument error, whose text holds the identifier of that parameter
    ([undefined] for a parameter without one); whatever parameters come after
    it are not looked at.  No other branch leaves the loop by
    [break]: without such a parameter the loop on the last overload runs to
    its end, mismatches or not. *)
Theorem missing_argument_stops_the_loop :
  (∀ getNodeLocation typeFuel fuel args w before param after,
     nextOverload (getFunction (heap w) (calleeFunc args)) = None →
     paramList (sourceNode (getFunction (heap w) (calleeFunc args))) = before ++ param :: after →
     length (callerArgs args) ≤ length before →
     find hasNoDefault (drop (length (callerArgs args)) before) = None →
     defaultExpr param = None →
     argumentsHaveNodes args → comparisonsReturn typeFuel (heap w) args →
     let reported :=
       diagnostics w
       ++ conversionErrors getNodeLocation typeFuel (heap w) args 0 (length (callerArgs args))
       ++ [ {| diag_location := getNodeLocation (caller_nodeRange (callerNode args));
               diag_message :=
                 "Missing argument for parameter '"
                 +:+ match param_identifier param with
                     | Some identifier => text identifier
                     | None => "undefined"
                     end
                 +:+ "' 💢" |} ] in
     parameterLoop getNodeLocation typeFuel args 0 (before ++ param :: after) w
       = Returns (Break, {| heap := heap w; diagnostics := reported |})
     ∧ checkFunctionMatch getNodeLocation typeFuel (S fuel) args w
       = Returns (returnType (getFunction (heap w) (calleeFunc args)),
                  {| heap := pushReferenced (heap w) (scope args)
                               (referenceTo args (calleeFunc args));
                     diagnostics := reported |}))
  ∧
  (∀ getNodeLocation typeFuel args i params w w',
     parameterLoop getNodeLocation typeFuel args i params w = Returns (Break, w') →
     nextOverload (getFunction (heap w) (calleeFunc args)) = None ∧
     ∃ k param reported,
       params !! k = Some param ∧ length (callerArgs args) ≤ i + k ∧
       defaultExpr param = None ∧
       diagnostics w'
       = reported
         ++ [ {| diag_location := getNodeLocation (caller_nodeRange (callerNode args));
                 diag_message :=
                   "Missing argument for parameter '"
                   +:+ match param_identifier param with
                       | Some identifier => text identifier
                       | None => "undefined"
                       end
                   +:+ "' 💢" |} ])
  ∧
  (∀ getNodeLocation typeFuel args w,
     nextOverload (getFunction (heap w) (calleeFunc args)) = None →
     length (callerArgs args)
       ≤ length (paramList (sourceNode (getFunction (heap w) (calleeFunc args)))) →
     find hasNoDefault
       (drop (length (callerArgs args))
             (paramList (sourceNode (getFunction (heap w) (calleeFunc args))))) = None →
     argumentsHaveNodes args → comparisonsReturn typeFuel (heap w) args →
     parameterLoop getNodeLocation typeFuel args 0
       (paramList (sourceNode (getFunction (heap w) (calleeFunc args)))) w
     = Returns (RanToEnd,
                {| heap := heap w;
                   diagnostics :=
                     diagnostics w
                     ++ conversionErrors getNodeLocation typeFuel (heap w) args 0
                          (length (callerArgs args)) |})).
Proof.
  split; [|split; [intros; by eapply parameterLoop_break|]]; cycle 1.
  { intros getNodeLocation typeFuel args [h ds] Hlast Hlen Hdefaults Hnodes Hreturn.
    simpl in *.
    set (params := paramList (sourceNode (getFunction h (calleeFunc args)))) in *.
    rewrite <- (take_drop (length (callerArgs args)) params) at 1.
    assert (Htake : length (take (length (callerArgs args)) params) = length (callerArgs args)).
    { rewrite length_take. lia. }
    rewrite (parameterLoop_final_supplied getNodeLocation typeFuel args h ds); try done; [|lia].
    rewrite Htake. simpl.
    rewrite parameterLoop_final_unsupplied by done. by rewrite Hdefaults. }
  intros getNodeLocation typeFuel fuel args [h ds] before param after
    Hlast Hparams Hlen Hdefaults Hdefault Hnodes Hreturn. simpl in *.
  assert (Hfind : find hasNoDefault (drop (length (callerArgs args)) (before ++ param :: after))
                  = Some param).
  { rewrite drop_app_le by done. rewrite find_none_app by done. simpl.
    unfold hasNoDefault. by rewrite bool_decide_eq_true_2. }
  split.
  - rewrite <- (take_drop (length (callerArgs args)) (before ++ param :: after)) at 1.
    assert (Htake : length (take (length (callerArgs args)) (before ++ param :: after))
                    = length (callerArgs args)).
    { rewrite length_take, length_app. simpl. lia. }
    rewrite (parameterLoop_final_supplied getNodeLocation typeFuel args h ds); try done; [|lia].
    rewrite Htake. simpl.
    rewrite parameterLoop_final_unsupplied by done.
    rewrite Hfind. unfold missingArgument. by rewrite <- app_assoc.
  - pose proof (checkFunctionMatch_final getNodeLocation typeFuel fuel args h ds
                  Hlast Hnodes Hreturn) as Hrun.
    simpl in Hrun. rewrite Hrun.
    rewrite Hparams, bool_decide_eq_false_2 by (rewrite length_app; simpl; lia).
    unfold missingArguments. rewrite Hfind. reflexivity.
Qed.

Lemma missing_argument_stops_the_loop_witness :
  (parameterLoop Scenario.getNodeLocation 1 Scenario.callG 0
     ([Scenario.parameter 319 "a" 13 None; Scenario.parameter 320 "b" 13 None]
      ++ Scenario.parameter 321 "required_c" 13 None
      :: [Scenario.parameter 322 "d" 13 Scenario.someDefault]) Scenario.theWorld
   = Returns (Break,
              {| heap := Scenario.theHeap;
                 diagnostics :=
                   [ {| diag_location := Scenario.atLine 31;
                        diag_message := "Missing argument for parameter 'required_c' 💢" |} ] |})
   ∧ checkFunctionMatch Scenario.getNodeLocation 1 1 Scenario.callG Scenario.theWorld
     = Returns (Some (Scenario.plain Scenario.tInt),
                {| heap := pushReferenced Scenario.theHeap Scenario.sGlobal
                             (referenceTo Scenario.callG Scenario.g);
                   diagnostics :=
                     [ {| diag_location := Scenario.atLine 31;
                          diag_message := "Missing argument for parameter 'required_c' 💢" |} ] |}))
  ∧ (nextOverload (getFunction Scenario.theHeap Scenario.g) = None ∧
     ∃ k param before,
       paramList (sourceNode (getFunction Scenario.theHeap Scenario.g)) !! k = Some param ∧
       2 ≤ 0 + k ∧ defaultExpr param = None ∧
       [ {| diag_location := Scenario.atLine 31;
            diag_message := "Missing argument for parameter 'required_c' 💢" |} ]
       = before
         ++ [ {| diag_location := Scenario.getNodeLocation (caller_nodeRange (callerNode Scenario.callG));
                 diag_message :=
                   "Missing argument for parameter '"
                   +:+ match param_identifier param with
                       | Some identifier => text identifier
                       | None => "undefined"
                       end
                   +:+ "' 💢" |} ])
  ∧ parameterLoop Scenario.getNodeLocation 1 Scenario.callStrings 0
      (paramList (sourceNode (getFunction Scenario.theHeap Scenario.f0))) Scenario.theWorld
    = Returns (RanToEnd,
               {| heap := Scenario.theHeap;
                  diagnostics :=
                    conversionErrors Scenario.getNodeLocation 1 Scenario.theHeap
                      Scenario.callStrings 0 2 |}).
Proof.
  split; [|split].
  - apply (proj1 missing_argument_stops_the_loop Scenario.getNodeLocation 1 0 Scenario.callG
             Scenario.theWorld
             [Scenario.parameter 319 "a" 13 None; Scenario.parameter 320 "b" 13 None]
             (Scenario.parameter 321 "required_c" 13 None)
             [Scenario.parameter 322 "d" 13 Scenario.someDefault]).
    + reflexivity.
    + reflexivity.
    + simpl. lia.
    + reflexivity.
    + reflexivity.
    + unfold argumentsHaveNodes. simpl. lia.
    + intros i Hi. simpl in Hi. destruct i as [|[|i]]; try lia; eexists; vm_compute; reflexivity.
  - apply (proj1 (proj2 missing_argument_stops_the_loop) Scenario.getNodeLocation 1 Scenario.callG 0
             (paramList (sourceNode (getFunction Scenario.theHeap Scenario.g)))
             Scenario.theWorld
             {| heap := Scenario.theHeap;
                diagnostics :=
                  [ {| diag_location := Scenario.atLine 31;
                       diag_message := "Missing argument for parameter 'required_c' 💢" |} ] |}).
    vm_compute. reflexivity.
  - apply (proj2 (proj2 missing_argument_stops_the_loop) Scenario.getNodeLocation 1
             Scenario.callStrings Scenario.theWorld).
    + reflexivity.
    + vm_compute. lia.
    + reflexivity.
    + unfold argumentsHaveNodes. simpl. lia.
    + intros i Hi. simpl in Hi. destruct i as [|[|i]]; try lia; eexists; vm_compute; reflexivity.
Defined.


(** C6: against the last overload the loop goes on after a mismatch: the
    call reports one conversion error for each mismatching position, in
    order; with mismatches at exactly two positions these are two errors, one
    for each of the two arguments. *)
Theorem final_overload_accumulates :
  (∀ getNodeLocation typeFuel fuel args w,
     nextOverload (getFunction (heap w) (calleeFunc args)) = None →
     length (callerArgs args) ≤ length (paramList (sourceNode (getFunction (heap w) (calleeFunc args)))) →
     argumentsHaveNodes args → comparisonsReturn typeFuel (heap w) args →
     checkFunctionMatch getNodeLocation typeFuel (S fuel) args w
       = Returns (returnType (getFunction (heap w) (calleeFunc args)),
                  {| heap := pushReferenced (heap w) (scope args)
                               (referenceTo args (calleeFunc args));
                     diagnostics :=
                       diagnostics w
                       ++ conversionErrors getNodeLocation typeFuel (heap w) args 0
                            (length (callerArgs args))
                       ++ missingArguments getNodeLocation args
                            (paramList (sourceNode (getFunction (heap w) (calleeFunc args)))) |})
     ∧ length (conversionErrors getNodeLocation typeFuel (heap w) args 0 (length (callerArgs args)))
       = length (filter (λ k, mismatches typeFuel (heap w) args k = true)
                        (seq 0 (length (callerArgs args)))))
  ∧
  (∀ getNodeLocation typeFuel fuel args w i j,
     nextOverload (getFunction (heap w) (calleeFunc args)) = None →
     length (callerArgs args) ≤ length (paramList (sourceNode (getFunction (heap w) (calleeFunc args)))) →
     argumentsHaveNodes args → comparisonsReturn typeFuel (heap w) args →
     i < j < length (callerArgs args) →
     (∀ k, k < length (callerArgs args) →
           comparison typeFuel (heap w) args k = Returns false ↔ k = i ∨ k = j) →
     ∃ actualI expectedI argI actualJ expectedJ argJ,
       actualTypeAt args (heap w) i = Some actualI ∧ expectedTypeAt args (heap w) i = Some expectedI ∧
       caller_argList (callerNode args) !! i = Some argI ∧
       actualTypeAt args (heap w) j = Some actualJ ∧ expectedTypeAt args (heap w) j = Some expectedJ ∧
       caller_argList (callerNode args) !! j = Some argJ ∧
       checkFunctionMatch getNodeLocation typeFuel (S fuel) args w
         = Returns (returnType (getFunction (heap w) (calleeFunc args)),
                    {| heap := pushReferenced (heap w) (scope args)
                                 (referenceTo args (calleeFunc args));
                       diagnostics :=
                         diagnostics w
                         ++ [ {| diag_location := getNodeLocation (expr_nodeRange (assign argI));
                                 diag_message := cannotConvertMessage (heap w) actualI expectedI |};
                              {| diag_location := getNodeLocation (expr_nodeRange (assign argJ));
                                 diag_message := cannotConvertMessage (heap w) actualJ expectedJ |} ]
                         ++ missingArguments getNodeLocation args
                              (paramList (sourceNode (getFunction (heap w) (calleeFunc args)))) |})).
Proof.
  assert (Hrun : ∀ getNodeLocation typeFuel fuel args h ds,
            nextOverload (getFunction h (calleeFunc args)) = None →
            length (callerArgs args) ≤ length (paramList (sourceNode (getFunction h (calleeFunc args)))) →
            argumentsHaveNodes args → comparisonsReturn typeFuel h args →
            checkFunctionMatch getNodeLocation typeFuel (S fuel) args {| heap := h; diagnostics := ds |}
            = Returns (returnType (getFunction h (calleeFunc args)),
                       {| heap := pushReferenced h (scope args) (referenceTo args (calleeFunc args));
                          diagnostics :=
                            ds ++ conversionErrors getNodeLocation typeFuel h args 0
                                    (length (callerArgs args))
                            ++ missingArguments getNodeLocation args
                                 (paramList (sourceNode (getFunction h (calleeFunc args)))) |})).
  { intros getNodeLocation typeFuel fuel args h ds Hlast Hlen Hnodes Hreturn.
    pose proof (checkFunctionMatch_final getNodeLocation typeFuel fuel args h ds
                  Hlast Hnodes Hreturn) as Hfinal.
    rewrite Hfinal. by rewrite bool_decide_eq_false_2 by lia. }
  split.
  - intros getNodeLocation typeFuel fuel args [h ds] Hlast Hlen Hnodes Hreturn.
    cbn [heap diagnostics] in *. split.
    + by apply Hrun.
    + by apply conversionErrors_length.
  - intros getNodeLocation typeFuel fuel args [h ds] i j Hlast Hlen Hnodes Hreturn Hij Hexactly.
    cbn [heap diagnostics] in *.
    assert (Hi : comparison typeFuel h args i = Returns false) by (apply Hexactly; [lia|by left]).
    assert (Hj : comparison typeFuel h args j = Returns false) by (apply Hexactly; [lia|by right]).
    destruct (conversionError_mismatch getNodeLocation typeFuel h args i Hnodes ltac:(lia) Hi)
      as (actualI & expectedI & argI & HaI & HeI & HargI & HerrI).
    destruct (conversionError_mismatch getNodeLocation typeFuel h args j Hnodes ltac:(lia) Hj)
      as (actualJ & expectedJ & argJ & HaJ & HeJ & HargJ & HerrJ).
    exists actualI, expectedI, argI, actualJ, expectedJ, argJ. repeat split; try done.
    rewrite Hrun by done.
    destruct (conversionErrors_two getNodeLocation typeFuel h args i j Hnodes Hij Hexactly)
      as (errorI & errorJ & HI & HJ & ->).
    congruence.
Qed.

Lemma final_overload_accumulates_witness :
  (checkFunctionMatch Scenario.getNodeLocation 1 1 Scenario.callStrings Scenario.theWorld
   = Returns (Some (Scenario.plain Scenario.tBool),
              {| heap := pushReferenced Scenario.theHeap Scenario.sGlobal
                           (referenceTo Scenario.callStrings Scenario.f0);
                 diagnostics :=
                   [] ++ conversionErrors Scenario.getNodeLocation 1 Scenario.theHeap
                           Scenario.callStrings 0 2
                   ++ missingArguments Scenario.getNodeLocation Scenario.callStrings
                        (paramList (sourceNode (getFunction Scenario.theHeap Scenario.f0))) |})
   ∧ length (conversionErrors Scenario.getNodeLocation 1 Scenario.theHeap Scenario.callStrings 0 2)
     = length (filter (λ k, mismatches 1 Scenario.theHeap Scenario.callStrings k = true) (seq 0 2)))
  ∧
  ∃ actualI expectedI argI actualJ expectedJ argJ,
    actualTypeAt Scenario.callStrings Scenario.theHeap 0 = Some actualI ∧
    expectedTypeAt Scenario.callStrings Scenario.theHeap 0 = Some expectedI ∧
    caller_argList (callerNode Scenario.callStrings) !! 0 = Some argI ∧
    actualTypeAt Scenario.callStrings Scenario.theHeap 1 = Some actualJ ∧
    expectedTypeAt Scenario.callStrings Scenario.theHeap 1 = Some expectedJ ∧
    caller_argList (callerNode Scenario.callStrings) !! 1 = Some argJ ∧
    checkFunctionMatch Scenario.getNodeLocation 1 1 Scenario.callStrings Scenario.theWorld
    = Returns (Some (Scenario.plain Scenario.tBool),
               {| heap := pushReferenced Scenario.theHeap Scenario.sGlobal
                            (referenceTo Scenario.callStrings Scenario.f0);
                  diagnostics :=
                    [] ++ [ {| diag_location := Scenario.getNodeLocation (expr_nodeRange (assign argI));
                               diag_message := cannotConvertMessage Scenario.theHeap actualI expectedI |};
                            {| diag_location := Scenario.getNodeLocation (expr_nodeRange (assign argJ));
                               diag_message := cannotConvertMessage Scenario.theHeap actualJ expectedJ |} ]
                    ++ missingArguments Scenario.getNodeLocation Scenario.callStrings
                         (paramList (sourceNode (getFunction Scenario.theHeap Scenario.f0))) |}).
Proof.
  assert (Hreturn : comparisonsReturn 1 Scenario.theHeap Scenario.callStrings).
  { intros i Hi. simpl in Hi. destruct i as [|[|i]]; try lia; eexists; vm_compute; reflexivity. }
  split.
  - apply (proj1 final_overload_accumulates Scenario.getNodeLocation 1 0
             Scenario.callStrings Scenario.theWorld).
    + reflexivity.
    + vm_compute. lia.
    + unfold argumentsHaveNodes. simpl. lia.
    + exact Hreturn.
  - apply (proj2 final_overload_accumulates Scenario.getNodeLocation 1 0
             Scenario.callStrings Scenario.theWorld 0 1).
    + reflexivity.
    + vm_compute. lia.
    + unfold argumentsHaveNodes. simpl. lia.
    + exact Hreturn.
    + simpl. lia.
    + intros k Hk. simpl in Hk. destruct k as [|[|k]]; try lia.
      * split; [by left|]. intros _. vm_compute. reflexivity.
      * split; [by right|]. intros _. vm_compute. reflexivity.
Defined.

(** What that call reports, written out. *)
Example two_conversion_errors_reported :
  checkFunctionMatch Scenario.getNodeLocation 1 1 Scenario.callStrings Scenario.theWorld
  = Returns (Some (Scenario.plain Scenario.tBool),
             {| heap := pushReferenced Scenario.theHeap Scenario.sGlobal
                          {| declaredSymbol := FunctionRef Scenario.f0;
                             referencedToken := Scenario.word 500 "f" 30 |};
                diagnostics :=
                  [ {| diag_location := Scenario.atLine 30;
                       diag_message := "Cannot convert 'string' to parameter type 'double' 💢" |};
                    {| diag_location := Scenario.atLine 30;
                       diag_message := "Cannot convert 'string' to parameter type 'bool' 💢" |} ] |}).
Proof. vm_compute. reflexivity. Qed.

(** *** Overloads are tried in the order of their insertion *)

Lemma sourceNode_setNextOverload h cursor symbol a :
  sourceNode (getFunction (setNextOverload h cursor symbol) a) = sourceNode (getFunction h a).
Proof. rewrite getFunction_setNextOverload. by destruct (decide (a = cursor)) as [->|]. Qed.

Lemma returnType_setNextOverload h cursor symbol a :
  returnType (getFunction (setNextOverload h cursor symbol) a) = returnType (getFunction h a).
Proof. rewrite getFunction_setNextOverload. by destruct (decide (a = cursor)) as [->|]. Qed.

(** With too many arguments an overload that has a next one hands the call
    over without a word. *)
Lemma checkFunctionMatch_too_many getNodeLocation typeFuel fuel args next w :
  nextOverload (getFunction (heap w) (calleeFunc args)) = Some next →
  length (paramList (sourceNode (getFunction (heap w) (calleeFunc args)))) < length (callerArgs args) →
  checkFunctionMatch getNodeLocation typeFuel (S fuel) args w
  = checkFunctionMatch getNodeLocation typeFuel fuel (withCallee args next) w.
Proof.
  intros Hnext Hmany. simpl. unfold checkFunctionMatchBody, handleTooMuchCallerArgs.
  rewrite bool_decide_eq_true_2 by done. by rewrite Hnext.
Qed.

Lemma allPass_supplied typeFuel h args params :
  ∀ i, i + length params ≤ length (callerArgs args) →
       (∀ j, j < length (callerArgs args) → comparison typeFuel h args j = Returns true) →
       allPass typeFuel h args i params = true.
Proof.
  induction params as [|param params IH]; intros i Hlen Hpass; simpl in *; [done|].
  rewrite IH by (done || lia). unfold passes.
  rewrite bool_decide_eq_false_2 by lia. by rewrite Hpass by lia.
Qed.

Lemma insertSymbolicObject_free fuel (map : gmap string SymbolicObject) symbol w :
  map !! text (declaredPlace (heap w) symbol) = None →
  insertSymbolicObject fuel map symbol w
  = Returns (true, <[text (declaredPlace (heap w) symbol) := symbol]> map, w).
Proof. intros Hfree. unfold insertSymbolicObject. by rewrite Hfree. Qed.

Lemma bind_Returns {A B} (a : A) (k : A → outcome B) : (Returns a ≫= k) = k a.
Proof. reflexivity. Qed.

Lemma insertEach_cons fuel map symbol symbols w :
  insertEach fuel map (symbol :: symbols) w
  = '(ok, map, w) ← insertSymbolicObject fuel map symbol w;
    '(oks, map, w) ← insertEach fuel map symbols w;
    Returns (ok :: oks, map, w).
Proof. reflexivity. Qed.

Lemma overloads_from h a before f after :
  overloads h a (before ++ f :: after) → overloads h f (f :: after).
Proof.
  revert a. induction before as [|b before IH]; intros a Hchain; simpl in Hchain.
  - by destruct (overloads_nonempty _ _ _ Hchain) as [rest [= -> _]].
  - inversion Hchain as [? ? Heq|? next ? Hnext Hrest]; subst.
    + by destruct before.
    + by apply IH with next.
Qed.

Section HandingOn.
Variable getNodeLocation : ParsedRange → LocationInfo.
Variable typeFuel : nat.

Lemma allPass_comparisons h args params :
  ∀ i, allPass typeFuel h args i params = true →
       ∀ j, i ≤ j → j < i + length params → j < length (callerArgs args) →
            comparison typeFuel h args j = Returns true.
Proof.
  induction params as [|param params IH]; intros i Hall j Hij Hj Hsupplied; simpl in *; [lia|].
  apply andb_true_iff in Hall as [Hpass Hrest].
  destruct (decide (j = i)) as [->|Hne].
  - unfold passes in Hpass. rewrite bool_decide_eq_false_2 in Hpass by lia.
    by destruct (comparison typeFuel h args i) as [[|]| |].
  - apply (IH (S i)); [done|lia..].
Qed.

(** An applicable callee has had every check on a supplied argument
    return. *)
Lemma applicable_comparisonsReturn h args :
  applicable typeFuel h args = true → comparisonsReturn typeFuel h args.
Proof.
  unfold applicable. intros Happlicable.
  apply andb_true_iff in Happlicable as [Hmany Hall].
  apply negb_true_iff, bool_decide_eq_false in Hmany.
  intros i Hi. exists true. apply (allPass_comparisons _ _ _ 0 Hall); lia.
Qed.

(** Overloads that are not applicable hand the call on, each to the next,
    without a word. *)
Lemma checkFunctionMatch_hands_on h args ds before :
  ∀ a f after fuel,
    overloads h a (before ++ f :: after) →
    (∀ b, b ∈ before →
          applicable typeFuel h (withCallee args b) = false ∧
          comparisonsReturn typeFuel h (withCallee args b)) →
    checkFunctionMatch getNodeLocation typeFuel (length before + fuel) (withCallee args a)
      {| heap := h; diagnostics := ds |}
    = checkFunctionMatch getNodeLocation typeFuel fuel (withCallee args f)
        {| heap := h; diagnostics := ds |}.
Proof.
  induction before as [|b before IH]; intros a f after fuel Hchain Hbefore.
  - by destruct (overloads_nonempty _ _ _ Hchain) as [rest [= -> _]].
  - simpl in Hchain. inversion Hchain as [? ? Heq|? next ? Hnext Hrest]; subst.
    { by destruct before. }
    destruct (Hbefore b ltac:(by left)) as [Hnot Hreturn].
    change (length (b :: before) + fuel) with (S (length before + fuel)).
    rewrite (checkFunctionMatch_nonfinal getNodeLocation typeFuel (length before + fuel)
               (withCallee args b) next); try done.
    rewrite Hnot. apply (IH next f after fuel Hrest).
    intros b' Hb'. apply Hbefore. by right.
Qed.
End HandingOn.

(** C1, as the code has it.  Into a map that does not bind [name] yet, three
    fresh function symbols of that name with 1, 2 and 3 parameters are
    inserted in that order; then [name] is bound to the first, which heads
    the chain of the three in that order, and a call with 2 arguments that
    the second accepts is handed from the first to the second and settles
    there, whatever the third would accept.  Into a map that binds [name] to
    a function heading a finite chain that holds none of the three, the three
    insertions succeed as well, the binding stays, and the three are hung
    behind that chain in their order; the older chain is tried first: its
    first applicable overload takes the call, and only when none of it is
    applicable is the call handed to the first of the three. *)
Theorem overload_order_preserved :
  (∀ getNodeLocation typeFuel fuel (map : gmap string SymbolicObject) w name a1 a2 a3 args,
    map !! name = None →
    text (func_declaredPlace (getFunction (heap w) a1)) = name →
    text (func_declaredPlace (getFunction (heap w) a2)) = name →
    text (func_declaredPlace (getFunction (heap w) a3)) = name →
    nextOverload (getFunction (heap w) a1) = None →
    nextOverload (getFunction (heap w) a2) = None →
    nextOverload (getFunction (heap w) a3) = None →
    a1 ≠ a2 → a1 ≠ a3 → a2 ≠ a3 →
    length (paramList (sourceNode (getFunction (heap w) a1))) = 1 →
    length (paramList (sourceNode (getFunction (heap w) a2))) = 2 →
    length (paramList (sourceNode (getFunction (heap w) a3))) = 3 →
    let map' := <[name := FunctionRef a1]> map in
    let w' := {| heap := setNextOverload (setNextOverload (heap w) a1 a2) a2 a3;
                 diagnostics := diagnostics w |} in
    insertEach (2 + fuel) map [FunctionRef a1; FunctionRef a2; FunctionRef a3] w
      = Returns ([true; true; true], map', w')
    ∧ map' !! name = Some (FunctionRef a1)
    ∧ overloads (heap w') a1 [a1; a2; a3]
    ∧ (length (callerArgs args) = 2 →
       (∀ i, i < 2 → comparison typeFuel (heap w') (withCallee args a2) i = Returns true) →
       checkFunctionMatch getNodeLocation typeFuel (2 + fuel) (withCallee args a1) w'
         = checkFunctionMatch getNodeLocation typeFuel (1 + fuel) (withCallee args a2) w'
       ∧ checkFunctionMatch getNodeLocation typeFuel (1 + fuel) (withCallee args a2) w'
         = Returns (returnType (getFunction (heap w) a2),
                    {| heap := pushReferenced (heap w') (scope args) (referenceTo args a2);
                       diagnostics := diagnostics w |})))
  ∧
  (∀ getNodeLocation typeFuel fuel (map : gmap string SymbolicObject) w name a0 chain a1 a2 a3 args,
    map !! name = Some (FunctionRef a0) →
    overloads (heap w) a0 chain →
    text (func_declaredPlace (getFunction (heap w) a1)) = name →
    text (func_declaredPlace (getFunction (heap w) a2)) = name →
    text (func_declaredPlace (getFunction (heap w) a3)) = name →
    nextOverload (getFunction (heap w) a1) = None →
    nextOverload (getFunction (heap w) a2) = None →
    nextOverload (getFunction (heap w) a3) = None →
    a1 ∉ chain → a2 ∉ chain → a3 ∉ chain →
    a1 ≠ a2 → a1 ≠ a3 → a2 ≠ a3 →
    length chain + 2 ≤ fuel →
    ∃ tail,
      last chain = Some tail ∧
      let w' := {| heap := setNextOverload
                             (setNextOverload (setNextOverload (heap w) tail a1) a1 a2) a2 a3;
                   diagnostics := diagnostics w |} in
      insertEach fuel map [FunctionRef a1; FunctionRef a2; FunctionRef a3] w
        = Returns ([true; true; true], map, w')
      ∧ overloads (heap w') a0 (chain ++ [a1; a2; a3])
      ∧ (∀ before f after callFuel,
           chain = before ++ f :: after →
           (∀ b, b ∈ before →
                 applicable typeFuel (heap w') (withCallee args b) = false ∧
                 comparisonsReturn typeFuel (heap w') (withCallee args b)) →
           applicable typeFuel (heap w') (withCallee args f) = true →
           checkFunctionMatch getNodeLocation typeFuel (length before + S callFuel)
             (withCallee args a0) w'
           = Returns (returnType (getFunction (heap w) f),
                      {| heap := pushReferenced (heap w') (scope args) (referenceTo args f);
                         diagnostics := diagnostics w |}))
      ∧ (∀ callFuel,
           (∀ b, b ∈ chain →
                 applicable typeFuel (heap w') (withCallee args b) = false ∧
                 comparisonsReturn typeFuel (heap w') (withCallee args b)) →
           checkFunctionMatch getNodeLocation typeFuel (length chain + callFuel)
             (withCallee args a0) w'
           = checkFunctionMatch getNodeLocation typeFuel callFuel (withCallee args a1) w')).
Proof.
  split.
  { intros getNodeLocation typeFuel fuel map [h ds] name a1 a2 a3 args
      Hfree Hname1 Hname2 Hname3 Hnone1 Hnone2 Hnone3 Hne12 Hne13 Hne23 Hlen1 Hlen2 Hlen3
      map' w'.
    simpl in * |-. cbn [heap diagnostics] in *.
    set (h1 := setNextOverload h a1 a2).
    set (h2 := setNextOverload h1 a2 a3).
    assert (Hchain1 : overloads h a1 [a1]) by by apply overloads_last.
    assert (Hchain2 : overloads h1 a1 [a1; a2]).
    { apply (overloads_append h a1 [a1] a1 a2); try done.
      intros Hin. apply list_elem_of_singleton in Hin. congruence. }
    assert (Hchain3 : overloads h2 a1 [a1; a2; a3]).
    { apply (overloads_append h1 a1 [a1; a2] a2 a3); try done.
      - intros Hin. apply elem_of_cons in Hin as [?|Hin]; [congruence|].
        apply list_elem_of_singleton in Hin. congruence.
      - unfold h1. by rewrite nextOverload_setNextOverload_ne. }
    split; [|split; [|split]].
    - (* the three insertions *)
      rewrite insertEach_cons.
      rewrite insertSymbolicObject_free by (simpl; by rewrite Hname1).
      rewrite bind_Returns. cbv beta iota. simpl declaredPlace. rewrite Hname1. fold map'.
      rewrite insertEach_cons.
      destruct (insertSymbolicObject_overload (2 + fuel) map' a2 a1 [a1]
                  {| heap := h; diagnostics := ds |}) as (tail & Htail & ->); simpl heap; try done.
      { simpl. rewrite Hname2. apply lookup_insert_eq. }
      { simpl. lia. }
      injection Htail as <-. rewrite bind_Returns. cbv beta iota. simpl diagnostics. fold h1.
      rewrite insertEach_cons.
      destruct (insertSymbolicObject_overload (2 + fuel) map' a3 a1 [a1; a2]
                  {| heap := h1; diagnostics := ds |}) as (tail & Htail & ->); simpl heap; try done.
      { simpl. unfold h1. rewrite getFunction_setNextOverload.
        destruct (decide (a3 = a1)); [congruence|]. rewrite Hname3. apply lookup_insert_eq. }
      { simpl. lia. }
      injection Htail as <-. reflexivity.
    - apply lookup_insert_eq.
    - exact Hchain3.
    - intros Hargs Hcompatible. subst w'. cbn [heap diagnostics] in *.
      fold h1 h2 in Hcompatible |- *.
      assert (Hnext1 : nextOverload (getFunction h2 a1) = Some a2).
      { unfold h2, h1. rewrite nextOverload_setNextOverload_ne by done.
        apply nextOverload_setNextOverload_eq. }
      assert (Hnext2 : nextOverload (getFunction h2 a2) = Some a3).
      { apply nextOverload_setNextOverload_eq. }
      assert (Hparams : ∀ a, paramList (sourceNode (getFunction h2 a))
                             = paramList (sourceNode (getFunction h a))).
      { intros a. unfold h2, h1. by rewrite !sourceNode_setNextOverload. }
      split.
      + apply (checkFunctionMatch_too_many getNodeLocation typeFuel (1 + fuel)
                 (withCallee args a1) a2); simpl; [done|]. rewrite Hparams. lia.
      + change (1 + fuel) with (S fuel).
        rewrite (checkFunctionMatch_nonfinal getNodeLocation typeFuel fuel (withCallee args a2) a3);
          simpl; try done.
        * unfold applicable. simpl. rewrite Hparams.
          rewrite bool_decide_eq_false_2 by lia. simpl.
          rewrite allPass_supplied; simpl; try lia.
          -- unfold h2, h1. by rewrite !returnType_setNextOverload.
          -- intros j Hj. apply Hcompatible. lia.
        * intros i Hi. simpl in Hi. exists true. apply Hcompatible. lia. }
  intros getNodeLocation typeFuel fuel map [h ds] name a0 chain a1 a2 a3 args
    Hbound Hchain Hname1 Hname2 Hname3 Hnone1 Hnone2 Hnone3 Hnot1 Hnot2 Hnot3
    Hne12 Hne13 Hne23 Hfuel.
  simpl in * |-. cbn [heap diagnostics] in *.
  destruct (insertSymbolicObject_overload fuel map a1 a0 chain {| heap := h; diagnostics := ds |})
    as (tail & Htail & Hrun1); simpl heap; try done.
  { simpl. by rewrite Hname1. }
  { lia. }
  simpl in Hrun1.
  exists tail. split; [done|].
  set (h1 := setNextOverload h tail a1) in *.
  set (h2 := setNextOverload h1 a1 a2).
  set (h3 := setNextOverload h2 a2 a3).
  assert (Hin : tail ∈ chain).
  { apply last_Some in Htail as [front ->]. apply elem_of_app. right. by left. }
  assert (Hchain1 : overloads h1 a0 (chain ++ [a1])) by by apply overloads_append.
  assert (Hchain2 : overloads h2 a0 ((chain ++ [a1]) ++ [a2])).
  { apply overloads_append; try done.
    - apply last_snoc.
    - intros Ha2. apply elem_of_app in Ha2 as [Ha2|Ha2]; [done|].
      apply list_elem_of_singleton in Ha2. congruence.
    - unfold h1. rewrite nextOverload_setNextOverload_ne; [done|]. by intros ->. }
  assert (Hchain3 : overloads h3 a0 (((chain ++ [a1]) ++ [a2]) ++ [a3])).
  { apply overloads_append; try done.
    - apply last_snoc.
    - intros Ha3. apply elem_of_app in Ha3 as [Ha3|Ha3].
      + apply elem_of_app in Ha3 as [Ha3|Ha3]; [done|].
        apply list_elem_of_singleton in Ha3. congruence.
      + apply list_elem_of_singleton in Ha3. congruence.
    - unfold h2, h1. rewrite !nextOverload_setNextOverload_ne; [done| |done]. by intros ->. }
  rewrite <- !app_assoc in Hchain3. simpl in Hchain3.
  assert (Hreturn : ∀ a, returnType (getFunction h3 a) = returnType (getFunction h a)).
  { intros a. unfold h3, h2, h1. by rewrite !returnType_setNextOverload. }
  split; [|split; [|split]].
  - (* the three insertions *)
    rewrite insertEach_cons, Hrun1, bind_Returns. cbv beta iota.
    rewrite insertEach_cons.
    destruct (insertSymbolicObject_overload fuel map a2 a0 (chain ++ [a1])
                {| heap := h1; diagnostics := ds |}) as (t & Ht & ->); simpl heap; try done.
    { simpl. unfold h1. rewrite getFunction_setNextOverload.
      destruct (decide (a2 = tail)) as [->|]; [done|]. by rewrite Hname2. }
    { rewrite length_app. simpl. lia. }
    rewrite last_snoc in Ht. injection Ht as <-.
    rewrite bind_Returns. cbv beta iota. simpl diagnostics. fold h2.
    rewrite insertEach_cons.
    destruct (insertSymbolicObject_overload fuel map a3 a0 ((chain ++ [a1]) ++ [a2])
                {| heap := h2; diagnostics := ds |}) as (t & Ht & ->); simpl heap; try done.
    { simpl. unfold h2, h1. rewrite !getFunction_setNextOverload.
      destruct (decide (a3 = a1)); [congruence|].
      destruct (decide (a3 = tail)) as [->|]; [done|]. by rewrite Hname3. }
    { rewrite !length_app. simpl. lia. }
    rewrite last_snoc in Ht. injection Ht as <-. reflexivity.
  - exact Hchain3.
  - intros before f after callFuel -> Hbefore Hf. cbn [heap diagnostics] in *.
    fold h2 h3 in Hbefore, Hf |- *.
    rewrite <- app_assoc in Hchain3. simpl in Hchain3.
    rewrite (checkFunctionMatch_hands_on getNodeLocation typeFuel h3 args ds before a0 f
               (after ++ [a1; a2; a3]) (S callFuel) Hchain3 Hbefore).
    apply overloads_from in Hchain3.
    inversion Hchain3 as [? ? Heq|? next ? Hnext Hrest]; subst.
    { by destruct after. }
    rewrite (checkFunctionMatch_nonfinal getNodeLocation typeFuel callFuel (withCallee args f) next);
      try done.
    + rewrite Hf. simpl. by rewrite Hreturn.
    + by apply applicable_comparisonsReturn.
  - intros callFuel Hnone. cbn [heap diagnostics] in *. fold h2 h3 in Hnone |- *.
    by apply (checkFunctionMatch_hands_on getNodeLocation typeFuel h3 args ds chain a0 a1
                [a2; a3] callFuel).
Qed.

Lemma overload_order_preserved_witness :
  (insertEach 2 ∅ [FunctionRef Scenario.f1; FunctionRef Scenario.f2; FunctionRef Scenario.f3]
     Scenario.theWorld
     = Returns ([true; true; true], <["f" := FunctionRef Scenario.f1]> ∅,
                {| heap := Scenario.chainedHeap; diagnostics := [] |})
   ∧ (<["f" := FunctionRef Scenario.f1]> ∅ : gmap string SymbolicObject) !! "f"
     = Some (FunctionRef Scenario.f1)
   ∧ overloads Scenario.chainedHeap Scenario.f1 [Scenario.f1; Scenario.f2; Scenario.f3]
   ∧ checkFunctionMatch Scenario.getNodeLocation 1 2
       (Scenario.call "f" 500 30 Scenario.f1 [Scenario.number; Scenario.boolean])
       {| heap := Scenario.chainedHeap; diagnostics := [] |}
     = checkFunctionMatch Scenario.getNodeLocation 1 1
         (Scenario.call "f" 500 30 Scenario.f2 [Scenario.number; Scenario.boolean])
         {| heap := Scenario.chainedHeap; diagnostics := [] |}
   ∧ checkFunctionMatch Scenario.getNodeLocation 1 1
       (Scenario.call "f" 500 30 Scenario.f2 [Scenario.number; Scenario.boolean])
       {| heap := Scenario.chainedHeap; diagnostics := [] |}
     = Returns (Some (Scenario.plain Scenario.tInt),
                {| heap := pushReferenced Scenario.chainedHeap Scenario.sGlobal
                             {| declaredSymbol := FunctionRef Scenario.f2;
                                referencedToken := Scenario.word 500 "f" 30 |};
                   diagnostics := [] |}))
  ∧
  (insertEach 3 {[ "f" := FunctionRef Scenario.f0 ]}
     [FunctionRef Scenario.f1; FunctionRef Scenario.f2; FunctionRef Scenario.f3] Scenario.theWorld
     = Returns ([true; true; true], {[ "f" := FunctionRef Scenario.f0 ]},
                {| heap := Scenario.crowdedHeap; diagnostics := [] |})
   ∧ overloads Scenario.crowdedHeap Scenario.f0
       [Scenario.f0; Scenario.f1; Scenario.f2; Scenario.f3]
   ∧ checkFunctionMatch Scenario.getNodeLocation 1 1
       (Scenario.call "f" 500 30 Scenario.f0 [Scenario.number; Scenario.boolean])
       {| heap := Scenario.crowdedHeap; diagnostics := [] |}
     = Returns (Some (Scenario.plain Scenario.tBool),
                {| heap := pushReferenced Scenario.crowdedHeap Scenario.sGlobal
                             {| declaredSymbol := FunctionRef Scenario.f0;
                                referencedToken := Scenario.word 500 "f" 30 |};
                   diagnostics := [] |})
   ∧ checkFunctionMatch Scenario.getNodeLocation 1 4
       (Scenario.call "f" 500 30 Scenario.f0 [Scenario.string_; Scenario.string_])
       {| heap := Scenario.crowdedHeap; diagnostics := [] |}
     = checkFunctionMatch Scenario.getNodeLocation 1 3
         (Scenario.call "f" 500 30 Scenario.f1 [Scenario.string_; Scenario.string_])
         {| heap := Scenario.crowdedHeap; diagnostics := [] |}).
Proof.
  split.
  - destruct (proj1 overload_order_preserved Scenario.getNodeLocation 1 0 ∅ Scenario.theWorld "f"
                Scenario.f1 Scenario.f2 Scenario.f3
                (Scenario.call "f" 500 30 Scenario.f1 [Scenario.number; Scenario.boolean]))
      as (Hinserted & Hbound & Hchain & Hcall);
      try reflexivity; try discriminate.
    split; [exact Hinserted|]. split; [exact Hbound|]. split; [exact Hchain|].
    apply Hcall; [reflexivity|].
    intros i Hi. destruct i as [|[|i]]; try lia; vm_compute; reflexivity.
  - assert (Hfresh : ∀ a, a ≠ Scenario.f0 → a ∉ [Scenario.f0]).
    { intros a Hne Hin. by apply list_elem_of_singleton in Hin. }
    destruct (proj2 overload_order_preserved Scenario.getNodeLocation 1 3
                {[ "f" := FunctionRef Scenario.f0 ]} Scenario.theWorld "f" Scenario.f0
                [Scenario.f0] Scenario.f1 Scenario.f2 Scenario.f3
                (Scenario.call "f" 500 30 Scenario.f0 [Scenario.number; Scenario.boolean]))
      as (tail & [= <-] & Hinserted & Hchain & Hfirst & _);
      [first [reflexivity | discriminate | apply Hfresh; discriminate
             | apply overloads_last; reflexivity | simpl; lia] ..|].
    destruct (proj2 overload_order_preserved Scenario.getNodeLocation 1 3
                {[ "f" := FunctionRef Scenario.f0 ]} Scenario.theWorld "f" Scenario.f0
                [Scenario.f0] Scenario.f1 Scenario.f2 Scenario.f3
                (Scenario.call "f" 500 30 Scenario.f0 [Scenario.string_; Scenario.string_]))
      as (tail & [= <-] & _ & _ & _ & Hhand);
      [first [reflexivity | discriminate | apply Hfresh; discriminate
             | apply overloads_last; reflexivity | simpl; lia] ..|].
    split; [exact Hinserted|]. split; [exact Hchain|]. split.
    + apply (Hfirst [] Scenario.f0 [] 0 eq_refl).
      * intros b Hb. by apply elem_of_nil in Hb.
      * vm_compute. reflexivity.
    + apply (Hhand 3).
      intros b Hb. apply list_elem_of_singleton in Hb as ->. split; [vm_compute; reflexivity|].
      intros i Hi. simpl in Hi. destruct i as [|[|i]]; try lia; eexists; vm_compute; reflexivity.
Defined.

(** C1, as the specification states it, fails: the map already binds [f] to
    [f(double, bool)]; the three insertions succeed, but [f] stays bound to
    the earlier function, which heads the chain, and the call [f(int, bool)],
    which the 2-parameter overload of the three accepts, settles on the
    earlier function and gets its return type. *)
Lemma overload_order_counterexample :
  insertEach 3 (<["f" := FunctionRef Scenario.f0]> ∅)
    [FunctionRef Scenario.f1; FunctionRef Scenario.f2; FunctionRef Scenario.f3] Scenario.theWorld
    = Returns ([true; true; true], <["f" := FunctionRef Scenario.f0]> ∅,
               {| heap := Scenario.crowdedHeap; diagnostics := [] |})
  ∧ overloads Scenario.crowdedHeap Scenario.f0 [Scenario.f0; Scenario.f1; Scenario.f2; Scenario.f3]
  ∧ ¬ overloads Scenario.crowdedHeap Scenario.f0 [Scenario.f1; Scenario.f2; Scenario.f3]
  ∧ length (paramList (sourceNode (getFunction Scenario.crowdedHeap Scenario.f2))) = 2
  ∧ comparison 1 Scenario.crowdedHeap
      (Scenario.call "f" 500 30 Scenario.f2 [Scenario.number; Scenario.boolean]) 0 = Returns true
  ∧ comparison 1 Scenario.crowdedHeap
      (Scenario.call "f" 500 30 Scenario.f2 [Scenario.number; Scenario.boolean]) 1 = Returns true
  ∧ checkFunctionMatch Scenario.getNodeLocation 1 4
      (Scenario.call "f" 500 30 Scenario.f0 [Scenario.number; Scenario.boolean])
      {| heap := Scenario.crowdedHeap; diagnostics := [] |}
    = Returns (Some (Scenario.plain Scenario.tBool),
               {| heap := pushReferenced Scenario.crowdedHeap Scenario.sGlobal
                            {| declaredSymbol := FunctionRef Scenario.f0;
                               referencedToken := Scenario.word 500 "f" 30 |};
                  diagnostics := [] |})
  ∧ returnType (getFunction Scenario.crowdedHeap Scenario.f2) = Some (Scenario.plain Scenario.tInt).
Proof.
  split; [vm_compute; reflexivity|].
  split.
  { apply overloads_next with Scenario.f1; [reflexivity|].
    apply overloads_next with Scenario.f2; [reflexivity|].
    apply overloads_next with Scenario.f3; [reflexivity|].
    apply overloads_last. reflexivity. }
  split.
  { intros Hchain. apply overloads_nonempty in Hchain as [rest Hrest]. discriminate. }
  repeat split; vm_compute; reflexivity.
Qed.

(** * Further properties *)

(** ** Insertion keeps what the map has *)

(** X1: whatever [insertSymbolicObject] returns, every binding of the map is
    still there with the same symbol, bindings of other identifiers are as
    before, and a free identifier is bound to the new symbol itself, with
    nothing reported and the heap untouched. *)
Theorem insert_keeps_bindings fuel (map : gmap string SymbolicObject) symbol w ok map' w' :
  insertSymbolicObject fuel map symbol w = Returns (ok, map', w') →
  (∀ name bound, map !! name = Some bound → map' !! name = Some bound)
  ∧ (∀ name, name ≠ text (declaredPlace (heap w) symbol) → map' !! name = map !! name)
  ∧ (map !! text (declaredPlace (heap w) symbol) = None →
     ok = true ∧ map' !! text (declaredPlace (heap w) symbol) = Some symbol ∧ w' = w).
Proof.
  unfold insertSymbolicObject.
  destruct (map !! text (declaredPlace (heap w) symbol)) as [hit|] eqn:Hhit.
  - intros Hrun.
    assert (Hsame : map' = map).
    { destruct symbol as [a|a|a], hit as [b|b|b]; simpl in Hrun;
        try (by injection Hrun as <- <- <-).
      destruct (appendOverload fuel (heap w) b a); simpl in Hrun; [|done..].
      by injection Hrun as <- <- <-. }
    rewrite Hsame. repeat split; try done.
  - intros [= <- <- <-]. repeat split; try done.
    + intros name bound Hbound. rewrite lookup_insert_ne; [done|]. congruence.
    + intros name Hne. by rewrite lookup_insert_ne.
    + apply lookup_insert_eq.
Qed.

Lemma insert_keeps_bindings_witness :
  (<["f" := FunctionRef Scenario.f1]> {[ "v" := VariableRef Scenario.v ]} : gmap string SymbolicObject)
    !! "v" = Some (VariableRef Scenario.v)
  ∧ (<["f" := FunctionRef Scenario.f1]> {[ "v" := VariableRef Scenario.v ]} : gmap string SymbolicObject)
      !! "f" = Some (FunctionRef Scenario.f1).
Proof.
  destruct (insert_keeps_bindings 0 {[ "v" := VariableRef Scenario.v ]} (FunctionRef Scenario.f1)
              Scenario.theWorld true
              (<["f" := FunctionRef Scenario.f1]> {[ "v" := VariableRef Scenario.v ]})
              Scenario.theWorld) as (Hkept & _ & Hnew).
  { vm_compute. reflexivity. }
  split.
  - apply Hkept. vm_compute. reflexivity.
  - apply Hnew. vm_compute. reflexivity.
Defined.

(** X2: [insertSymbolicObject] returns false exactly when the identifier is
    bound and the new symbol and the bound one are not both functions; it
    then reports one diagnostic, and none when it returns true. *)
Theorem insert_fails_exactly_on_clash fuel (map : gmap string SymbolicObject) symbol w ok map' w' :
  insertSymbolicObject fuel map symbol w = Returns (ok, map', w') →
  (ok = false ↔
   ∃ hit, map !! text (declaredPlace (heap w) symbol) = Some hit ∧
          ¬ (symbolKind symbol = Function ∧ symbolKind hit = Function))
  ∧ diagnostics w' =
      diagnostics w ++
      if ok then []
      else [ {| diag_location := location (declaredPlace (heap w) symbol);
                diag_message := duplicateMessage (text (declaredPlace (heap w) symbol)) |} ].
Proof.
  unfold insertSymbolicObject.
  destruct (map !! text (declaredPlace (heap w) symbol)) as [hit|] eqn:Hhit.
  - destruct symbol as [a|a|a], hit as [b|b|b]; simpl in *;
      try (intros [= <- <- <-]; simpl; split; [|done];
           split; [intros _; eexists; split; [done|]; intros [? ?]; done|done]).
    destruct (appendOverload fuel (heap w) b a); simpl; [|done..].
    intros [= <- <- <-]. simpl. rewrite app_nil_r. split; [|done].
    split; [done|]. intros (hit & [= <-] & Hnot). by destruct Hnot.
  - intros [= <- <- <-]. rewrite app_nil_r. split; [|done].
    split; [done|]. by intros (hit & Hsome & _).
Qed.

Lemma insert_fails_exactly_on_clash_witness :
  (false = false ↔
   ∃ hit, ({[ "f" := VariableRef Scenario.v ]} : gmap string SymbolicObject)
            !! text (declaredPlace (heap Scenario.theWorld) (FunctionRef Scenario.f1)) = Some hit ∧
          ¬ (symbolKind (FunctionRef Scenario.f1) = Function ∧ symbolKind hit = Function))
  ∧ diagnostics (addError (Scenario.atLine 10) "Symbol 'f' is already defined 💢" Scenario.theWorld)
    = diagnostics Scenario.theWorld ++
      [ {| diag_location := location (declaredPlace (heap Scenario.theWorld) (FunctionRef Scenario.f1));
           diag_message :=
             duplicateMessage (text (declaredPlace (heap Scenario.theWorld) (FunctionRef Scenario.f1))) |} ].
Proof.
  apply (insert_fails_exactly_on_clash 0 {[ "f" := VariableRef Scenario.v ]}
           (FunctionRef Scenario.f1) Scenario.theWorld false {[ "f" := VariableRef Scenario.v ]}).
  vm_compute. reflexivity.
Defined.

(** ** Chains stay well formed *)

Lemma overloads_setNextOverload_other h cursor chain tail symbol :
  overloads h cursor chain → tail ∉ chain →
  overloads (setNextOverload h tail symbol) cursor chain.
Proof.
  induction 1 as [a Ha|a b chain Ha Hb IH]; intros Hnot.
  - apply overloads_last. rewrite nextOverload_setNextOverload_ne; [done|].
    intros ->. apply Hnot. by left.
  - apply overloads_next with b.
    + rewrite nextOverload_setNextOverload_ne; [done|]. intros ->. apply Hnot. by left.
    + apply IH. intros Hin. apply Hnot. by right.
Qed.

Lemma last_elem_of {A} (l : list A) x : last l = Some x → x ∈ l.
Proof. intros Hlast. apply last_Some in Hlast as [l' ->]. apply elem_of_app. right. by left. Qed.

(** X3: on a map all of whose function chains are finite and declared under
    the name they are bound to, inserting a symbol - a function symbol must
    be fresh: no next overload yet, on none of the map's chains - returns
    once the fuel covers the chain it walks, and leaves a map of the same
    kind. *)
Theorem insert_keeps_chains (map : gmap string SymbolicObject) symbol w :
  wellChained (heap w) map →
  (∀ s, symbol = FunctionRef s →
        nextOverload (getFunction (heap w) s) = None ∧ unchained (heap w) map s) →
  ∃ n, ∀ fuel, n ≤ fuel →
    ∃ ok map' w',
      insertSymbolicObject fuel map symbol w = Returns (ok, map', w') ∧
      wellChained (heap w') map'.
Proof.
  intros Hwell Hfresh.
  destruct (map !! text (declaredPlace (heap w) symbol)) as [hit|] eqn:Hhit.
  - destruct (decide (symbolKind symbol = Function ∧ symbolKind hit = Function))
      as [[Hs Hh]|Hclash].
    + destruct symbol as [?|s|?], hit as [?|cursor|?]; try done.
      destruct (Hfresh s eq_refl) as [Hnone Hunchained].
      destruct (Hwell _ _ Hhit) as (chain & Hchain & Hnames).
      exists (length chain). intros fuel Hfuel.
      destruct (insertSymbolicObject_overload fuel map s cursor chain w Hhit Hchain Hfuel)
        as (tail & Htail & Hrun).
      eexists _, _, _. split; [exact Hrun|]. simpl.
      intros name cursor' Hbound.
      destruct (decide (name = text (declaredPlace (heap w) (FunctionRef s)))) as [->|Hname].
      * rewrite Hhit in Hbound. injection Hbound as <-.
        exists (chain ++ [s]). split.
        -- apply overloads_append; try done. by apply (Hunchained _ _ _ Hhit).
        -- intros a Ha.
           pose proof (declaredPlace_setNextOverload (heap w) tail s (FunctionRef a)) as Hplace.
           simpl in Hplace. rewrite Hplace.
           apply elem_of_app in Ha as [Ha|Ha]; [by apply Hnames|].
           apply list_elem_of_singleton in Ha as ->. reflexivity.
      * destruct (Hwell _ _ Hbound) as (chain' & Hchain' & Hnames').
        exists chain'. split.
        -- apply overloads_setNextOverload_other; [done|].
           intros Hin. apply Hname.
           rewrite <- (Hnames' _ Hin). apply Hnames. by apply last_elem_of.
        -- intros a Ha.
           pose proof (declaredPlace_setNextOverload (heap w) tail s (FunctionRef a)) as Hplace.
           simpl in Hplace. rewrite Hplace. by apply Hnames'.
    + exists 0. intros fuel _. unfold insertSymbolicObject. rewrite Hhit.
      destruct symbol as [?|s|?], hit as [?|cursor|?]; simpl in *;
        try (exfalso; apply Hclash; done); eexists _, _, _; (split; [reflexivity|done]).
  - exists 0. intros fuel _. rewrite insertSymbolicObject_free by done.
    eexists _, _, _. split; [reflexivity|].
    intros name cursor Hbound.
    destruct (decide (name = text (declaredPlace (heap w) symbol))) as [->|Hname].
    + rewrite lookup_insert_eq in Hbound. injection Hbound as ->.
      destruct (Hfresh cursor eq_refl) as [Hnone _].
      exists [cursor]. split; [by apply overloads_last|].
      intros a Ha. apply list_elem_of_singleton in Ha as ->. reflexivity.
    + rewrite lookup_insert_ne in Hbound by done. by apply Hwell.
Qed.

Lemma insert_keeps_chains_witness :
  ∃ n, ∀ fuel, n ≤ fuel →
    ∃ ok map' w',
      insertSymbolicObject fuel {[ "f" := FunctionRef Scenario.f1 ]} (FunctionRef Scenario.f2)
        Scenario.theWorld = Returns (ok, map', w') ∧
      wellChained (heap w') map'.
Proof.
  assert (Hchain : overloads Scenario.theHeap Scenario.f1 [Scenario.f1])
    by (apply overloads_last; reflexivity).
  apply (insert_keeps_chains {[ "f" := FunctionRef Scenario.f1 ]} (FunctionRef Scenario.f2)
           Scenario.theWorld).
  - intros name cursor Hbound.
    apply lookup_singleton_Some in Hbound as [<- [= <-]].
    exists [Scenario.f1]. split; [exact Hchain|].
    intros a Ha. apply list_elem_of_singleton in Ha as ->. reflexivity.
  - intros s [= <-]. split; [reflexivity|].
    intros name cursor chain Hbound Hcursor.
    apply lookup_singleton_Some in Hbound as [<- [= <-]].
    rewrite (overloads_functional _ _ _ _ Hcursor Hchain).
    intros Hin. apply list_elem_of_singleton in Hin. discriminate.
Defined.

(** ** Inserting the same function twice *)

(** On a set of functions each of which has a next overload in the set, the
    loop of [insertSymbolicObject] finds no tail. *)
Lemma appendOverload_no_tail h (members : list addr) symbol :
  (∀ a, a ∈ members → ∃ b, nextOverload (getFunction h a) = Some b ∧ b ∈ members) →
  ∀ fuel cursor, cursor ∈ members → appendOverload fuel h cursor symbol = OutOfFuel.
Proof.
  intros Hclosed. induction fuel as [|fuel IH]; intros cursor Hin; simpl; [done|].
  destruct (Hclosed cursor Hin) as (b & -> & Hb). by apply IH.
Qed.

(** Every member of a chain is its tail or has its next overload on the
    chain. *)
Lemma overloads_member h cursor chain a :
  overloads h cursor chain → a ∈ chain →
  last chain = Some a ∨ ∃ b, nextOverload (getFunction h a) = Some b ∧ b ∈ chain.
Proof.
  induction 1 as [c Hc|c d chain Hc Hd IH]; intros Hin.
  - apply list_elem_of_singleton in Hin as ->. by left.
  - destruct (overloads_nonempty _ _ _ Hd) as [rest ->].
    rewrite last_cons_cons.
    apply elem_of_cons in Hin as [->|Hin].
    + right. exists d. split; [done|]. right. by left.
    + destruct (IH Hin) as [Hlast|(b & Hb & Hbin)]; [by left|].
      right. exists b. split; [done|]. by right.
Qed.

(** Every member of a chain still reaches the tail after the tail was given
    a next overload. *)
Lemma reaches_tail h cursor chain tail symbol :
  overloads h cursor chain → last chain = Some tail →
  ∀ a, a ∈ chain → reaches (setNextOverload h tail symbol) a tail.
Proof.
  induction 1 as [c Hc|c d chain Hc Hd IH]; intros Hlast a Hin.
  - injection Hlast as <-. apply list_elem_of_singleton in Hin as ->. constructor.
  - destruct (overloads_nonempty _ _ _ Hd) as [rest ->].
    rewrite last_cons_cons in Hlast.
    assert (Hd' : reaches (setNextOverload h tail symbol) d tail).
    { apply IH; [done|]. by left. }
    apply elem_of_cons in Hin as [->|Hin]; [|by apply IH].
    apply reaches_later with d; [|done].
    rewrite nextOverload_setNextOverload_ne; [done|].
    intros ->. pose proof (overloads_last_ends _ _ _ _ Hd Hlast). congruence.
Qed.

(** X4: inserting a function symbol that is already on the chain bound to
    its name - for one, inserting it a second time - succeeds and hangs the
    symbol behind the tail of that chain, which closes the chain into a
    cycle: from the symbol the tail is reached, and the tail's next overload
    is the symbol (on a chain of one the symbol becomes its own next
    overload).  From then on the loop of [insertSymbolicObject] on that name
    does not end, whatever function of that name is inserted and whatever
    the fuel. *)
Theorem second_insertion_ties_a_knot fuel (map : gmap string SymbolicObject) s cursor chain w :
  map !! text (declaredPlace (heap w) (FunctionRef s)) = Some (FunctionRef cursor) →
  overloads (heap w) cursor chain → s ∈ chain → length chain ≤ fuel →
  ∃ tail,
    last chain = Some tail ∧
    let w' := {| heap := setNextOverload (heap w) tail s; diagnostics := diagnostics w |} in
    insertSymbolicObject fuel map (FunctionRef s) w = Returns (true, map, w')
    ∧ reaches (heap w') s tail
    ∧ nextOverload (getFunction (heap w') tail) = Some s
    ∧ ∀ fuel' symbol,
        text (declaredPlace (heap w) (FunctionRef symbol))
          = text (declaredPlace (heap w) (FunctionRef s)) →
        insertSymbolicObject fuel' map (FunctionRef symbol) w' = OutOfFuel.
Proof.
  intros Hbound Hchain Hin Hfuel.
  destruct (insertSymbolicObject_overload fuel map s cursor chain w Hbound Hchain Hfuel)
    as (tail & Htail & Hrun).
  exists tail. split; [done|]. split; [exact Hrun|]. cbn [heap].
  split; [by apply (reaches_tail _ cursor chain)|].
  split; [apply nextOverload_setNextOverload_eq|].
  intros fuel' symbol Hname. unfold insertSymbolicObject. cbn [heap].
  rewrite declaredPlace_setNextOverload, Hname, Hbound.
  rewrite (appendOverload_no_tail _ chain); [done| |].
  - intros a Ha. destruct (decide (a = tail)) as [->|Hne].
    + exists s. split; [apply nextOverload_setNextOverload_eq|done].
    + rewrite nextOverload_setNextOverload_ne by done.
      destruct (overloads_member _ _ _ _ Hchain Ha) as [Hlast|Hnext]; [congruence|done].
  - by destruct (overloads_nonempty _ _ _ Hchain) as [rest ->]; left.
Qed.

Lemma second_insertion_ties_a_knot_witness :
  (insertSymbolicObject 1 {[ "f" := FunctionRef Scenario.f1 ]} (FunctionRef Scenario.f1)
     Scenario.theWorld
     = Returns (true, {[ "f" := FunctionRef Scenario.f1 ]},
                {| heap := setNextOverload Scenario.theHeap Scenario.f1 Scenario.f1;
                   diagnostics := [] |})
   ∧ nextOverload (getFunction (setNextOverload Scenario.theHeap Scenario.f1 Scenario.f1) Scenario.f1)
     = Some Scenario.f1
   ∧ insertSymbolicObject 1000 {[ "f" := FunctionRef Scenario.f1 ]} (FunctionRef Scenario.f2)
       {| heap := setNextOverload Scenario.theHeap Scenario.f1 Scenario.f1; diagnostics := [] |}
     = OutOfFuel)
  ∧
  (insertSymbolicObject 3 {[ "f" := FunctionRef Scenario.f1 ]} (FunctionRef Scenario.f1)
     {| heap := Scenario.chainedHeap; diagnostics := [] |}
     = Returns (true, {[ "f" := FunctionRef Scenario.f1 ]},
                {| heap := setNextOverload Scenario.chainedHeap Scenario.f3 Scenario.f1;
                   diagnostics := [] |})
   ∧ reaches (setNextOverload Scenario.chainedHeap Scenario.f3 Scenario.f1) Scenario.f1 Scenario.f3
   ∧ nextOverload (getFunction (setNextOverload Scenario.chainedHeap Scenario.f3 Scenario.f1)
                     Scenario.f3)
     = Some Scenario.f1
   ∧ insertSymbolicObject 1000 {[ "f" := FunctionRef Scenario.f1 ]} (FunctionRef Scenario.f2)
       {| heap := setNextOverload Scenario.chainedHeap Scenario.f3 Scenario.f1; diagnostics := [] |}
     = OutOfFuel).
Proof.
  split.
  - destruct (second_insertion_ties_a_knot 1 {[ "f" := FunctionRef Scenario.f1 ]} Scenario.f1
                Scenario.f1 [Scenario.f1] Scenario.theWorld)
      as (tail & [= <-] & Hrun & _ & Hknot & Hhang).
    + vm_compute. reflexivity.
    + apply overloads_last. reflexivity.
    + by left.
    + simpl. lia.
    + split; [exact Hrun|]. split; [exact Hknot|]. apply Hhang. reflexivity.
  - destruct (second_insertion_ties_a_knot 3 {[ "f" := FunctionRef Scenario.f1 ]} Scenario.f1
                Scenario.f1 [Scenario.f1; Scenario.f2; Scenario.f3]
                {| heap := Scenario.chainedHeap; diagnostics := [] |})
      as (tail & [= <-] & Hrun & Hreach & Hknot & Hhang).
    + vm_compute. reflexivity.
    + apply overloads_next with Scenario.f2; [reflexivity|].
      apply overloads_next with Scenario.f3; [reflexivity|].
      apply overloads_last. reflexivity.
    + by left.
    + simpl. lia.
    + split; [exact Hrun|]. split; [exact Hreach|]. split; [exact Hknot|].
      apply Hhang. reflexivity.
Defined.

(** ** Lexical lookup *)

(** X5: along a finite chain of enclosing scopes, [findSymbolWithParent]
    returns the binding of the innermost scope that binds the identifier,
    together with that scope, and nothing when no scope of the chain binds
    it. *)
Theorem lookup_finds_innermost h scope chain identifier fuel :
  enclosing h scope chain → length chain ≤ fuel →
  ∃ found,
    findSymbolWithParent fuel h scope identifier = Returns found ∧
    match found with
    | Some (symbol, owner) =>
        ∃ inner outer,
          chain = inner ++ owner :: outer ∧
          findSymbolShallowly (getScope h owner) identifier = Some symbol ∧
          ∀ s, s ∈ inner → findSymbolShallowly (getScope h s) identifier = None
    | None => ∀ s, s ∈ chain → findSymbolShallowly (getScope h s) identifier = None
    end.
Proof.
  intros Hchain. revert fuel.
  induction Hchain as [scope Hroot|scope parent chain Hparent Hrest IH];
    intros [|fuel] Hfuel; simpl in Hfuel; try lia; simpl.
  - destruct (symbolMap (getScope h scope) !! identifier) as [symbol|] eqn:Hhere.
    + exists (Some (symbol, scope)). split; [done|].
      exists [], []. repeat split; try done. intros s Hs. by apply elem_of_nil in Hs.
    + rewrite Hroot. exists None. split; [done|].
      intros s Hs. by apply list_elem_of_singleton in Hs as ->.
  - destruct (symbolMap (getScope h scope) !! identifier) as [symbol|] eqn:Hhere.
    + exists (Some (symbol, scope)). split; [done|].
      exists [], chain. repeat split; try done. intros s Hs. by apply elem_of_nil in Hs.
    + rewrite Hparent. destruct (IH fuel) as (found & Hrun & Hfound); [lia|].
      exists found. split; [done|].
      destruct found as [[symbol owner]|].
      * destruct Hfound as (inner & outer & -> & Hbinds & Hinner).
        exists (scope :: inner), outer. repeat split; try done.
        intros s Hs. apply elem_of_cons in Hs as [->|Hs]; [done|by apply Hinner].
      * intros s Hs. apply elem_of_cons in Hs as [->|Hs]; [done|by apply Hfound].
Qed.

Lemma lookup_finds_innermost_witness :
  ∃ found,
    findSymbolWithParent 2 Scenario.theHeap Scenario.sP "A" = Returns found ∧
    match found with
    | Some (symbol, owner) =>
        ∃ inner outer,
          [Scenario.sP; Scenario.sGlobal] = inner ++ owner :: outer ∧
          findSymbolShallowly (getScope Scenario.theHeap owner) "A" = Some symbol ∧
          ∀ s, s ∈ inner → findSymbolShallowly (getScope Scenario.theHeap s) "A" = None
    | None =>
        ∀ s, s ∈ [Scenario.sP; Scenario.sGlobal] →
             findSymbolShallowly (getScope Scenario.theHeap s) "A" = None
    end.
Proof.
  apply (lookup_finds_innermost Scenario.theHeap Scenario.sP [Scenario.sP; Scenario.sGlobal] "A" 2).
  - apply enclosing_parent with Scenario.sGlobal; [reflexivity|].
    apply enclosing_root. reflexivity.
  - simpl. lia.
Defined.

(** The class scope of [P] binds [P] to its constructor; from there [A] is
    found in the global scope and [P] in the class scope itself. *)
Example lookup_from_class_scope :
  findSymbolWithParent 2 Scenario.theHeap Scenario.sP "A"
    = Returns (Some (TypeRef Scenario.tA, Scenario.sGlobal))
  ∧ findSymbolWithParent 2 Scenario.theHeap Scenario.sP "P"
    = Returns (Some (FunctionRef Scenario.ctorP, Scenario.sP))
  ∧ findSymbolWithParent 2 Scenario.theHeap Scenario.sP "nowhere" = Returns None.
Proof. vm_compute. repeat split; reflexivity. Qed.

(** ** The builtin type registry *)

Section BuiltinProperties.
Variable numberTypeSet : list string.
Variable createVirtualToken : TokenKind → string → ParsingToken.

Lemma foldl_insert_lookup (make : string → SymbolicType) names :
  ∀ (start : gmap string SymbolicType) name,
    foldl (λ (map : gmap string SymbolicType) n, <[n := make n]> map) start names !! name
    = if decide (name ∈ names) then Some (make name) else start !! name.
Proof.
  induction names as [|n names IH]; intros start name; simpl.
  - destruct (decide (name ∈ [])) as [Hin|]; [by apply elem_of_nil in Hin|done].
  - rewrite IH. destruct (decide (name ∈ names)) as [Hin|Hnot].
    + rewrite decide_True; [done|]. by right.
    + destruct (decide (name = n)) as [->|Hne].
      * rewrite lookup_insert_eq. rewrite decide_True; [done|]. by left.
      * rewrite lookup_insert_ne by done. rewrite decide_False; [done|].
        intros Hin. apply elem_of_cons in Hin as [?|?]; done.
Qed.

Lemma builtinNumberTypeMap_lookup name :
  builtinNumberTypeMap numberTypeSet createVirtualToken !! name
  = if decide (name ∈ numberTypeSet)
    then Some (createBuiltinType (createVirtualToken Reserved name) Number)
    else None.
Proof.
  unfold builtinNumberTypeMap.
  rewrite (foldl_insert_lookup (λ n, createBuiltinType (createVirtualToken Reserved n) Number)).
  by rewrite lookup_empty.
Qed.

(** X6: the number registry binds exactly the names of [numberTypeSet],
    each to a type tagged [Number] whose declaring token is the reserved
    virtual token made for that name; [builtinIntType] is there exactly when
    [int] is in the set. *)
Theorem number_registry_lookup name :
  builtinNumberTypeMap numberTypeSet createVirtualToken !! name
  = (if decide (name ∈ numberTypeSet)
     then Some (createBuiltinType (createVirtualToken Reserved name) Number)
     else None)
  ∧ (is_Some (builtinIntType numberTypeSet createVirtualToken) ↔ "int" ∈ numberTypeSet).
Proof.
  split; [apply builtinNumberTypeMap_lookup|].
  unfold builtinIntType. rewrite builtinNumberTypeMap_lookup.
  destruct (decide ("int" ∈ numberTypeSet)) as [Hin|Hnot].
  - split; [done|]. intros _. by eexists.
  - split; [|done]. by intros [? ?].
Qed.

(** The reserved words that [tryGetBuiltInType] answers before it looks at
    the number flag. *)
Lemma tryGetBuiltInType_numeric token :
  kind token = Reserved →
  text token ∉ ["bool"; "void"; "?"; "auto"] →
  tryGetBuiltInType numberTypeSet createVirtualToken token
  = if isNumber token then
      if decide (text token ∈ numberTypeSet)
      then Returns (Some (createBuiltinType (createVirtualToken Reserved (text token)) Number))
      else Throws
    else Returns None.
Proof.
  intros Hkind Hnot. unfold tryGetBuiltInType.
  rewrite !(bool_decide_eq_true_2 _ Hkind). simpl.
  rewrite !bool_decide_eq_false_2.
  - destruct (isNumber token); [|done].
    unfold assignBuiltinNumberType. rewrite builtinNumberTypeMap_lookup.
    by destruct (decide _).
  - intros Heq. apply Hnot. rewrite Heq. do 3 right. by left.
  - intros Heq. apply Hnot. rewrite Heq. do 2 right. by left.
  - intros Heq. apply Hnot. rewrite Heq. right. by left.
  - intros Heq. apply Hnot. rewrite Heq. by left.
Qed.

Lemma tryGetBuiltInType_named token :
  kind token = Reserved →
  text token ∈ ["bool"; "void"; "?"; "auto"] →
  ∃ type p, tryGetBuiltInType numberTypeSet createVirtualToken token = Returns (Some type) ∧
            sourceType type = Primitive p ∧ p ∈ [Bool; Void; Any; Auto].
Proof.
  intros Hkind Hin. unfold tryGetBuiltInType.
  rewrite (bool_decide_eq_true_2 _ Hkind). simpl.
  repeat (apply elem_of_cons in Hin as [->|Hin]); simpl.
  - eexists _, Bool. repeat split. by left.
  - eexists _, Void. repeat split. right. by left.
  - eexists _, Any. repeat split. do 2 right. by left.
  - eexists _, Auto. repeat split. do 3 right. by left.
  - by apply elem_of_nil in Hin.
Qed.

(** X7: [tryGetBuiltInType] throws exactly on a reserved token that is
    flagged as a number, is none of [bool], [void], [?] and [auto], and whose
    text is not in [numberTypeSet]. *)
Theorem builtin_lookup_throws_exactly token :
  tryGetBuiltInType numberTypeSet createVirtualToken token = Throws
  ↔ (kind token = Reserved ∧ (text token ∉ ["bool"; "void"; "?"; "auto"]) ∧
     isNumber token = true ∧ (text token ∉ numberTypeSet)).
Proof.
  destruct (decide (kind token = Reserved)) as [Hkind|Hkind].
  - destruct (decide (text token ∈ ["bool"; "void"; "?"; "auto"])) as [Hnamed|Hnamed].
    + destruct (tryGetBuiltInType_named token Hkind Hnamed) as (type & p & -> & _).
      split; [done|]. by intros (_ & Hnot & _).
    + rewrite (tryGetBuiltInType_numeric token Hkind Hnamed).
      destruct (isNumber token); [|split; [done|by intros (_ & _ & ? & _)]].
      destruct (decide (text token ∈ numberTypeSet)); [|done].
      split; [done|]. by intros (_ & _ & _ & ?).
  - unfold tryGetBuiltInType. rewrite (bool_decide_eq_false_2 _ Hkind). simpl.
    split; [done|]. by intros (? & _).
Qed.

(** X8: whatever type [tryGetBuiltInType] returns, the token is a reserved
    word and the type is tagged [Bool], [Void], [Any], [Auto] or [Number] -
    never [String] or [Template]; for a number word it is the registry's type
    for that word. *)
Theorem builtin_lookup_results token type :
  tryGetBuiltInType numberTypeSet createVirtualToken token = Returns (Some type) →
  kind token = Reserved
  ∧ (∃ p, sourceType type = Primitive p ∧ p ∈ [Bool; Void; Any; Auto; Number])
  ∧ (text token ∉ ["bool"; "void"; "?"; "auto"] →
     isNumber token = true ∧
     builtinNumberTypeMap numberTypeSet createVirtualToken !! text token = Some type).
Proof.
  intros Hrun.
  destruct (decide (kind token = Reserved)) as [Hkind|Hkind]; cycle 1.
  { unfold tryGetBuiltInType in Hrun. by rewrite (bool_decide_eq_false_2 _ Hkind) in Hrun. }
  split; [done|].
  destruct (decide (text token ∈ ["bool"; "void"; "?"; "auto"])) as [Hnamed|Hnamed].
  - destruct (tryGetBuiltInType_named token Hkind Hnamed) as (type' & p & Hrun' & Htag & Hp).
    rewrite Hrun' in Hrun. injection Hrun as <-. split; [|done].
    exists p. split; [done|].
    repeat (apply elem_of_cons in Hp as [->|Hp]);
      [by left|right; by left|do 2 right; by left|do 3 right; by left|by apply elem_of_nil in Hp].
  - rewrite (tryGetBuiltInType_numeric token Hkind Hnamed) in Hrun.
    destruct (isNumber token); [|done].
    destruct (decide (text token ∈ numberTypeSet)) as [Hin|]; [|done].
    injection Hrun as <-. split.
    + exists Number. split; [done|]. do 4 right. by left.
    + intros _. split; [done|]. rewrite builtinNumberTypeMap_lookup.
      by rewrite decide_True.
Qed.
End BuiltinProperties.

Lemma builtin_lookup_results_witness :
  kind (Scenario.createVirtualToken Reserved "float") = Reserved
  ∧ (∃ p, sourceType (createBuiltinType (Scenario.createVirtualToken Reserved "float") Number)
          = Primitive p ∧ p ∈ [Bool; Void; Any; Auto; Number])
  ∧ (text (Scenario.createVirtualToken Reserved "float") ∉ ["bool"; "void"; "?"; "auto"] →
     isNumber (Scenario.createVirtualToken Reserved "float") = true ∧
     builtinNumberTypeMap Scenario.numberTypeSet Scenario.createVirtualToken
       !! text (Scenario.createVirtualToken Reserved "float")
     = Some (createBuiltinType (Scenario.createVirtualToken Reserved "float") Number)).
Proof.
  apply (builtin_lookup_results Scenario.numberTypeSet Scenario.createVirtualToken
           (Scenario.createVirtualToken Reserved "float")).
  vm_compute. reflexivity.
Defined.

(** A reserved word flagged as a number that the registry lacks. *)
Example builtin_lookup_unknown_number :
  tryGetBuiltInType Scenario.numberTypeSet Scenario.createVirtualToken
    {| token_addr := 700; kind := Reserved; text := "int64"; location := virtualLocation;
       isNumber := true |} = Throws
  ∧ tryGetBuiltInType Scenario.numberTypeSet Scenario.createVirtualToken
      {| token_addr := 701; kind := Identifier; text := "bool"; location := virtualLocation;
         isNumber := false |} = Returns None
  ∧ tryGetBuiltInType Scenario.numberTypeSet Scenario.createVirtualToken
      {| token_addr := 702; kind := Reserved; text := "string"; location := virtualLocation;
         isNumber := false |} = Returns None.
Proof. vm_compute. repeat split; reflexivity. Qed.

(** ** More of the compatibility engine *)

(** X9: a function handler is never compatible with a type destination, not
    even [Any] or [Auto], and a value of a type is never compatible with a
    function destination. *)
Theorem handlers_and_values_never_mix fuel h src dest resolvedSrc resolvedDest :
  selfResolve h src = Some resolvedSrc → selfResolve h dest = Some resolvedDest →
  (∀ s d, symbolType resolvedSrc = OfFunction s → symbolType resolvedDest = OfType d →
          isTypeMatch (S fuel) h (Some src) (Some dest) = Returns false)
  ∧ (∀ s d, symbolType resolvedSrc = OfType s → symbolType resolvedDest = OfFunction d →
            isTypeMatch (S fuel) h (Some src) (Some dest) = Returns false).
Proof.
  intros Hsrc Hdest. split; intros s d Hs Hd.
  - simpl. unfold isTypeMatchBody. rewrite Hsrc, Hdest.
    unfold isTypeMatchInternal. rewrite Hs, Hd. reflexivity.
  - by eapply isTypeMatch_to_function.
Qed.

Lemma handlers_and_values_never_mix_witness :
  isTypeMatch 1 Scenario.theHeap (Some (Scenario.handler Scenario.f1))
    (Some (Scenario.plain Scenario.tAny)) = Returns false
  ∧ isTypeMatch 1 Scenario.theHeap (Some (Scenario.plain Scenario.tInt))
      (Some (Scenario.handler Scenario.f1)) = Returns false.
Proof.
  split.
  - apply (proj1 (handlers_and_values_never_mix 0 Scenario.theHeap
                    (Scenario.handler Scenario.f1) (Scenario.plain Scenario.tAny)
                    (Scenario.handler Scenario.f1) (Scenario.plain Scenario.tAny)
                    eq_refl eq_refl) Scenario.f1 Scenario.tAny); reflexivity.
  - apply (proj2 (handlers_and_values_never_mix 0 Scenario.theHeap
                    (Scenario.plain Scenario.tInt) (Scenario.handler Scenario.f1)
                    (Scenario.plain Scenario.tInt) (Scenario.handler Scenario.f1)
                    eq_refl eq_refl) Scenario.tInt Scenario.f1); reflexivity.
Defined.

(** X10: between type symbols, a destination tagged [Any] or [Auto] accepts
    every source, and a source tagged [Any] or [Auto] is accepted by every
    destination. *)
Theorem any_and_auto_accept fuel h src dest resolvedSrc resolvedDest s d :
  selfResolve h src = Some resolvedSrc → selfResolve h dest = Some resolvedDest →
  symbolType resolvedSrc = OfType s → symbolType resolvedDest = OfType d →
  (sourceType (getType h d) = Primitive Any ∨ sourceType (getType h d) = Primitive Auto ∨
   sourceType (getType h s) = Primitive Any ∨ sourceType (getType h s) = Primitive Auto) →
  isTypeMatch (S fuel) h (Some src) (Some dest) = Returns true.
Proof.
  intros Hsrc Hdest Hs Hd Htag.
  rewrite (isTypeMatch_types _ _ _ _ _ _ _ _ Hsrc Hdest Hs Hd). unfold hasTag.
  destruct Htag as [Htag|[Htag|[Htag|Htag]]].
  - by rewrite Htag.
  - by rewrite Htag.
  - unfold castsDirectly, canCastFromPrimitiveType. rewrite Htag. simpl. by destruct (_ || _).
  - unfold castsDirectly, canCastFromPrimitiveType. rewrite Htag. simpl. by destruct (_ || _).
Qed.

Lemma any_and_auto_accept_witness :
  isTypeMatch 1 Scenario.theHeap (Some (Scenario.plain Scenario.tC))
    (Some (Scenario.plain Scenario.tAny)) = Returns true
  ∧ isTypeMatch 1 Scenario.theHeap (Some (Scenario.plain Scenario.tAny))
      (Some (Scenario.plain Scenario.tC)) = Returns true.
Proof.
  split.
  - apply (any_and_auto_accept 0 Scenario.theHeap
             (Scenario.plain Scenario.tC) (Scenario.plain Scenario.tAny)
             (Scenario.plain Scenario.tC) (Scenario.plain Scenario.tAny) Scenario.tC Scenario.tAny);
      try reflexivity.
    left. reflexivity.
  - apply (any_and_auto_accept 0 Scenario.theHeap
             (Scenario.plain Scenario.tAny) (Scenario.plain Scenario.tC)
             (Scenario.plain Scenario.tAny) (Scenario.plain Scenario.tC) Scenario.tAny Scenario.tC);
      try reflexivity.
    do 2 right. left. reflexivity.
Defined.

(** X11: the rows of the matrix for [Void] and [Template].  A [Void] source
    is compatible with no primitive destination but [Any] and [Auto], not
    even with [Void]; a [Template] source is compatible with a primitive
    destination exactly when that is [Any], [Auto] or a [Template] with the
    same declaring token. *)
Theorem void_and_template_rows fuel h src dest resolvedSrc resolvedDest s d p :
  selfResolve h src = Some resolvedSrc → selfResolve h dest = Some resolvedDest →
  symbolType resolvedSrc = OfType s → symbolType resolvedDest = OfType d →
  sourceType (getType h d) = Primitive p →
  (sourceType (getType h s) = Primitive Void →
   isTypeMatch (S fuel) h (Some src) (Some dest)
     = Returns (bool_decide (p = Any) || bool_decide (p = Auto)))
  ∧ (sourceType (getType h s) = Primitive Template →
     isTypeMatch (S fuel) h (Some src) (Some dest)
       = Returns (bool_decide (p = Any) || bool_decide (p = Auto)
                  || bool_decide (p = Template)
                     && sameToken (type_declaredPlace (getType h s))
                                  (type_declaredPlace (getType h d)))).
Proof.
  intros Hsrc Hdest Hs Hd Hp.
  rewrite (isTypeMatch_types _ _ _ _ _ _ _ _ Hsrc Hdest Hs Hd).
  unfold hasTag, castsDirectly, canCastFromPrimitiveType, constructorFallback.
  rewrite Hp. simpl. split; intros Htag; rewrite Htag; simpl.
  - by destruct (_ || _).
  - destruct (bool_decide (p = Any) || bool_decide (p = Auto)); [done|]. simpl.
    by destruct (_ && _).
Qed.

Lemma void_and_template_rows_witness :
  isTypeMatch 1 Scenario.fooHeap (Some (Scenario.plain Scenario.tVoid))
    (Some (Scenario.plain Scenario.tVoid))
  = Returns (bool_decide (Void = Any) || bool_decide (Void = Auto))
  ∧ isTypeMatch 1 Scenario.fooHeap (Some (Scenario.plain Scenario.tT))
      (Some (Scenario.plain Scenario.tT))
    = Returns (bool_decide (Template = Any) || bool_decide (Template = Auto)
               || bool_decide (Template = Template)
                  && sameToken (type_declaredPlace (getType Scenario.fooHeap Scenario.tT))
                               (type_declaredPlace (getType Scenario.fooHeap Scenario.tT))).
Proof.
  split.
  - apply (proj1 (void_and_template_rows 0 Scenario.fooHeap
                    (Scenario.plain Scenario.tVoid) (Scenario.plain Scenario.tVoid)
                    (Scenario.plain Scenario.tVoid) (Scenario.plain Scenario.tVoid)
                    Scenario.tVoid Scenario.tVoid Void eq_refl eq_refl eq_refl eq_refl eq_refl)).
    reflexivity.
  - apply (proj2 (void_and_template_rows 0 Scenario.fooHeap
                    (Scenario.plain Scenario.tT) (Scenario.plain Scenario.tT)
                    (Scenario.plain Scenario.tT) (Scenario.plain Scenario.tT)
                    Scenario.tT Scenario.tT Template eq_refl eq_refl eq_refl eq_refl eq_refl)).
    reflexivity.
Defined.

(** [void] is not compatible with [void]; the template parameter [T] is
    compatible with itself. *)
Example void_is_not_void :
  isTypeMatch 1 Scenario.fooHeap (Some (Scenario.plain Scenario.tVoid))
    (Some (Scenario.plain Scenario.tVoid)) = Returns false
  ∧ isTypeMatch 1 Scenario.fooHeap (Some (Scenario.plain Scenario.tT))
      (Some (Scenario.plain Scenario.tT)) = Returns true.
Proof. vm_compute. split; reflexivity. Qed.

(** X12: for a class or enum source, identity of the declaration decides,
    not its name: a destination with the same declaring token is compatible;
    a destination with another declaring token that is not tagged [Any] or
    [Auto], is not a listed base and is refused by the constructor fallback
    is not, whatever the two are named. *)
Theorem declarations_compare_by_identity fuel h src dest resolvedSrc resolvedDest s d srcNode :
  selfResolve h src = Some resolvedSrc → selfResolve h dest = Some resolvedDest →
  symbolType resolvedSrc = OfType s → symbolType resolvedDest = OfType d →
  sourceType (getType h s) = Node srcNode →
  (token_addr (type_declaredPlace (getType h s)) = token_addr (type_declaredPlace (getType h d)) →
   isTypeMatch (S fuel) h (Some src) (Some dest) = Returns true)
  ∧ (token_addr (type_declaredPlace (getType h s)) ≠ token_addr (type_declaredPlace (getType h d)) →
     hasTag Any (getType h d) || hasTag Auto (getType h d) = false →
     canCastStatically srcNode (sourceType (getType h d)) (getType h s) d = false →
     constructorFallback fuel h (getType h s) resolvedDest (sourceType (getType h d))
       = Returns false →
     isTypeMatch (S fuel) h (Some src) (Some dest) = Returns false).
Proof.
  intros Hsrc Hdest Hs Hd Hnode.
  rewrite (isTypeMatch_types _ _ _ _ _ _ _ _ Hsrc Hdest Hs Hd).
  unfold castsDirectly, sameToken. rewrite Hnode. split.
  - intros Hsame. rewrite (bool_decide_eq_true_2 _ Hsame). simpl. by destruct (_ || _).
  - intros Hother Hany Hbase Hfallback.
    rewrite Hany, (bool_decide_eq_false_2 _ Hother), Hbase. simpl. exact Hfallback.
Qed.

Lemma declarations_compare_by_identity_witness :
  isTypeMatch 1 Scenario.fooHeap (Some (Scenario.plain Scenario.tFoo1))
    (Some (Scenario.plain Scenario.tFoo1)) = Returns true
  ∧ isTypeMatch 1 Scenario.fooHeap (Some (Scenario.plain Scenario.tFoo1))
      (Some (Scenario.plain Scenario.tFoo2)) = Returns false.
Proof.
  split.
  - apply (proj1 (declarations_compare_by_identity 0 Scenario.fooHeap
                    (Scenario.plain Scenario.tFoo1) (Scenario.plain Scenario.tFoo1)
                    (Scenario.plain Scenario.tFoo1) (Scenario.plain Scenario.tFoo1)
                    Scenario.tFoo1 Scenario.tFoo1 (Scenario.classNode 120 "Foo" 40)
                    eq_refl eq_refl eq_refl eq_refl eq_refl)).
    reflexivity.
  - apply (proj2 (declarations_compare_by_identity 0 Scenario.fooHeap
                    (Scenario.plain Scenario.tFoo1) (Scenario.plain Scenario.tFoo2)
                    (Scenario.plain Scenario.tFoo1) (Scenario.plain Scenario.tFoo2)
                    Scenario.tFoo1 Scenario.tFoo2 (Scenario.classNode 120 "Foo" 40)
                    eq_refl eq_refl eq_refl eq_refl eq_refl)).
    + vm_compute. discriminate.
    + reflexivity.
    + reflexivity.
    + vm_compute. reflexivity.
Defined.

(** The two classes have the same name. *)
Example both_are_named_Foo :
  text (type_declaredPlace (getType Scenario.fooHeap Scenario.tFoo1))
  = text (type_declaredPlace (getType Scenario.fooHeap Scenario.tFoo2)).
Proof. reflexivity. Qed.

(** *** Function handlers *)

Lemma handlerParametersMatch_true
    (check : option DeducedType → option DeducedType → outcome bool) srcParams destParams :
  ∀ remaining i,
    handlerParametersMatch check srcParams destParams i remaining = Returns true
    ↔ ∀ j, i ≤ j < i + remaining →
           check (at_index srcParams j) (at_index destParams j) = Returns true.
Proof.
  induction remaining as [|remaining IH]; intros i; simpl.
  - split; [intros _ j Hj; lia|done].
  - destruct (check (at_index srcParams i) (at_index destParams i)) as [[|]| |] eqn:Hi; simpl.
    + rewrite IH. split.
      * intros Hrest j Hj. destruct (decide (j = i)) as [->|]; [done|]. apply Hrest. lia.
      * intros Hall j Hj. apply Hall. lia.
    + split; [done|]. intros Hall. specialize (Hall i ltac:(lia)). congruence.
    + split; [done|]. intros Hall. specialize (Hall i ltac:(lia)). congruence.
    + split; [done|]. intros Hall. specialize (Hall i ltac:(lia)). congruence.
Qed.

(** X13: a function handler is compatible with a function destination
    exactly when the return types are compatible, the two have the same
    number of parameters, and the parameter types are compatible position by
    position, each in the direction from source to destination. *)
Theorem handlers_match_pointwise fuel h src dest resolvedSrc resolvedDest s d :
  selfResolve h src = Some resolvedSrc → selfResolve h dest = Some resolvedDest →
  symbolType resolvedSrc = OfFunction s → symbolType resolvedDest = OfFunction d →
  (isTypeMatch (S fuel) h (Some src) (Some dest) = Returns true
   ↔ isTypeMatch fuel h (returnType (getFunction h s)) (returnType (getFunction h d)) = Returns true
     ∧ length (parameterTypes (getFunction h s)) = length (parameterTypes (getFunction h d))
     ∧ ∀ i, i < length (parameterTypes (getFunction h s)) →
            isTypeMatch fuel h (at_index (parameterTypes (getFunction h s)) i)
                               (at_index (parameterTypes (getFunction h d)) i) = Returns true).
Proof.
  intros Hsrc Hdest Hs Hd. simpl. unfold isTypeMatchBody. rewrite Hsrc, Hdest.
  unfold isTypeMatchInternal. rewrite Hs, Hd. unfold isFunctionHandlerMatch.
  destruct (isTypeMatch fuel h (returnType _) (returnType _)) as [[|]| |]; simpl;
    try (split; [done|by intros [? _]]).
  case_bool_decide as Hlen; simpl.
  - rewrite handlerParametersMatch_true. split.
    + intros Hall. repeat split; try done. intros i Hi. apply Hall. lia.
    + intros (_ & _ & Hall) j Hj. apply Hall. lia.
  - split; [done|]. by intros (_ & ? & _).
Qed.

Lemma handlers_match_pointwise_witness :
  isTypeMatch 2 Scenario.theHeap (Some (Scenario.handler Scenario.f1))
    (Some (Scenario.handler Scenario.f1)) = Returns true
  ↔ isTypeMatch 1 Scenario.theHeap (returnType (getFunction Scenario.theHeap Scenario.f1))
      (returnType (getFunction Scenario.theHeap Scenario.f1)) = Returns true
    ∧ length (parameterTypes (getFunction Scenario.theHeap Scenario.f1))
      = length (parameterTypes (getFunction Scenario.theHeap Scenario.f1))
    ∧ ∀ i, i < length (parameterTypes (getFunction Scenario.theHeap Scenario.f1)) →
           isTypeMatch 1 Scenario.theHeap
             (at_index (parameterTypes (getFunction Scenario.theHeap Scenario.f1)) i)
             (at_index (parameterTypes (getFunction Scenario.theHeap Scenario.f1)) i) = Returns true.
Proof.
  apply (handlers_match_pointwise 1 Scenario.theHeap
           (Scenario.handler Scenario.f1) (Scenario.handler Scenario.f1)
           (Scenario.handler Scenario.f1) (Scenario.handler Scenario.f1)
           Scenario.f1 Scenario.f1); reflexivity.
Defined.

(** The handler of [f(int)] is compatible with itself and with no handler
    of [f(int, bool)]. *)
Example handler_of_f :
  isTypeMatch 2 Scenario.theHeap (Some (Scenario.handler Scenario.f1))
    (Some (Scenario.handler Scenario.f1)) = Returns true
  ∧ isTypeMatch 2 Scenario.theHeap (Some (Scenario.handler Scenario.f1))
      (Some (Scenario.handler Scenario.f2)) = Returns false.
Proof. vm_compute. split; reflexivity. Qed.

(** ** More of the overload resolver *)

Section Selection.
Variable getNodeLocation : ParsedRange → LocationInfo.
Variable typeFuel : nat.

Lemma parameterLoop_allPass args h ds params :
  ∀ i, allPass typeFuel h args i params = true →
       parameterLoop getNodeLocation typeFuel args i params {| heap := h; diagnostics := ds |}
       = Returns (RanToEnd, {| heap := h; diagnostics := ds |}).
Proof.
  induction params as [|param params IH]; intros i; [done|].
  simpl allPass. intros Hall. apply andb_true_iff in Hall as [Hpass Hrest].
  rewrite parameterLoop_pass by done. by apply IH.
Qed.

(** An applicable overload takes the call, without a word, whether or not
    it has a next overload. *)
Lemma checkFunctionMatch_applicable fuel args h ds :
  applicable typeFuel h args = true →
  checkFunctionMatch getNodeLocation typeFuel (S fuel) args {| heap := h; diagnostics := ds |}
  = Returns (returnType (getFunction h (calleeFunc args)),
             {| heap := pushReferenced h (scope args) (referenceTo args (calleeFunc args));
                diagnostics := ds |}).
Proof.
  unfold applicable. intros Happlicable.
  apply andb_true_iff in Happlicable as [Hmany Hall]. apply negb_true_iff in Hmany.
  simpl. unfold checkFunctionMatchBody. simpl. rewrite Hmany.
  by rewrite (parameterLoop_allPass _ _ _ _ _ Hall).
Qed.

Lemma allPass_app args h params1 params2 :
  ∀ i, allPass typeFuel h args i (params1 ++ params2)
       = allPass typeFuel h args i params1
         && allPass typeFuel h args (i + length params1) params2.
Proof.
  induction params1 as [|param params1 IH]; intros i; simpl.
  - by rewrite Nat.add_0_r.
  - rewrite IH, andb_assoc. by replace (i + S (length params1)) with (S i + length params1) by lia.
Qed.

Lemma allPass_supplied_silent args h params :
  argumentsHaveNodes args → comparisonsReturn typeFuel h args →
  ∀ i, i + length params ≤ length (callerArgs args) →
       (allPass typeFuel h args i params = true
        ↔ conversionErrors getNodeLocation typeFuel h args i (length params) = []).
Proof.
  intros Hnodes Hreturn. induction params as [|param params IH]; intros i Hlen; simpl in *.
  - done.
  - rewrite conversionErrors_S. unfold passes. rewrite bool_decide_eq_false_2 by lia.
    destruct (Hreturn i) as [[|] Hok]; [lia| |]; rewrite Hok; simpl.
    + apply IH. lia.
    + destruct (conversionError_mismatch getNodeLocation typeFuel h args i Hnodes ltac:(lia) Hok)
        as (? & ? & ? & _ & _ & _ & ->).
      done.
Qed.

Lemma allPass_unsupplied_silent args h params :
  ∀ i, length (callerArgs args) ≤ i →
       (allPass typeFuel h args i params = true ↔ find hasNoDefault params = None).
Proof.
  induction params as [|param params IH]; intros i Hi; simpl; [done|].
  unfold passes. rewrite bool_decide_eq_true_2 by done.
  destruct (hasNoDefault param); simpl; [done|]. apply IH. lia.
Qed.

(** The call is settled without a word exactly when the callee is
    applicable. *)
Lemma applicable_silent args h :
  argumentsHaveNodes args → comparisonsReturn typeFuel h args →
  (applicable typeFuel h args = true
   ↔ (if bool_decide (length (paramList (sourceNode (getFunction h (calleeFunc args))))
                      < length (callerArgs args))
      then [tooManyArguments getNodeLocation h args]
      else conversionErrors getNodeLocation typeFuel h args 0 (length (callerArgs args))
           ++ missingArguments getNodeLocation args
                (paramList (sourceNode (getFunction h (calleeFunc args))))) = []).
Proof.
  intros Hnodes Hreturn. unfold applicable.
  set (params := paramList (sourceNode (getFunction h (calleeFunc args)))).
  case_bool_decide as Hmany; simpl; [done|].
  rewrite <- (take_drop (length (callerArgs args)) params) at 1.
  assert (Htake : length (take (length (callerArgs args)) params) = length (callerArgs args)).
  { rewrite length_take. lia. }
  rewrite allPass_app, andb_true_iff, Htake.
  rewrite (allPass_supplied_silent args h _ Hnodes Hreturn 0) by lia.
  rewrite (allPass_unsupplied_silent args h _ (0 + length (callerArgs args))) by lia.
  rewrite Htake. unfold missingArguments. fold params.
  destruct (find hasNoDefault (drop (length (callerArgs args)) params)).
  - split; [by intros [_ ?]|]. intros Hnil. by apply app_eq_nil in Hnil as [_ ?].
  - rewrite app_nil_r. split; [by intros [? _]|done].
Qed.

(** Along a finite chain: the overload settled on, what was reported, and
    how the two hang together. *)
Lemma checkFunctionMatch_selects h a chain :
  overloads h a chain →
  ∀ fuel args ds,
    length chain ≤ fuel → argumentsHaveNodes args →
    (∀ f, f ∈ chain → comparisonsReturn typeFuel h (withCallee args f)) →
    ∃ f new,
      f ∈ chain ∧
      checkFunctionMatch getNodeLocation typeFuel fuel (withCallee args a)
        {| heap := h; diagnostics := ds |}
      = Returns (returnType (getFunction h f),
                 {| heap := pushReferenced h (scope args) (referenceTo args f);
                    diagnostics := ds ++ new |}) ∧
      (new = [] ↔ ∃ g, g ∈ chain ∧ applicable typeFuel h (withCallee args g) = true) ∧
      (new ≠ [] → last chain = Some f).
Proof.
  induction 1 as [a Ha|a b chain Ha Hb IH]; intros [|fuel] args ds Hfuel Hnodes Hreturn;
    simpl in Hfuel; try lia.
  - exists a. eexists. split; [by left|].
    rewrite checkFunctionMatch_final; try done; [|apply Hreturn; by left].
    split; [reflexivity|]. split; [|done].
    rewrite <- (applicable_silent (withCallee args a) h Hnodes (Hreturn a ltac:(by left))).
    split.
    + intros Happlicable. exists a. split; [by left|done].
    + intros (g & Hg & Happlicable). by apply list_elem_of_singleton in Hg as ->.
  - rewrite (checkFunctionMatch_nonfinal getNodeLocation typeFuel fuel (withCallee args a) b);
      try done; [|apply Hreturn; by left].
    destruct (applicable typeFuel h (withCallee args a)) eqn:Happlicable.
    + exists a, []. split; [by left|]. rewrite app_nil_r. split; [done|].
      split; [|done]. split; [|done]. intros _. exists a. split; [by left|done].
    + destruct (IH fuel args ds) as (f & new & Hin & Hrun & Hsilent & Hlast); [lia|done| |].
      { intros f Hf. apply Hreturn. by right. }
      exists f, new. split; [by right|]. split; [exact Hrun|]. split.
      * rewrite Hsilent. split.
        -- intros (g & Hg & Hgood). exists g. split; [by right|done].
        -- intros (g & Hg & Hgood). apply elem_of_cons in Hg as [->|Hg]; [congruence|].
           by exists g.
      * intros Hnew. destruct (overloads_nonempty _ _ _ Hb) as [rest ->].
        rewrite last_cons_cons. by apply Hlast.
Qed.
End Selection.

(** X14: the first applicable overload of the chain takes the call: the
    overloads before it hand the call on and report nothing, the overloads
    after it are not consulted, and the call is bound to it with nothing
    reported. *)
Theorem first_applicable_overload_wins getNodeLocation typeFuel h args ds before f after :
  ∀ a fuel,
    overloads h a (before ++ f :: after) → length before < fuel →
    (∀ b, b ∈ before →
          applicable typeFuel h (withCallee args b) = false ∧
          comparisonsReturn typeFuel h (withCallee args b)) →
    applicable typeFuel h (withCallee args f) = true →
    checkFunctionMatch getNodeLocation typeFuel fuel (withCallee args a)
      {| heap := h; diagnostics := ds |}
    = Returns (returnType (getFunction h f),
               {| heap := pushReferenced h (scope args) (referenceTo args f);
                  diagnostics := ds |}).
Proof.
  induction before as [|b before IH]; intros a [|fuel] Hchain Hfuel Hbefore Hf;
    simpl in Hfuel; try lia.
  - destruct (overloads_nonempty _ _ _ Hchain) as [rest [= <- _]].
    by apply (checkFunctionMatch_applicable getNodeLocation typeFuel fuel (withCallee args f)).
  - simpl in Hchain. inversion Hchain as [? ? Heq|? next ? Hnext Hrest]; subst.
    { by destruct before. }
    destruct (Hbefore b ltac:(by left)) as [Hnot Hreturn].
    rewrite (checkFunctionMatch_nonfinal getNodeLocation typeFuel fuel (withCallee args b) next);
      try done.
    rewrite Hnot. apply IH; [done|lia| |done].
    intros b' Hb'. apply Hbefore. by right.
Qed.

Lemma first_applicable_overload_wins_witness :
  checkFunctionMatch Scenario.getNodeLocation 1 2
    (withCallee (Scenario.call "f" 500 30 Scenario.f1 [Scenario.number; Scenario.boolean]) Scenario.f1)
    {| heap := Scenario.chainedHeap; diagnostics := [] |}
  = Returns (returnType (getFunction Scenario.chainedHeap Scenario.f2),
             {| heap := pushReferenced Scenario.chainedHeap Scenario.sGlobal
                          (referenceTo
                             (Scenario.call "f" 500 30 Scenario.f1 [Scenario.number; Scenario.boolean])
                             Scenario.f2);
                diagnostics := [] |}).
Proof.
  apply (first_applicable_overload_wins Scenario.getNodeLocation 1 Scenario.chainedHeap
           (Scenario.call "f" 500 30 Scenario.f1 [Scenario.number; Scenario.boolean]) []
           [Scenario.f1] Scenario.f2 [Scenario.f3]).
  - apply overloads_next with Scenario.f2; [reflexivity|].
    apply overloads_next with Scenario.f3; [reflexivity|].
    apply overloads_last. reflexivity.
  - simpl. lia.
  - intros b Hb. apply list_elem_of_singleton in Hb as ->. split; [reflexivity|].
    intros i Hi. simpl in Hi. destruct i as [|[|i]]; try lia; eexists; vm_compute; reflexivity.
  - vm_compute. reflexivity.
Defined.

(** X15: a call is settled with nothing reported exactly when some overload
    of the chain is applicable; whenever anything is reported, the call is
    bound to the last overload of the chain. *)
Theorem reports_come_from_the_last_overload getNodeLocation typeFuel fuel args w chain :
  overloads (heap w) (calleeFunc args) chain → length chain ≤ fuel →
  argumentsHaveNodes args →
  (∀ f, f ∈ chain → comparisonsReturn typeFuel (heap w) (withCallee args f)) →
  ∃ f new,
    f ∈ chain ∧
    checkFunctionMatch getNodeLocation typeFuel fuel args w
    = Returns (returnType (getFunction (heap w) f),
               {| heap := pushReferenced (heap w) (scope args) (referenceTo args f);
                  diagnostics := diagnostics w ++ new |}) ∧
    (new = [] ↔ ∃ g, g ∈ chain ∧ applicable typeFuel (heap w) (withCallee args g) = true) ∧
    (new ≠ [] → last chain = Some f).
Proof.
  destruct w as [h ds]. cbn [heap diagnostics]. intros Hchain Hfuel Hnodes Hreturn.
  destruct (checkFunctionMatch_selects getNodeLocation typeFuel h _ chain Hchain
              fuel args ds Hfuel Hnodes Hreturn) as (f & new & Hin & Hrun & Hsilent & Hlast).
  rewrite withCallee_calleeFunc in Hrun. by exists f, new.
Qed.

Lemma reports_come_from_the_last_overload_witness :
  ∃ f new,
    f ∈ [Scenario.f1; Scenario.f2; Scenario.f3] ∧
    checkFunctionMatch Scenario.getNodeLocation 1 3
      (Scenario.call "f" 500 30 Scenario.f1 [Scenario.string_; Scenario.string_])
      {| heap := Scenario.chainedHeap; diagnostics := [] |}
    = Returns (returnType (getFunction Scenario.chainedHeap f),
               {| heap := pushReferenced Scenario.chainedHeap Scenario.sGlobal
                            (referenceTo
                               (Scenario.call "f" 500 30 Scenario.f1 [Scenario.string_; Scenario.string_])
                               f);
                  diagnostics := [] ++ new |}) ∧
    (new = [] ↔
     ∃ g, g ∈ [Scenario.f1; Scenario.f2; Scenario.f3] ∧
          applicable 1 Scenario.chainedHeap
            (withCallee (Scenario.call "f" 500 30 Scenario.f1 [Scenario.string_; Scenario.string_]) g)
          = true) ∧
    (new ≠ [] → last [Scenario.f1; Scenario.f2; Scenario.f3] = Some f).
Proof.
  apply (reports_come_from_the_last_overload Scenario.getNodeLocation 1 3
           (Scenario.call "f" 500 30 Scenario.f1 [Scenario.string_; Scenario.string_])
           {| heap := Scenario.chainedHeap; diagnostics := [] |}).
  - apply overloads_next with Scenario.f2; [reflexivity|].
    apply overloads_next with Scenario.f3; [reflexivity|].
    apply overloads_last. reflexivity.
  - simpl. lia.
  - unfold argumentsHaveNodes. simpl. lia.
  - intros f Hf i Hi.
    apply list_elem_of_In in Hf. simpl in Hf, Hi.
    destruct Hf as [<-|[<-|[<-|[]]]]; destruct i as [|[|i]]; try lia;
      eexists; vm_compute; reflexivity.
Defined.

(** The call [f("..", "..")] fits none of the three overloads: it is bound
    to the last one, [f(int, bool, string = ..)], with two conversion
    errors. *)
Example strings_go_to_the_last_overload :
  checkFunctionMatch Scenario.getNodeLocation 1 3
    (Scenario.call "f" 500 30 Scenario.f1 [Scenario.string_; Scenario.string_])
    {| heap := Scenario.chainedHeap; diagnostics := [] |}
  = Returns (Some (Scenario.plain Scenario.tBool),
             {| heap := pushReferenced Scenario.chainedHeap Scenario.sGlobal
                          {| declaredSymbol := FunctionRef Scenario.f3;
                             referencedToken := Scenario.word 500 "f" 30 |};
                diagnostics :=
                  [ {| diag_location := Scenario.atLine 30;
                       diag_message := "Cannot convert 'string' to parameter type 'int' 💢" |};
                    {| diag_location := Scenario.atLine 30;
                       diag_message := "Cannot convert 'string' to parameter type 'bool' 💢" |} ] |}).
Proof. vm_compute. reflexivity. Qed.

(** *** Construction calls *)

Lemma parameterLoop_caller getNodeLocation typeFuel args args' :
  callerArgs args' = callerArgs args → calleeFunc args' = calleeFunc args →
  templateTranslator args' = templateTranslator args →
  caller_argList (callerNode args') = caller_argList (callerNode args) →
  caller_nodeRange (callerNode args') = caller_nodeRange (callerNode args) →
  ∀ params i w,
    parameterLoop getNodeLocation typeFuel args' i params w
    = parameterLoop getNodeLocation typeFuel args i params w.
Proof.
  intros Hargs Hcallee Htranslator Hlist Hrange.
  assert (Hactual : ∀ h i, actualTypeAt args' h i = actualTypeAt args h i).
  { intros h i. unfold actualTypeAt. by rewrite Hargs, Htranslator. }
  assert (Hexpected : ∀ h i, expectedTypeAt args' h i = expectedTypeAt args h i).
  { intros h i. unfold expectedTypeAt. by rewrite Hcallee, Htranslator. }
  induction params as [|param params IH]; intros i w; simpl; [done|].
  rewrite Hactual, Hexpected, Hargs, Hcallee, Hlist, Hrange.
  destruct (bool_decide (length (callerArgs args) ≤ i) && bool_decide (defaultExpr param = None));
    [done|].
  destruct (actualTypeAt args (heap w) i) as [actualType|]; [|apply IH].
  destruct (expectedTypeAt args (heap w) i) as [expectedType|]; [|apply IH].
  destruct (isTypeMatch typeFuel (heap w) (Some actualType) (Some expectedType)) as [[|]| |];
    simpl; try done.
  destruct (nextOverload (getFunction (heap w) (calleeFunc args))); [done|].
  destruct (caller_argList (callerNode args) !! i); [apply IH|done].
Qed.

(** X16: a construction call and a function call are checked alike: with
    the same identifier token, argument list and range, the two give the same
    return type, the same reports and the same reference edge. *)
Theorem construction_calls_are_checked_alike getNodeLocation typeFuel
    identifier argList nodeRange scope actuals translator :
  ∀ fuel callee w,
    checkFunctionMatch getNodeLocation typeFuel fuel
      {| scope := scope; callerNode := NodeConstructCall identifier argList nodeRange;
         callerArgs := actuals; calleeFunc := callee; templateTranslator := translator |} w
    = checkFunctionMatch getNodeLocation typeFuel fuel
        {| scope := scope; callerNode := NodeFuncCall identifier argList nodeRange;
           callerArgs := actuals; calleeFunc := callee; templateTranslator := translator |} w.
Proof.
  induction fuel as [|fuel IH]; intros callee w; [done|].
  simpl. unfold checkFunctionMatchBody, handleTooMuchCallerArgs. simpl.
  destruct (bool_decide _).
  - destruct (nextOverload _); [apply IH|done].
  - rewrite (parameterLoop_caller getNodeLocation typeFuel
               {| scope := scope; callerNode := NodeFuncCall identifier argList nodeRange;
                  callerArgs := actuals; calleeFunc := callee; templateTranslator := translator |}
               {| scope := scope; callerNode := NodeConstructCall identifier argList nodeRange;
                  callerArgs := actuals; calleeFunc := callee; templateTranslator := translator |})
      by done.
    destruct (parameterLoop _ _ _ _ _ _) as [[[| |next] w']| |]; simpl; try done.
    apply IH.
Qed.

(** *** Unresolved template slots *)

(** X17: a parameter whose type the call's [templateTranslator] binds to
    [undefined] accepts any argument: when every supplied position has an
    absent side after the substitution, and every parameter past the
    supplied arguments has a default, the callee takes the call with nothing
    reported, and [isTypeMatch] is not needed for it (any fuel for it will
    do, none included). *)
Theorem unresolved_slots_accept_anything :
  (∀ args h i translator expectedType,
     templateTranslator args = Some translator →
     at_index (parameterTypes (getFunction h (calleeFunc args))) i = Some expectedType →
     translator !! token_addr (declaredPlace h (toObject (symbolType expectedType))) = Some None →
     expectedTypeAt args h i = None)
  ∧
  (∀ getNodeLocation typeFuel fuel args w,
     length (callerArgs args)
       ≤ length (paramList (sourceNode (getFunction (heap w) (calleeFunc args)))) →
     find hasNoDefault
       (drop (length (callerArgs args))
             (paramList (sourceNode (getFunction (heap w) (calleeFunc args))))) = None →
     (∀ i, i < length (callerArgs args) →
           actualTypeAt args (heap w) i = None ∨ expectedTypeAt args (heap w) i = None) →
     checkFunctionMatch getNodeLocation typeFuel (S fuel) args w
     = Returns (returnType (getFunction (heap w) (calleeFunc args)),
                {| heap := pushReferenced (heap w) (scope args) (referenceTo args (calleeFunc args));
                   diagnostics := diagnostics w |})).
Proof.
  split.
  - intros args h i translator expectedType Htranslator Hexpected Hunbound.
    unfold expectedTypeAt. rewrite Htranslator, Hexpected. simpl. by rewrite Hunbound.
  - intros getNodeLocation typeFuel fuel args [h ds] Hlen Hdefaults Habsent.
    cbn [heap diagnostics] in *.
    apply checkFunctionMatch_applicable. unfold applicable.
    set (params := paramList (sourceNode (getFunction h (calleeFunc args)))) in *.
    rewrite bool_decide_eq_false_2 by lia. simpl.
    rewrite <- (take_drop (length (callerArgs args)) params).
    assert (Htake : length (take (length (callerArgs args)) params) = length (callerArgs args)).
    { rewrite length_take. lia. }
    rewrite allPass_app, Htake. apply andb_true_iff. split.
    + apply allPass_supplied; [lia|].
      intros j Hj. unfold comparison.
      destruct (Habsent j Hj) as [-> | ->]; [done|].
      by destruct (actualTypeAt args h j).
    + by apply allPass_unsupplied_silent.
Qed.

Lemma unresolved_slots_accept_anything_witness :
  expectedTypeAt Scenario.callPick Scenario.genericHeap 0 = None
  ∧ checkFunctionMatch Scenario.getNodeLocation 0 1 Scenario.callPick
      {| heap := Scenario.genericHeap; diagnostics := [] |}
    = Returns (returnType (getFunction Scenario.genericHeap Scenario.pick),
               {| heap := pushReferenced Scenario.genericHeap Scenario.sGlobal
                            (referenceTo Scenario.callPick Scenario.pick);
                  diagnostics := [] |}).
Proof.
  split.
  - apply (proj1 unresolved_slots_accept_anything Scenario.callPick Scenario.genericHeap 0
             {[ 106%positive := None ]} (Scenario.plain Scenario.tT)).
    + reflexivity.
    + reflexivity.
    + vm_compute. reflexivity.
  - apply (proj2 unresolved_slots_accept_anything Scenario.getNodeLocation 0 0 Scenario.callPick
             {| heap := Scenario.genericHeap; diagnostics := [] |}).
    + vm_compute. lia.
    + reflexivity.
    + intros i Hi. simpl in Hi. destruct i as [|i]; [|lia]. right. vm_compute. reflexivity.
Defined.

(** ** A chain tied into a knot *)

(** X18: on a function that is its own next overload the chain walks of the
    checker give no result.  The search for an implicit constructor calls
    itself on that same function as long as the function does not take the
    source alone, and a call with too many arguments for it is handed to that
    same function again; so no depth of recursion yields a verdict, and
    nothing is returned or reported. *)
Theorem knotted_chain_gives_no_verdict h s :
  nextOverload (getFunction h s) = Some s →
  (∀ fuel srcType,
     acceptsSingle h (getFunction h s) srcType = false →
     canConstructBy (S fuel) h s srcType = canConstructBy fuel h s srcType
     ∧ ∀ verdict, canConstructBy fuel h s srcType ≠ Returns verdict)
  ∧ (∀ getNodeLocation typeFuel fuel args ds,
       length (paramList (sourceNode (getFunction h s))) < length (callerArgs args) →
       checkFunctionMatch getNodeLocation typeFuel (S fuel) (withCallee args s)
         {| heap := h; diagnostics := ds |}
       = checkFunctionMatch getNodeLocation typeFuel fuel (withCallee args s)
           {| heap := h; diagnostics := ds |}
       ∧ ∀ result, checkFunctionMatch getNodeLocation typeFuel fuel (withCallee args s)
                     {| heap := h; diagnostics := ds |} ≠ Returns result).
Proof.
  intros Hknot. split.
  - intros fuel srcType Hrefuses.
    assert (Hstep : ∀ n, canConstructBy (S n) h s srcType = canConstructBy n h s srcType).
    { intros n. simpl. by rewrite Hrefuses, Hknot. }
    split; [apply Hstep|].
    induction fuel as [|fuel IH]; [done|]. by rewrite Hstep.
  - intros getNodeLocation typeFuel fuel args ds Hmany.
    assert (Hstep : ∀ n, checkFunctionMatch getNodeLocation typeFuel (S n) (withCallee args s)
                           {| heap := h; diagnostics := ds |}
                         = checkFunctionMatch getNodeLocation typeFuel n (withCallee args s)
                             {| heap := h; diagnostics := ds |}).
    { intros n.
      by apply (checkFunctionMatch_too_many getNodeLocation typeFuel n (withCallee args s) s). }
    split; [apply Hstep|].
    induction fuel as [|fuel IH]; [done|]. by rewrite Hstep.
Qed.

Lemma knotted_chain_gives_no_verdict_witness :
  (∀ verdict,
     canConstructBy 1000 (setNextOverload Scenario.theHeap Scenario.f1 Scenario.f1) Scenario.f1
       (Primitive String) ≠ Returns verdict)
  ∧ (∀ result,
       checkFunctionMatch Scenario.getNodeLocation 1 1000
         (withCallee (Scenario.call "f" 500 30 Scenario.f1 [Scenario.number; Scenario.boolean])
            Scenario.f1)
         {| heap := setNextOverload Scenario.theHeap Scenario.f1 Scenario.f1; diagnostics := [] |}
       ≠ Returns result).
Proof.
  destruct (knotted_chain_gives_no_verdict
              (setNextOverload Scenario.theHeap Scenario.f1 Scenario.f1) Scenario.f1)
    as [Hconstruct Hcall].
  - reflexivity.
  - split.
    + apply Hconstruct. reflexivity.
    + apply Hcall. vm_compute. lia.
Defined.
